(** * threadCreator: the tweet segmenter of [src/main.ts]

    A shallow embedding of [createTweets], [splitLongWord] and
    [sanitizeFileName] of the plugin class, with the JavaScript string
    primitives they call ([split] on [/\s+/], [join], [slice], [trim],
    [replace] with a global character class).

    A JavaScript string is a sequence of UTF-16 code units; [length],
    [slice] and the regular expressions of the source (none has the [u]
    flag) all work on code units, so a string is a [list N] here. *)

From Stdlib Require Import String Ascii ZArith NArith Lia Bool List.
From Stdlib Require Decimal DecimalString DecimalNat.
Import ListNotations.
Open Scope Z_scope.

(** * The program *)

(** ** Strings *)

Definition code_unit := N.
Definition jsstr := list code_unit.

(** Turns a literal into a JavaScript string, one code unit per character. *)
Definition js (s : string) : jsstr := map N_of_ascii (list_ascii_of_string s).

(** [s.length], as a JavaScript number. *)
Definition len {A : Type} (l : list A) : Z := Z.of_nat (length l).

(** The characters matched by [\s], which are also the ones [trim] strips:
    the WhiteSpace and LineTerminator productions of ECMAScript. *)
Definition is_space (c : code_unit) : bool :=
  ((9 <=? c) && (c <=? 13) || (c =? 32) || (c =? 160) || (c =? 5760)
   || (8192 <=? c) && (c <=? 8202) || (c =? 8232) || (c =? 8233)
   || (c =? 8239) || (c =? 8287) || (c =? 12288) || (c =? 65279))%N.

(** The character class [[.!?]]. *)
Definition is_terminator (c : code_unit) : bool :=
  ((c =? 46) || (c =? 33) || (c =? 63))%N.

(** [/[.!?]$/.test(word)]: without the [m] flag [$] only matches at the end
    of the input, so the test looks at the last code unit. *)
Definition ends_sentence (word : jsstr) : bool :=
  match rev word with
  | c :: _ => is_terminator c
  | [] => false
  end.

(** [Array.prototype.join]. *)
Fixpoint join (sep : jsstr) (l : list jsstr) : jsstr :=
  match l with
  | [] => []
  | x :: rest =>
      match rest with
      | [] => x
      | _ :: _ => x ++ sep ++ join sep rest
      end
  end.

(** The relative index computation shared by [slice] on strings and arrays:
    a negative index counts from the end, and the result is clamped to
    [0 .. n]. *)
Definition rel_index (n i : Z) : Z :=
  if i <? 0 then Z.max (n + i) 0 else Z.min i n.

(** [x.slice(b, e)] on a string or an array. *)
Definition slice {A : Type} (l : list A) (b e : Z) : list A :=
  let from := rel_index (len l) b in
  let to := rel_index (len l) e in
  firstn (Z.to_nat (Z.max (to - from) 0)) (skipn (Z.to_nat from) l).

(** [x.slice(b)]: the end defaults to the length. *)
Definition slice_from {A : Type} (l : list A) (b : Z) : list A :=
  slice l b (len l).

Fixpoint drop_space (s : jsstr) : jsstr :=
  match s with
  | [] => []
  | c :: s' => if is_space c then drop_space s' else s
  end.

(** [String.prototype.trim]. *)
Definition trim (s : jsstr) : jsstr :=
  rev (drop_space (rev (drop_space s))).

(** [content.split(/\s+/)].  The pieces between the maximal whitespace runs,
    empty pieces included: a leading or trailing run gives an empty first or
    last piece, and the empty string gives one empty piece.  [in_run] tells
    that the previous character belonged to the separator being skipped. *)
Fixpoint split_from (in_run : bool) (s : jsstr) : list jsstr :=
  match s with
  | [] => [[]]
  | c :: s' =>
      if is_space c then
        if in_run then split_from true s' else [] :: split_from true s'
      else
        match split_from false s' with
        | w :: ws => (c :: w) :: ws
        | [] => [[c]]
        end
  end.

Definition split_space (s : jsstr) : list jsstr := split_from false s.

(** ** splitLongWord *)

(** The [while] loop of [splitLongWord]; [fuel] bounds the number of tests of
    the loop condition, and [None] means the bound was reached. *)
Fixpoint splitLongWord_loop (fuel : nat) (word : jsstr) (maxLength : Z)
    (parts : list jsstr) (start : Z) : option (list jsstr) :=
  match fuel with
  | O => None
  | S fuel' =>
      if start <? len word then
        splitLongWord_loop fuel' word maxLength
          (parts ++ [slice word start (start + maxLength)])
          (start + maxLength)
      else Some parts
  end.

(** [splitLongWord(word, maxLength)].  The loop makes at most
    [word.length + 1] tests when it terminates at all (see
    [splitLongWord_loop_fuel_enough]), so [None] stands for a loop that
    never ends. *)
Definition splitLongWord (word : jsstr) (maxLength : Z) : option (list jsstr) :=
  splitLongWord_loop (S (length word)) word maxLength [] 0.

(** ** createTweets *)

Record state := mkState {
  tweets : list jsstr;
  currentWords : list jsstr;
  lastSentenceBreak : Z
}.

Definition buildTweet (wordsArray : list jsstr) : jsstr := join [32%N] wordsArray.

(** [if (currentWords.length > 0) { tweets.push(buildTweet(currentWords).trim());
    currentWords = []; }] *)
Definition flush (st : state) : state :=
  if 0 <? len (currentWords st) then
    mkState (tweets st ++ [trim (buildTweet (currentWords st))]) []
            (lastSentenceBreak st)
  else st.

(** [currentWords.push(w); if (/[.!?]$/.test(w)) lastSentenceBreak =
    currentWords.length - 1;] *)
Definition push_word (st : state) (w : jsstr) : state :=
  let cw := currentWords st ++ [w] in
  mkState (tweets st) cw
          (if ends_sentence w then len cw - 1 else lastSentenceBreak st).

(** The callback of [parts.forEach((part, idx) => ...)]. *)
Definition place_part (maxLength : Z) (st : state) (part : jsstr) (idx : nat)
    : state :=
  if Nat.eqb idx 0 && (0 <? len (currentWords st)) then
    let candidate := buildTweet (currentWords st ++ [part]) in
    if len candidate <=? maxLength then push_word st part
    else
      let st' := flush st in
      mkState (tweets st' ++ [part]) (currentWords st') (lastSentenceBreak st')
  else
    let st' := flush st in
    mkState (tweets st' ++ [part]) (currentWords st') (lastSentenceBreak st').

Fixpoint forEach_idx {A St : Type} (f : St -> A -> nat -> St) (l : list A)
    (idx : nat) (st : St) : St :=
  match l with
  | [] => st
  | x :: l' => forEach_idx f l' (S idx) (f st x idx)
  end.

(** The overflow branch up to [lastSentenceBreak = -1]: cut at the recorded
    sentence break, or flush the whole buffer. *)
Definition cut (st : state) : state :=
  let st' :=
    if negb (lastSentenceBreak st =? -1) then
      let tweet :=
        buildTweet (slice (currentWords st) 0 (lastSentenceBreak st + 1)) in
      mkState (tweets st ++ [trim tweet])
              (slice_from (currentWords st) (lastSentenceBreak st + 1))
              (lastSentenceBreak st)
    else flush st in
  mkState (tweets st') (currentWords st') (-1).

(** The callback of [words.forEach((word) => ...)]. *)
Definition process_word (maxLength : Z) (st : state) (word : jsstr)
    : option state :=
  let candidateWords := currentWords st ++ [word] in
  let candidateTweet := join [32%N] candidateWords in
  if len candidateTweet <=? maxLength then Some (push_word st word)
  else
    let st' := cut st in
    if len word >? maxLength then
      match splitLongWord word maxLength with
      | Some parts => Some (forEach_idx (place_part maxLength) parts 0%nat st')
      | None => None
      end
    else Some (push_word st' word).

Fixpoint forEach (f : state -> jsstr -> option state) (l : list jsstr)
    (st : state) : option state :=
  match l with
  | [] => Some st
  | w :: l' =>
      match f st w with
      | Some st' => forEach f l' st'
      | None => None
      end
  end.

Definition initial : state := mkState [] [] (-1).

(** [createTweets(content, maxLength)]; [None] when a call of
    [splitLongWord] does not return. *)
Definition createTweets (content : jsstr) (maxLength : Z)
    : option (list jsstr) :=
  let words := split_space content in
  match forEach (process_word maxLength) words initial with
  | Some st => Some (tweets (flush st))
  | None => None
  end.

(** ** sanitizeFileName *)

(** The character class of the pattern: backslash (92), slash (47), colon
    (58), star (42), question mark (63), double quote (34), less-than (60),
    greater-than (62) and vertical bar (124). *)
Definition is_illegal (c : code_unit) : bool :=
  ((c =? 92) || (c =? 47) || (c =? 58) || (c =? 42) || (c =? 63)
   || (c =? 34) || (c =? 60) || (c =? 62) || (c =? 124))%N.

(** [s.replace(/[...]/g, replacement)] for a one-character class: every
    match is replaced, left to right, the rest is copied. *)
Fixpoint replace_class (cls : code_unit -> bool) (replacement : jsstr)
    (s : jsstr) : jsstr :=
  match s with
  | [] => []
  | c :: s' =>
      (if cls c then replacement else [c]) ++ replace_class cls replacement s'
  end.

Definition sanitizeFileName (name : jsstr) : jsstr :=
  replace_class is_illegal [] name.

(** * Notions used in the statements *)

(** The list of consecutive pieces of width [n]; [fuel] bounds their number. *)
Fixpoint pieces {A : Type} (fuel n : nat) (w : list A) : list (list A) :=
  match fuel with
  | O => []
  | S fuel' =>
      match w with
      | [] => []
      | _ :: _ => firstn n w :: pieces fuel' n (skipn n w)
      end
  end.

Definition nonempty (w : jsstr) : bool :=
  match w with
  | [] => false
  | _ :: _ => true
  end.

(** The words of a text: the maximal runs of characters that are not
    whitespace, that is, the pieces of the split that are not empty. *)
Definition words (s : jsstr) : list jsstr := filter nonempty (split_space s).

Definition space_free (w : jsstr) : Prop := Forall (fun c => is_space c = false) w.

Definition starts_space (s : jsstr) : bool :=
  match s with
  | c :: _ => is_space c
  | [] => false
  end.

Definition ends_space (s : jsstr) : bool := starts_space (rev s).

(** A scanner with the word being read as an accumulator; it computes
    [words] and is easier to cut in two. *)
Fixpoint words_acc (cur s : jsstr) : list jsstr :=
  match s with
  | [] => if nonempty cur then [cur] else []
  | c :: s' =>
      if is_space c
      then (if nonempty cur then [cur] else []) ++ words_acc [] s'
      else words_acc (cur ++ [c]) s'
  end.

(** The three ways a word is processed. *)
Inductive processed (maxLength : Z) (st : state) (word : jsstr) : state -> Prop :=
| processed_fits :
    len (buildTweet (currentWords st ++ [word])) <= maxLength ->
    len word <= maxLength ->
    processed maxLength st word (push_word st word)
| processed_short :
    maxLength < len (buildTweet (currentWords st ++ [word])) ->
    len word <= maxLength ->
    processed maxLength st word (push_word (cut st) word)
| processed_long :
    maxLength < len word ->
    processed maxLength st word
      (mkState (tweets (flush (cut st)) ++
                pieces (S (length word)) (Z.to_nat maxLength) word) [] (-1)).

Definition trimmed (s : jsstr) : Prop :=
  starts_space s = false /\ ends_space s = false.

(** A word as it appears in the output: whole, or as the parts
    [splitLongWord] cuts it into when it is longer than the limit. *)
Definition expand (maxLength : Z) (w : jsstr) : list jsstr :=
  if len w >? maxLength then pieces (S (length w)) (Z.to_nat maxLength) w
  else [w].

(** The words emitted so far followed by those waiting in the buffer. *)
Definition visible (st : state) : list jsstr :=
  flat_map words (tweets st) ++ filter nonempty (currentWords st).

(** The state accounts for the words seen so far: the buffer holds pieces
    of the split, and the words emitted or buffered are the words seen. *)
Definition covers (maxLength : Z) (seen : list jsstr) (st : state) : Prop :=
  Forall space_free (currentWords st) /\
  visible st = flat_map (expand maxLength) (filter nonempty seen).

(** The nine characters the specification lists: backslash, slash, colon,
    star, question mark, double quote, less-than, greater-than, bar. *)
Definition removed_characters : list code_unit :=
  [92; 47; 58; 42; 63; 34; 60; 62; 124]%N.

(** A chunk that is not empty and has no whitespace at either end. *)
Definition solid (s : jsstr) : Prop := s <> [] /\ trimmed s.

Definition solid_word (w : jsstr) : Prop := w <> [] /\ space_free w.

(** What holds of the state while every word is non-empty and within the
    limit: chunks and buffered words are solid, the buffer is not empty once
    a word has been seen, and the sentence break points into the buffer. *)
Definition steady (seen : list jsstr) (st : state) : Prop :=
  Forall solid (tweets st) /\
  Forall solid_word (currentWords st) /\
  (seen <> [] -> currentWords st <> []) /\
  (lastSentenceBreak st = -1 \/
   0 <= lastSentenceBreak st < len (currentWords st)).

(** * Notions used in the further properties *)

(** The sentence break, when there is one, points into the buffer at a word
    that is not empty. *)
Definition break_ok (st : state) : Prop :=
  lastSentenceBreak st = -1 \/
  (0 <= lastSentenceBreak st < len (currentWords st) /\
   1 <= len (buildTweet (slice (currentWords st) 0 (lastSentenceBreak st + 1)))).

(** What bounds the chunks: the buffer fits, or it is a carried-over rest
    with one word pushed onto it, which the next overflow emits whole. *)
Definition within_twice (maxLength : Z) (st : state) : Prop :=
  Forall (fun t => len t <= 2 * maxLength - 1) (tweets st) /\
  ((len (buildTweet (currentWords st)) <= maxLength /\ break_ok st) \/
   (maxLength < len (buildTweet (currentWords st)) <= 2 * maxLength - 1 /\
    (lastSentenceBreak st = -1 \/
     lastSentenceBreak st = len (currentWords st) - 1))).


(** ** createNewNote *)

(** [String(n)] for a non-negative integer [n]: its decimal digits. *)
Definition decimal (n : nat) : jsstr :=
  js (DecimalString.NilEmpty.string_of_uint (Nat.to_uint n)).

(** The callback of [tweets.map((tweet, index) => ...)]: the template
    literal with the section header, a line feed and the tweet. *)
Definition section_text (total : nat) (tweet : jsstr) (index : nat) : jsstr :=
  js "**Tweet " ++ decimal (index + 1) ++ js " of " ++ decimal total ++ js ": "
  ++ decimal (length tweet) ++ js " Characters**" ++ [10%N] ++ tweet.

Fixpoint map_idx {A B : Type} (f : A -> nat -> B) (l : list A) (idx : nat)
    : list B :=
  match l with
  | [] => []
  | x :: l' => f x idx :: map_idx f l' (S idx)
  end.

(** The separator ['\n\n---\n\n']. *)
Definition divider : jsstr := [10; 10; 45; 45; 45; 10; 10]%N.

Definition threadContent (tweets : list jsstr) : jsstr :=
  join divider (map_idx (section_text (length tweets)) tweets 0%nat).

Definition folderName : jsstr := js "TwitterThreads".

Definition fileExt : jsstr := js ".md".

(** [originalFileName]: the sanitized base name of the active file, or
    ['Unknown File'] when [getActiveFile()] gives none. *)
Definition originalFileName (activeFile : option jsstr) : jsstr :=
  match activeFile with
  | Some basename => sanitizeFileName basename
  | None => js "Unknown File"
  end.

Definition fileBase (dateStr : jsstr) (activeFile : option jsstr) : jsstr :=
  js "Twitter Thread " ++ dateStr ++ js " for " ++ originalFileName activeFile.

(** The first path tried, [`${folderName}/${fileBase}.md`]. *)
Definition plain_path (base : jsstr) : jsstr :=
  folderName ++ js "/" ++ (base ++ fileExt).

(** The path built in the loop, [`${folderName}/${fileBase} (${counter}).md`]. *)
Definition numbered_path (base : jsstr) (counter : nat) : jsstr :=
  folderName ++ js "/" ++ (base ++ js " (" ++ decimal counter ++ js ")" ++ fileExt).

(** The loop [while (this.app.vault.getAbstractFileByPath(filePath))].
    [taken] answers the query on the vault, which nothing changes while the
    loop runs; [fuel] bounds the number of queries. *)
Fixpoint pick_path (fuel : nat) (taken : jsstr -> bool) (base filePath : jsstr)
    (counter : nat) : option jsstr :=
  match fuel with
  | O => None
  | S fuel' =>
      if taken filePath
      then pick_path fuel' taken base (numbered_path base counter) (S counter)
      else Some filePath
  end.

(** What [createNewNote] hands to [vault.create]: the path and the content
    of the note.  [dateStr] is the date part of [toISOString()]. *)
Definition createNewNote (fuel : nat) (taken : jsstr -> bool) (dateStr : jsstr)
    (activeFile : option jsstr) (tweets : list jsstr) : option (jsstr * jsstr) :=
  let base := fileBase dateStr activeFile in
  match pick_path fuel taken base (plain_path base) 1%nat with
  | Some filePath => Some (filePath, threadContent tweets)
  | None => None
  end.

(** The candidate paths in the order the loop tries them. *)
Definition candidate (base : jsstr) (k : nat) : jsstr :=
  match k with
  | O => plain_path base
  | S _ => numbered_path base k
  end.

Definition legal (s : jsstr) : Prop := Forall (fun c => ~ In c removed_characters) s.

Definition is_digit (c : code_unit) : Prop := (48 <= c <= 57)%N.

Definition legalb (s : jsstr) : bool := forallb (fun c => negb (is_illegal c)) s.

(** The query [getAbstractFileByPath] on a vault given by the list of its
    paths. *)
Definition member (vault : list jsstr) (p : jsstr) : bool :=
  existsb (fun q => if list_eq_dec N.eq_dec p q then true else false) vault.

(** ** The settings tab *)

(** The value of a code unit as a digit of the radix, if it is one: [0-9],
    then [a-z] or [A-Z] for ten and more. *)
Definition digit_value (radix : Z) (c : code_unit) : option Z :=
  let v :=
    if ((48 <=? c) && (c <=? 57))%N then Some (Z.of_N c - 48)
    else if ((97 <=? c) && (c <=? 122))%N then Some (Z.of_N c - 87)
    else if ((65 <=? c) && (c <=? 90))%N then Some (Z.of_N c - 55)
    else None in
  match v with
  | Some d => if d <? radix then Some d else None
  | None => None
  end.

(** The value of the longest prefix of digits; [acc] is the value read so
    far, [None] when no digit has been read. *)
Fixpoint parse_digits (radix : Z) (acc : option Z) (s : jsstr) : option Z :=
  match s with
  | [] => acc
  | c :: s' =>
      match digit_value radix c with
      | Some d =>
          parse_digits radix
            (Some (match acc with Some a => a * radix + d | None => d end)) s'
      | None => acc
      end
  end.

(** [parseInt(string)] without a radix, as the mathematical value the
    language definition computes before it converts it to a number; [None]
    is [NaN].  Leading whitespace is skipped, a sign is read, [0x] or [0X]
    selects radix 16, and the digits are read up to the first character that
    is not one.  The number returned is this value whenever it is below
    [2^53], which is so for every string of at most 15 characters. *)
Definition parseInt (string : jsstr) : option Z :=
  let s0 := drop_space string in
  let (sign, s1) :=
    match s0 with
    | c :: r =>
        if (c =? 45)%N then (-1, r)
        else if (c =? 43)%N then (1, r)
        else (1, s0)
    | [] => (1, s0)
    end in
  let (radix, s2) :=
    match s1 with
    | c0 :: c1 :: r =>
        if ((c0 =? 48) && ((c1 =? 120) || (c1 =? 88)))%N then (16, r)
        else (10, s1)
    | _ => (10, s1)
    end in
  match parse_digits radix None s2 with
  | Some v => Some (sign * v)
  | None => None
  end.

(** [DEFAULT_SETTINGS.maxTweetLength]. *)
Definition default_maxTweetLength : Z := 250.

(** The [onChange] callback of the text field: the new value of
    [settings.maxTweetLength], which [saveSettings] then stores. *)
Definition onChange (value : jsstr) : Z :=
  match parseInt value with
  | Some parsed =>
      if parsed >? 0 then parsed else default_maxTweetLength
  | None => default_maxTweetLength
  end.

(** ** Regular expressions *)

(** The patterns of [cleanContent] use literal characters, character
    classes, a quantifier on a class (greedy or lazy, with no upper bound),
    sequence, alternation, capture groups, back-references and the
    assertion [^].  They are matched as the language definition does it,
    by backtracking with a continuation. *)
Inductive regex : Type :=
| Eps
| Lit (c : code_unit)
| Cls (p : code_unit -> bool)
| Rep (min : nat) (greedy : bool) (p : code_unit -> bool)
| Seq (r1 r2 : regex)
| Alt (r1 r2 : regex)
| Grp (i : nat) (r : regex)
| Ref (i : nat)
| Bol (multiline : bool).

(** A state of the matcher: the character before the current position (none
    at the start of the input), the input from the current position on, and
    the captures. *)
Record mstate := mkM {
  m_prev : option code_unit;
  m_rest : jsstr;
  m_caps : nat -> option jsstr
}.

Definition set_cap (i : nat) (v : jsstr) (caps : nat -> option jsstr)
    : nat -> option jsstr :=
  fun j => if Nat.eqb j i then Some v else caps j.

(** The characters [.] does not match. *)
Definition is_line_terminator (c : code_unit) : bool :=
  ((c =? 10) || (c =? 13) || (c =? 8232) || (c =? 8233))%N.

(** A quantified class: [min] more characters are required; a greedy
    quantifier tries one more character before it tries the continuation, a
    lazy one the other way round. *)
Fixpoint rep (p : code_unit -> bool) (greedy : bool) (min : nat)
    (prev : option code_unit) (rest : jsstr) (caps : nat -> option jsstr)
    (k : mstate -> option mstate) {struct rest} : option mstate :=
  if greedy then
    match
      match rest with
      | c :: rest' =>
          if p c then rep p greedy (pred min) (Some c) rest' caps k else None
      | [] => None
      end
    with
    | Some res => Some res
    | None =>
        match min with
        | O => k (mkM prev rest caps)
        | S _ => None
        end
    end
  else
    match
      match min with
      | O => k (mkM prev rest caps)
      | S _ => None
      end
    with
    | Some res => Some res
    | None =>
        match rest with
        | c :: rest' =>
            if p c then rep p greedy (pred min) (Some c) rest' caps k else None
        | [] => None
        end
    end.

(** [s] at the head of [rest]: what follows it and the last character
    read. *)
Fixpoint strip_prefix (s rest : jsstr) (prev : option code_unit)
    : option (option code_unit * jsstr) :=
  match s with
  | [] => Some (prev, rest)
  | c :: s' =>
      match rest with
      | x :: rest' => if (x =? c)%N then strip_prefix s' rest' (Some x) else None
      | [] => None
      end
  end.

(** What the matcher has read between two states. *)
Definition consumed (st st' : mstate) : jsstr :=
  firstn (length (m_rest st) - length (m_rest st')) (m_rest st).

Fixpoint mtch (r : regex) (st : mstate) (k : mstate -> option mstate)
    : option mstate :=
  match r with
  | Eps => k st
  | Lit c =>
      match m_rest st with
      | x :: rest' =>
          if (x =? c)%N then k (mkM (Some x) rest' (m_caps st)) else None
      | [] => None
      end
  | Cls p =>
      match m_rest st with
      | x :: rest' => if p x then k (mkM (Some x) rest' (m_caps st)) else None
      | [] => None
      end
  | Rep min greedy p => rep p greedy min (m_prev st) (m_rest st) (m_caps st) k
  | Seq r1 r2 => mtch r1 st (fun st1 => mtch r2 st1 k)
  | Alt r1 r2 =>
      match mtch r1 st k with
      | Some res => Some res
      | None => mtch r2 st k
      end
  | Grp i r1 =>
      mtch r1 st (fun st1 =>
        k (mkM (m_prev st1) (m_rest st1) (set_cap i (consumed st st1) (m_caps st1))))
  | Ref i =>
      match m_caps st i with
      | None => k st
      | Some s =>
          match strip_prefix s (m_rest st) (m_prev st) with
          | Some (prev', rest') => k (mkM prev' rest' (m_caps st))
          | None => None
          end
      end
  | Bol multiline =>
      match m_prev st with
      | None => k st
      | Some c => if multiline && is_line_terminator c then k st else None
      end
  end.

(** One attempt at a position, all captures undefined. *)
Definition exec (r : regex) (prev : option code_unit) (rest : jsstr)
    : option mstate :=
  mtch r (mkM prev rest (fun _ => None)) Some.

(** A replacement string: text and references [$n] to captures. *)
Inductive titem : Type :=
| TText (s : jsstr)
| TGroup (i : nat).

Fixpoint substitute (tpl : list titem) (caps : nat -> option jsstr) : jsstr :=
  match tpl with
  | [] => []
  | TText s :: tpl' => s ++ substitute tpl' caps
  | TGroup i :: tpl' =>
      match caps i with
      | Some s => s ++ substitute tpl' caps
      | None => substitute tpl' caps
      end
  end.

(** [s.replace(r, tpl)] for a pattern without the [g] flag: the leftmost
    match is replaced. *)
Fixpoint replace_first (r : regex) (tpl : list titem) (prev : option code_unit)
    (s : jsstr) : jsstr :=
  match exec r prev s with
  | Some st => substitute tpl (m_caps st) ++ m_rest st
  | None =>
      match s with
      | [] => []
      | c :: s' => c :: replace_first r tpl (Some c) s'
      end
  end.

(** [s.replace(r, tpl)] for a pattern with the [g] flag: matches are
    searched left to right, each from the end of the one before it (one
    character further after an empty match).  [skip] counts the characters
    of the current match still to pass over. *)
Fixpoint replace_all (r : regex) (tpl : list titem) (skip : nat)
    (prev : option code_unit) (s : jsstr) : jsstr :=
  match skip with
  | S n =>
      match s with
      | c :: s' => replace_all r tpl n (Some c) s'
      | [] => []
      end
  | O =>
      match exec r prev s with
      | Some st =>
          substitute tpl (m_caps st) ++
          match s with
          | c :: s' =>
              match (length s - length (m_rest st))%nat with
              | O => c :: replace_all r tpl 0 (Some c) s'
              | S n => replace_all r tpl n (Some c) s'
              end
          | [] => []
          end
      | None =>
          match s with
          | c :: s' => c :: replace_all r tpl 0 (Some c) s'
          | [] => []
          end
      end
  end.

(** ** cleanContent *)

Definition lit (s : string) : regex :=
  fold_right (fun c r => Seq (Lit c) r) Eps (js s).

Definition any_char (c : code_unit) : bool := true.

(** [.], any character but a line terminator. *)
Definition dot (c : code_unit) : bool := negb (is_line_terminator c).

Definition is_char (x : code_unit) (c : code_unit) : bool := (c =? x)%N.

Definition other_than (x : code_unit) (c : code_unit) : bool := negb (c =? x)%N.

(** [/^---[\s\S]+?---\s*/] *)
Definition front_matter : regex :=
  Seq (Bol false)
    (Seq (lit "---")
       (Seq (Rep 1 false any_char) (Seq (lit "---") (Rep 0 true is_space)))).

(** [/^#+\s+/gm] *)
Definition heading : regex :=
  Seq (Bol true) (Seq (Rep 1 true (is_char 35%N)) (Rep 1 true is_space)).

(** [/(\*\*|__)(.*?)\1/g] *)
Definition bold : regex :=
  Seq (Grp 1 (Alt (lit "**") (lit "__")))
    (Seq (Grp 2 (Rep 0 false dot)) (Ref 1)).

(** [/(\*|_)(.*?)\1/g] *)
Definition italic : regex :=
  Seq (Grp 1 (Alt (Lit 42%N) (Lit 95%N)))
    (Seq (Grp 2 (Rep 0 false dot)) (Ref 1)).

(** The pattern for inline code: a backtick, one or more characters other
    than a backtick in group 1, a backtick; with the [g] flag. *)
Definition inline_code : regex :=
  Seq (Lit 96%N) (Seq (Grp 1 (Rep 1 true (other_than 96%N))) (Lit 96%N)).

(** [/~~(.*?)~~/g] *)
Definition strikethrough : regex :=
  Seq (lit "~~") (Seq (Grp 1 (Rep 0 false dot)) (lit "~~")).

(** [/\[([^\]]+)\]\([^)]+\)/g] *)
Definition link : regex :=
  Seq (Lit 91%N)
    (Seq (Grp 1 (Rep 1 true (other_than 93%N)))
       (Seq (Lit 93%N) (Seq (Lit 40%N) (Seq (Rep 1 true (other_than 41%N)) (Lit 41%N))))).

Definition cleanContent (content : jsstr) : jsstr :=
  let content := replace_first front_matter [] None content in
  let content := replace_all heading [] 0 None content in
  let content := replace_all bold [TGroup 2] 0 None content in
  let content := replace_all italic [TGroup 2] 0 None content in
  let content := replace_all inline_code [TGroup 1] 0 None content in
  let content := replace_all strikethrough [TGroup 1] 0 None content in
  replace_all link [TGroup 1] 0 None content.

(** The characters that start a match of one of the global patterns:
    [#], [*], [_], backtick, [~] and the opening bracket. *)
Definition is_markup (c : code_unit) : bool :=
  ((c =? 35) || (c =? 42) || (c =? 95) || (c =? 96) || (c =? 126) || (c =? 91))%N.

Definition markup_free (s : jsstr) : Prop := Forall (fun c => is_markup c = false) s.

(** The text at the head of which a pattern is tried starts with none of
    the characters of [starts]. *)
Definition head_not_in (starts : list code_unit) (s : jsstr) : Prop :=
  match s with
  | [] => True
  | c :: _ => ~ In c starts
  end.

(** From one state of a match to a later one: the input has not grown, and
    a capture is as before or no longer than what has been read. *)
Definition cap_bound (st st' : mstate) : Prop :=
  (length (m_rest st') <= length (m_rest st))%nat /\
  forall i,
    m_caps st' i = m_caps st i \/
    exists s, m_caps st' i = Some s /\
              (length s + length (m_rest st') <= length (m_rest st))%nat.

(** A replacement that is empty or one reference to a capture. *)
Definition one_group (tpl : list titem) : Prop :=
  tpl = [] \/ exists i, tpl = [TGroup i].

(** The character before the position after reading [run] from a position
    with [prev] before it. *)
Definition after_run (prev : option code_unit) (run : jsstr) : option code_unit :=
  fold_left (fun _ c => Some c) run prev.

(** [s] starts with [p]. *)
Definition starts_with (p s : jsstr) : bool :=
  match strip_prefix p s None with
  | Some _ => true
  | None => false
  end.

(** No character of [s] is in [chars]. *)
Definition free_of (chars : list code_unit) (s : jsstr) : Prop :=
  Forall (fun c => ~ In c chars) s.

(** The front matter closes at the first [---] found after at least one
    character: no other [---] starts inside [body] past its first
    character. *)
Definition closes_first (body : jsstr) : Prop :=
  forall a b, body = a ++ b -> a <> [] -> b <> [] ->
  starts_with (js "---") (b ++ js "---") = false.

(** The position after [pre] is the start of a line. *)
Definition at_line_start (pre : jsstr) : Prop :=
  match after_run None pre with
  | None => True
  | Some c => is_line_terminator c = true
  end.

(** ** The command *)



(** * Properties *)

(** ** The primitives on concrete inputs *)

Example split_space_padded :
  split_space (js "  a   b ") = [[]; js "a"; js "b"; []].
Proof. reflexivity. Qed.

Example words_padded : words (js "  a   b ") = [js "a"; js "b"].
Proof. reflexivity. Qed.

Example trim_padded : trim (js "  a b  ") = js "a b".
Proof. reflexivity. Qed.

Example slice_negative : slice (js "abcdef") (-3) (-1) = js "de".
Proof. reflexivity. Qed.

Example splitLongWord_zero_width : splitLongWord (js "abc") 0 = None.
Proof. reflexivity. Qed.

Example sanitizeFileName_path : sanitizeFileName (js "a/b:c*d?.md") = js "abcd.md".
Proof. reflexivity. Qed.

(** ** Lengths and slices *)

Lemma len_nil {A : Type} : len (@nil A) = 0.
Proof. reflexivity. Qed.

Lemma len_cons {A : Type} (x : A) (l : list A) : len (x :: l) = len l + 1.
Proof. unfold len. simpl length. lia. Qed.

Lemma len_app {A : Type} (l1 l2 : list A) : len (l1 ++ l2) = len l1 + len l2.
Proof. unfold len. rewrite length_app. lia. Qed.

Lemma len_nonneg {A : Type} (l : list A) : 0 <= len l.
Proof. unfold len. lia. Qed.

Lemma len_zero_nil {A : Type} (l : list A) : len l = 0 -> l = [].
Proof. destruct l; [reflexivity | rewrite len_cons; pose proof (len_nonneg l); lia]. Qed.

(** With indices in range a slice is [firstn] after [skipn]. *)
Lemma slice_in_range {A : Type} (l : list A) (b e : Z) :
  0 <= b <= len l -> b <= e ->
  slice l b e = firstn (Z.to_nat (e - b)) (skipn (Z.to_nat b) l).
Proof.
  intros Hb He. unfold slice, rel_index.
  destruct (b <? 0) eqn:Eb; [apply Z.ltb_lt in Eb; lia |].
  destruct (e <? 0) eqn:Ee; [apply Z.ltb_lt in Ee; lia |].
  rewrite (Z.min_l b) by lia.
  destruct (Z.le_gt_cases e (len l)) as [Hle | Hgt].
  - rewrite Z.min_l by lia. rewrite Z.max_l by lia. reflexivity.
  - rewrite Z.min_r by lia. rewrite Z.max_l by lia.
    rewrite !firstn_all2; [reflexivity | |];
      rewrite length_skipn; unfold len in *; lia.
Qed.

(** The two slices taken at a sentence break split the buffer in two,
    whatever the index. *)
Lemma slice_split {A : Type} (l : list A) (e : Z) :
  slice l 0 e ++ slice_from l e = l.
Proof.
  unfold slice_from, slice.
  assert (H0 : rel_index (len l) 0 = 0).
  { unfold rel_index. simpl. pose proof (len_nonneg l). lia. }
  assert (Hn : rel_index (len l) (len l) = len l).
  { unfold rel_index. pose proof (len_nonneg l).
    destruct (len l <? 0) eqn:E; [apply Z.ltb_lt in E; lia | lia]. }
  rewrite H0, Hn.
  assert (Hr : 0 <= rel_index (len l) e <= len l).
  { unfold rel_index. pose proof (len_nonneg l).
    destruct (e <? 0) eqn:E; [apply Z.ltb_lt in E | apply Z.ltb_ge in E]; lia. }
  set (k := rel_index (len l) e) in *.
  rewrite Z.sub_0_r, (Z.max_l k) by lia. rewrite (Z.max_l (len l - k)) by lia.
  simpl skipn.
  rewrite (firstn_all2 (skipn (Z.to_nat k) l)).
  - apply firstn_skipn.
  - rewrite length_skipn. unfold len in *. lia.
Qed.

(** ** The slicing loop *)

Lemma loop_pieces (fuel : nat) : forall (word : jsstr) (maxLength : Z) (parts : list jsstr) (start : Z),
  1 <= maxLength -> 0 <= start ->
  (length (skipn (Z.to_nat start) word) < fuel)%nat ->
  splitLongWord_loop fuel word maxLength parts start =
  Some (parts ++ pieces fuel (Z.to_nat maxLength) (skipn (Z.to_nat start) word)).
Proof.
  induction fuel as [| fuel IH]; intros word m parts start Hm Hs Hf; [lia |].
  simpl splitLongWord_loop.
  destruct (start <? len word) eqn:E.
  - apply Z.ltb_lt in E.
    rewrite IH; try lia.
    + f_equal. rewrite <- app_assoc. f_equal.
      rewrite slice_in_range by lia.
      replace (start + m - start) with m by lia.
      assert (Hne : skipn (Z.to_nat start) word <> []).
      { intro Hnil. apply (f_equal (@length _)) in Hnil.
        rewrite length_skipn in Hnil. simpl in Hnil. unfold len in E. lia. }
      simpl pieces.
      destruct (skipn (Z.to_nat start) word) as [| c r] eqn:Es; [congruence |].
      simpl app. rewrite <- Es. rewrite skipn_skipn.
      replace (Z.to_nat m + Z.to_nat start)%nat with (Z.to_nat (start + m)) by lia.
      reflexivity.
    + rewrite length_skipn in *. unfold len in E. lia.
  - apply Z.ltb_ge in E.
    rewrite skipn_all2 by (unfold len in E; lia).
    simpl. rewrite app_nil_r. reflexivity.
Qed.

Lemma pieces_fuel {A : Type} (n : nat) : forall (f1 f2 : nat) (w : list A),
  (1 <= n)%nat -> (length w <= f1)%nat -> (length w <= f2)%nat ->
  pieces f1 n w = pieces f2 n w.
Proof.
  induction f1 as [| f1 IH]; intros f2 w Hn H1 H2.
  - destruct w; [destruct f2; reflexivity | simpl in H1; lia].
  - destruct w as [| c w]; [destruct f2; reflexivity |].
    destruct f2 as [| f2]; [simpl in H2; lia |].
    simpl pieces. f_equal. apply IH; trivial;
      rewrite length_skipn; simpl length in *; lia.
Qed.

Lemma pieces_concat {A : Type} (n : nat) : forall (fuel : nat) (w : list A),
  (1 <= n)%nat -> (length w <= fuel)%nat -> concat (pieces fuel n w) = w.
Proof.
  induction fuel as [| fuel IH]; intros w Hn Hf.
  - destruct w; [reflexivity | simpl in Hf; lia].
  - destruct w as [| c w]; [reflexivity |].
    simpl pieces. simpl concat. rewrite IH; trivial.
    + apply firstn_skipn.
    + rewrite length_skipn. simpl length in *. lia.
Qed.

Lemma pieces_bounds {A : Type} (n : nat) : forall (fuel : nat) (w : list A),
  (1 <= n)%nat ->
  Forall (fun p => (1 <= length p <= n)%nat) (pieces fuel n w).
Proof.
  induction fuel as [| fuel IH]; intros w Hn; [constructor |].
  destruct w as [| c w]; [constructor |].
  simpl pieces. constructor; [| apply IH; trivial].
  rewrite length_firstn. simpl length. lia.
Qed.

Lemma pieces_full {A : Type} (n : nat) : forall (fuel : nat) (w : list A),
  (1 <= n)%nat ->
  Forall (fun p => length p = n) (removelast (pieces fuel n w)).
Proof.
  induction fuel as [| fuel IH]; intros w Hn; [constructor |].
  destruct w as [| c w]; [constructor |].
  simpl pieces.
  destruct (pieces fuel n (skipn n (c :: w))) as [| p ps] eqn:Ep.
  - constructor.
  - change (removelast (firstn n (c :: w) :: p :: ps))
      with (firstn n (c :: w) :: removelast (p :: ps)).
    constructor.
    + rewrite length_firstn.
      destruct fuel as [| fuel]; [discriminate |].
      simpl pieces in Ep.
      destruct (skipn n (c :: w)) as [| d r] eqn:Es; [discriminate |].
      apply (f_equal (@length _)) in Es. rewrite length_skipn in Es.
      simpl length in *. lia.
    + rewrite <- Ep. apply IH; trivial.
Qed.

Lemma pieces_nth {A : Type} (n : nat) : forall (fuel : nat) (w : list A) (i : nat),
  (1 <= n)%nat -> (i < length (pieces fuel n w))%nat ->
  nth i (pieces fuel n w) [] = firstn n (skipn (i * n) w).
Proof.
  induction fuel as [| fuel IH]; intros w i Hn Hi; [simpl in Hi; lia |].
  destruct w as [| c w]; [simpl in Hi; lia |].
  simpl pieces in *. destruct i as [| i].
  - reflexivity.
  - simpl nth. rewrite IH; trivial; [| simpl length in Hi; lia].
    rewrite skipn_skipn. f_equal. f_equal. simpl. lia.
Qed.

Lemma pieces_length {A : Type} (n : nat) : forall (fuel : nat) (w : list A),
  (1 <= n)%nat -> (length (pieces fuel n w) * n < length w + n)%nat.
Proof.
  induction fuel as [| fuel IH]; intros w Hn; [simpl; lia |].
  destruct w as [| c w]; [simpl; lia |].
  simpl pieces. simpl length at 1.
  specialize (IH (skipn n (c :: w)) Hn). rewrite length_skipn in IH.
  destruct (Nat.le_gt_cases n (length (c :: w))) as [Hle | Hgt].
  - lia.
  - rewrite skipn_all2 in * by lia.
    destruct fuel; simpl in *; lia.
Qed.

(** What [splitLongWord] returns for a positive width. *)
Lemma splitLongWord_pieces (word : jsstr) (maxLength : Z) :
  1 <= maxLength ->
  splitLongWord word maxLength =
  Some (pieces (S (length word)) (Z.to_nat maxLength) word).
Proof.
  intro Hm. unfold splitLongWord.
  rewrite loop_pieces; try lia.
  - reflexivity.
  - simpl skipn. lia.
Qed.

(** More fuel does not change a result. *)
Lemma splitLongWord_loop_mono (fuel : nat) : forall word maxLength parts start r,
  splitLongWord_loop fuel word maxLength parts start = Some r ->
  splitLongWord_loop (S fuel) word maxLength parts start = Some r.
Proof.
  induction fuel as [| fuel IH]; intros word m parts start r H; [discriminate |].
  simpl in H. change (splitLongWord_loop (S (S fuel)) word m parts start)
    with (if start <? len word
          then splitLongWord_loop (S fuel) word m
                 (parts ++ [slice word start (start + m)]) (start + m)
          else Some parts).
  destruct (start <? len word); [apply IH; exact H | exact H].
Qed.

Lemma splitLongWord_loop_mono_le (f1 f2 : nat) word maxLength parts start r :
  (f1 <= f2)%nat ->
  splitLongWord_loop f1 word maxLength parts start = Some r ->
  splitLongWord_loop f2 word maxLength parts start = Some r.
Proof.
  induction 1 as [| f2 Hle IH]; intro H; [exact H |].
  apply splitLongWord_loop_mono. apply IH. exact H.
Qed.

(** With a width of zero or less the start index never reaches the end. *)
Lemma splitLongWord_loop_stuck (fuel : nat) : forall word maxLength parts start,
  maxLength <= 0 -> start < len word ->
  splitLongWord_loop fuel word maxLength parts start = None.
Proof.
  induction fuel as [| fuel IH]; intros word m parts start Hm Hs; [reflexivity |].
  simpl. destruct (start <? len word) eqn:E.
  - apply IH; lia.
  - apply Z.ltb_ge in E. lia.
Qed.

(** The bound built into [splitLongWord] loses nothing: a result reached
    with any amount of fuel is the result of [splitLongWord]. *)
Lemma splitLongWord_loop_fuel_enough (fuel : nat) word maxLength r :
  splitLongWord_loop fuel word maxLength [] 0 = Some r ->
  splitLongWord word maxLength = Some r.
Proof.
  intro H. unfold splitLongWord.
  destruct (Z.le_gt_cases 1 maxLength) as [Hm | Hm].
  - destruct (Nat.le_gt_cases fuel (S (length word))) as [Hle | Hgt].
    + eapply splitLongWord_loop_mono_le; eauto.
    + pose proof (splitLongWord_pieces word maxLength Hm) as Hp.
      unfold splitLongWord in Hp.
      eapply splitLongWord_loop_mono_le in Hp; [| apply Nat.lt_le_incl; exact Hgt].
      rewrite Hp in H. rewrite <- H. exact (splitLongWord_pieces word maxLength Hm).
  - destruct word as [| c word].
    + destruct fuel; [discriminate | simpl in H |- *; exact H].
    + rewrite splitLongWord_loop_stuck in H; [discriminate | lia |].
      rewrite len_cons. pose proof (len_nonneg word). lia.
Qed.

(** ** Words *)

Lemma split_from_not_nil (s : jsstr) : forall b, split_from b s <> [].
Proof.
  induction s as [| c s IH]; intro b; simpl; [discriminate |].
  destruct (is_space c).
  - destruct b; [apply IH | discriminate].
  - destruct (split_from false s); discriminate.
Qed.

Lemma split_from_space_free (s : jsstr) : forall b, Forall space_free (split_from b s).
Proof.
  induction s as [| c s IH]; intro b; simpl.
  - repeat constructor.
  - destruct (is_space c) eqn:Ec.
    + destruct b; [apply IH | constructor; [constructor | apply IH]].
    + specialize (IH false). destruct (split_from false s) as [| w ws].
      * repeat constructor. exact Ec.
      * inversion IH; subst. constructor; [constructor; assumption | assumption].
Qed.

Lemma split_from_words_acc (s : jsstr) :
  (forall cur, match split_from false s with
               | h :: t => filter nonempty ((cur ++ h) :: t)
               | [] => []
               end = words_acc cur s) /\
  filter nonempty (split_from true s) = words_acc [] s.
Proof.
  induction s as [| c s [IHf IHt]]; split; try intro cur; simpl.
  - rewrite app_nil_r. reflexivity.
  - reflexivity.
  - destruct (is_space c).
    + rewrite app_nil_r, IHt. destruct (nonempty cur); reflexivity.
    + specialize (IHf (cur ++ [c])).
      pose proof (split_from_not_nil s false) as Hne.
      destruct (split_from false s) as [| h t]; [congruence |].
      rewrite <- app_assoc in IHf. exact IHf.
  - destruct (is_space c).
    + exact IHt.
    + specialize (IHf [c]).
      pose proof (split_from_not_nil s false) as Hne.
      destruct (split_from false s) as [| h t]; [congruence |].
      exact IHf.
Qed.

Lemma words_words_acc (s : jsstr) : words s = words_acc [] s.
Proof.
  unfold words, split_space.
  destruct (split_from_words_acc s) as [Hf _]. specialize (Hf []).
  pose proof (split_from_not_nil s false) as Hne.
  destruct (split_from false s) as [| h t]; [congruence | exact Hf].
Qed.

Lemma words_acc_space (a : jsstr) : forall (cur : jsstr) (sp : code_unit) (b : jsstr),
  is_space sp = true ->
  words_acc cur (a ++ sp :: b) = words_acc cur a ++ words_acc [] b.
Proof.
  induction a as [| c a IH]; intros cur sp b Hsp; simpl.
  - rewrite Hsp. destruct (nonempty cur); simpl; [reflexivity |].
    reflexivity.
  - destruct (is_space c).
    + rewrite IH by assumption. rewrite app_assoc. reflexivity.
    + apply IH. assumption.
Qed.

Lemma words_acc_space_free (w : jsstr) : forall cur,
  space_free w -> words_acc cur w = filter nonempty [cur ++ w].
Proof.
  induction w as [| c w IH]; intros cur Hw; simpl.
  - rewrite app_nil_r. reflexivity.
  - inversion Hw as [| ? ? Hc Hw']; subst. rewrite Hc.
    rewrite IH by assumption. rewrite <- app_assoc. reflexivity.
Qed.

(** A space between two texts separates their words. *)
Lemma words_app_space (a b : jsstr) (sp : code_unit) :
  is_space sp = true -> words (a ++ sp :: b) = words a ++ words b.
Proof.
  intro Hsp. rewrite !words_words_acc. apply words_acc_space. exact Hsp.
Qed.

Lemma words_space_free (w : jsstr) : space_free w -> words w = filter nonempty [w].
Proof.
  intro Hw. rewrite words_words_acc. apply (words_acc_space_free w [] Hw).
Qed.

Lemma words_nil : words [] = [].
Proof. reflexivity. Qed.

Lemma is_space_32 : is_space 32%N = true.
Proof. reflexivity. Qed.

(** The words of a joined buffer are its non-empty entries. *)
Lemma words_buildTweet (ws : list jsstr) :
  Forall space_free ws -> words (buildTweet ws) = filter nonempty ws.
Proof.
  unfold buildTweet. induction ws as [| w ws IH]; intro H; [reflexivity |].
  inversion H as [| ? ? Hw Hws]; subst.
  destruct ws as [| w' ws].
  - simpl join. apply words_space_free. exact Hw.
  - change (join [32%N] (w :: w' :: ws)) with (w ++ 32%N :: join [32%N] (w' :: ws)).
    rewrite words_app_space by reflexivity.
    rewrite IH by assumption. rewrite words_space_free by assumption.
    simpl. destruct (nonempty w); reflexivity.
Qed.

(** The words of a list of chunks joined by single spaces. *)
Lemma words_join (l : list jsstr) : words (join [32%N] l) = flat_map words l.
Proof.
  induction l as [| x l IH]; [reflexivity |].
  destruct l as [| y l].
  - simpl. rewrite app_nil_r. reflexivity.
  - change (join [32%N] (x :: y :: l)) with (x ++ 32%N :: join [32%N] (y :: l)).
    rewrite words_app_space by reflexivity. rewrite IH. reflexivity.
Qed.

(** ** trim *)

Lemma words_drop_space (s : jsstr) : words (drop_space s) = words s.
Proof.
  induction s as [| c s IH]; [reflexivity |].
  simpl drop_space. destruct (is_space c) eqn:Ec; [| reflexivity].
  rewrite IH. symmetry. apply (words_app_space [] s c Ec).
Qed.

Lemma words_rev_drop_space (r : jsstr) : words (rev (drop_space r)) = words (rev r).
Proof.
  induction r as [| c r IH]; [reflexivity |].
  simpl drop_space. destruct (is_space c) eqn:Ec; [| reflexivity].
  rewrite IH. simpl rev.
  rewrite (words_app_space (rev r) [] c Ec), words_nil, app_nil_r. reflexivity.
Qed.

(** Trimming keeps the words. *)
Lemma words_trim (s : jsstr) : words (trim s) = words s.
Proof.
  unfold trim. rewrite words_rev_drop_space, rev_involutive.
  apply words_drop_space.
Qed.

Lemma drop_space_starts (s : jsstr) : starts_space (drop_space s) = false.
Proof.
  induction s as [| c s IH]; [reflexivity |].
  simpl drop_space. destruct (is_space c) eqn:Ec; [exact IH | exact Ec].
Qed.

(** What is left of a list after dropping leading spaces ends as the list
    does. *)
Lemma drop_space_ends (s : jsstr) :
  ends_space s = false -> ends_space (drop_space s) = false.
Proof.
  induction s as [| c s IH]; intro H; [reflexivity |].
  simpl drop_space. destruct (is_space c) eqn:Ec; [| exact H].
  apply IH. unfold ends_space in *. simpl rev in H.
  destruct (rev s) as [| d r]; [reflexivity | exact H].
Qed.

Lemma trim_starts (s : jsstr) : starts_space (trim s) = false.
Proof.
  unfold trim.
  pose proof (drop_space_ends (rev (drop_space s))) as H.
  unfold ends_space in H. rewrite rev_involutive in H.
  apply H. apply drop_space_starts.
Qed.

Lemma trim_ends (s : jsstr) : ends_space (trim s) = false.
Proof.
  unfold trim, ends_space. rewrite rev_involutive. apply drop_space_starts.
Qed.

Lemma space_free_starts (w : jsstr) : space_free w -> starts_space w = false.
Proof. intro H. destruct H; [reflexivity | assumption]. Qed.

Lemma space_free_rev (w : jsstr) : space_free w -> space_free (rev w).
Proof. apply Forall_rev. Qed.

Lemma space_free_ends (w : jsstr) : space_free w -> ends_space w = false.
Proof. intro H. apply space_free_starts, space_free_rev, H. Qed.

(** Trimming does nothing to a text that neither starts nor ends with
    whitespace. *)
Lemma drop_space_id (s : jsstr) : starts_space s = false -> drop_space s = s.
Proof. destruct s as [| c s]; [reflexivity |]. simpl. intros ->. reflexivity. Qed.

Lemma trim_id (s : jsstr) :
  starts_space s = false -> ends_space s = false -> trim s = s.
Proof.
  intros Hs He. unfold trim. rewrite (drop_space_id s Hs).
  rewrite (drop_space_id (rev s) He). apply rev_involutive.
Qed.

(** ** The callbacks in closed form *)

Lemma buildTweet_snoc (cur : list jsstr) (w : jsstr) :
  cur <> [] -> buildTweet (cur ++ [w]) = buildTweet cur ++ 32%N :: w.
Proof.
  unfold buildTweet. induction cur as [| x cur IH]; intro H; [congruence |].
  destruct cur as [| y cur].
  - reflexivity.
  - change (join [32%N] ((x :: y :: cur) ++ [w]))
      with (x ++ 32%N :: join [32%N] ((y :: cur) ++ [w])).
    rewrite IH by discriminate.
    change (join [32%N] (x :: y :: cur)) with (x ++ 32%N :: join [32%N] (y :: cur)).
    rewrite <- app_assoc. reflexivity.
Qed.

(** The candidate is at least as long as the word added, and longer when
    the buffer is not empty. *)
Lemma len_candidate (cur : list jsstr) (w : jsstr) :
  len w <= len (buildTweet (cur ++ [w])) /\
  (cur <> [] -> len w + 1 <= len (buildTweet (cur ++ [w]))).
Proof.
  destruct cur as [| x cur].
  - split; [unfold buildTweet; simpl; lia | congruence].
  - rewrite buildTweet_snoc by discriminate.
    rewrite len_app, len_cons.
    pose proof (len_nonneg (buildTweet (x :: cur))). lia.
Qed.

Lemma flush_currentWords (st : state) : currentWords (flush st) = [].
Proof.
  unfold flush. destruct (0 <? len (currentWords st)) eqn:E; [reflexivity |].
  apply Z.ltb_ge in E. apply len_zero_nil. pose proof (len_nonneg (currentWords st)). lia.
Qed.

Lemma flush_lastSentenceBreak (st : state) :
  lastSentenceBreak (flush st) = lastSentenceBreak st.
Proof. unfold flush. destruct (0 <? len (currentWords st)); reflexivity. Qed.

Lemma flush_empty (st : state) : currentWords st = [] -> flush st = st.
Proof. intro H. unfold flush. rewrite H. reflexivity. Qed.

(** A part as wide as the limit is never merged into a buffer that holds
    something: the separating space alone makes the candidate too long. *)
Lemma place_part_alone (maxLength : Z) (st : state) (part : jsstr) (idx : nat) :
  currentWords st = [] \/ maxLength <= len part ->
  place_part maxLength st part idx =
  mkState (tweets (flush st) ++ [part]) [] (lastSentenceBreak st).
Proof.
  intro H. unfold place_part.
  rewrite flush_currentWords, flush_lastSentenceBreak.
  destruct (Nat.eqb idx 0 && (0 <? len (currentWords st))) eqn:E; [| reflexivity].
  apply andb_true_iff in E. destruct E as [_ E]. apply Z.ltb_lt in E.
  destruct H as [H | H]; [rewrite H in E; discriminate |].
  assert (Hne : currentWords st <> []) by (intro Hn; rewrite Hn in E; discriminate).
  destruct (len_candidate (currentWords st) part) as [_ Hc]. specialize (Hc Hne).
  destruct (len (buildTweet (currentWords st ++ [part])) <=? maxLength) eqn:Ef;
    [apply Z.leb_le in Ef; lia | reflexivity].
Qed.

Lemma place_parts_empty (maxLength : Z) (parts : list jsstr) : forall idx st,
  currentWords st = [] ->
  forEach_idx (place_part maxLength) parts idx st =
  mkState (tweets st ++ parts) [] (lastSentenceBreak st).
Proof.
  induction parts as [| p parts IH]; intros idx st H; simpl.
  - rewrite app_nil_r, <- H. destruct st; reflexivity.
  - rewrite place_part_alone by (left; exact H).
    rewrite IH by reflexivity. rewrite (flush_empty st H). simpl.
    rewrite <- app_assoc. reflexivity.
Qed.

(** The parts of an over-long word all become chunks of their own, after
    the buffer has been flushed. *)
Lemma place_parts_long (maxLength : Z) (st : state) (word : jsstr) :
  1 <= maxLength -> maxLength < len word ->
  forEach_idx (place_part maxLength)
    (pieces (S (length word)) (Z.to_nat maxLength) word) 0%nat st =
  mkState (tweets (flush st) ++ pieces (S (length word)) (Z.to_nat maxLength) word)
          [] (lastSentenceBreak st).
Proof.
  intros Hm Hw. destruct word as [| c word]; [rewrite len_nil in Hw; lia |].
  simpl pieces. simpl forEach_idx.
  rewrite place_part_alone.
  - rewrite place_parts_empty by reflexivity. simpl.
    rewrite <- app_assoc. reflexivity.
  - right. unfold len in *. rewrite length_firstn. lia.
Qed.

Lemma process_word_fits (maxLength : Z) (st : state) (word : jsstr) :
  len (buildTweet (currentWords st ++ [word])) <= maxLength ->
  process_word maxLength st word = Some (push_word st word).
Proof.
  intro H. unfold process_word. fold (buildTweet (currentWords st ++ [word])).
  apply Z.leb_le in H. rewrite H. reflexivity.
Qed.

Lemma process_word_short (maxLength : Z) (st : state) (word : jsstr) :
  maxLength < len (buildTweet (currentWords st ++ [word])) ->
  len word <= maxLength ->
  process_word maxLength st word = Some (push_word (cut st) word).
Proof.
  intros H Hw. unfold process_word. fold (buildTweet (currentWords st ++ [word])).
  apply Z.leb_gt in H. rewrite H.
  destruct (len word >? maxLength) eqn:E; [| reflexivity].
  rewrite Z.gtb_ltb in E. apply Z.ltb_lt in E. lia.
Qed.

Lemma process_word_long (maxLength : Z) (st : state) (word : jsstr) :
  1 <= maxLength -> maxLength < len word ->
  process_word maxLength st word =
  Some (mkState (tweets (flush (cut st)) ++
                 pieces (S (length word)) (Z.to_nat maxLength) word) [] (-1)).
Proof.
  intros Hm Hw. unfold process_word. fold (buildTweet (currentWords st ++ [word])).
  destruct (len_candidate (currentWords st) word) as [Hc _].
  destruct (len (buildTweet (currentWords st ++ [word])) <=? maxLength) eqn:E;
    [apply Z.leb_le in E; lia |].
  destruct (len word >? maxLength) eqn:E2;
    [| rewrite Z.gtb_ltb in E2; apply Z.ltb_ge in E2; lia].
  rewrite splitLongWord_pieces by assumption.
  rewrite place_parts_long by assumption. reflexivity.
Qed.

Lemma process_word_cases (maxLength : Z) (st : state) (word : jsstr) :
  1 <= maxLength ->
  exists st', process_word maxLength st word = Some st' /\
              processed maxLength st word st'.
Proof.
  intro Hm.
  destruct (len_candidate (currentWords st) word) as [Hc _].
  destruct (Z.le_gt_cases (len (buildTweet (currentWords st ++ [word]))) maxLength)
    as [Hfit | Hover].
  - eexists. split; [apply process_word_fits; assumption |].
    apply processed_fits; lia.
  - destruct (Z.le_gt_cases (len word) maxLength) as [Hs | Hl].
    + eexists. split; [apply process_word_short; assumption |].
      apply processed_short; assumption.
    + eexists. split; [apply process_word_long; assumption |].
      apply processed_long; assumption.
Qed.

(** Induction over [words.forEach]: a property of the words seen so far and
    of the state that every step keeps holds at the end. *)
Lemma forEach_invariant (maxLength : Z) (P : jsstr -> Prop)
    (I : list jsstr -> state -> Prop) :
  1 <= maxLength ->
  (forall seen st w st', I seen st -> P w -> processed maxLength st w st' ->
                         I (seen ++ [w]) st') ->
  forall ws seen st, I seen st -> Forall P ws ->
  exists st', forEach (process_word maxLength) ws st = Some st' /\
              I (seen ++ ws) st'.
Proof.
  intros Hm Hstep. induction ws as [| w ws IH]; intros seen st HI HP.
  - exists st. rewrite app_nil_r. split; [reflexivity | assumption].
  - inversion HP as [| ? ? Hw Hws]; subst.
    destruct (process_word_cases maxLength st w Hm) as [st1 [E1 C1]].
    destruct (IH (seen ++ [w]) st1) as [st' [E' I']]; trivial.
    + eapply Hstep; eauto.
    + exists st'. simpl. rewrite E1. rewrite <- app_assoc in I'.
      split; assumption.
Qed.

(** ** Termination *)

Lemma forEach_total (maxLength : Z) (ws : list jsstr) : forall st,
  1 <= maxLength -> exists st', forEach (process_word maxLength) ws st = Some st'.
Proof.
  intros st Hm.
  destruct (forEach_invariant maxLength (fun _ => True) (fun _ _ => True) Hm
              (fun _ _ _ _ _ _ _ => I) ws [] st I) as [st' [E _]].
  - apply Forall_forall. trivial.
  - exists st'. exact E.
Qed.

(** C8: for a limit of at least 1, [createTweets] returns a list of chunks
    on every text (the model has no other outcome than a result or a loop
    that does not end), and the loop of [splitLongWord] returns from every
    start index as soon as the fuel exceeds the number of characters left,
    its start index growing by [maxLength] at each turn. *)
Theorem createTweets_terminates (text : jsstr) (maxLength : Z) :
  1 <= maxLength ->
  (exists chunks, createTweets text maxLength = Some chunks) /\
  (forall word, exists parts, splitLongWord word maxLength = Some parts) /\
  (forall word parts start fuel,
      0 <= start -> (length (skipn (Z.to_nat start) word) < fuel)%nat ->
      exists r, splitLongWord_loop fuel word maxLength parts start = Some r).
Proof.
  intro Hm. split; [| split].
  - unfold createTweets.
    destruct (forEach_total maxLength (split_space text) initial Hm) as [st' E].
    rewrite E. eexists. reflexivity.
  - intro word. eexists. apply splitLongWord_pieces. exact Hm.
  - intros word parts start fuel Hs Hf. eexists.
    apply loop_pieces; assumption.
Qed.

(** The theorem at a text with an over-long word and a limit of 5. *)
Lemma createTweets_terminates_witness :
  1 <= 5 /\
  (exists chunks, createTweets (js "Supercalifragilistic and more") 5 = Some chunks) /\
  (forall word, exists parts, splitLongWord word 5 = Some parts) /\
  (forall word parts start fuel,
      0 <= start -> (length (skipn (Z.to_nat start) word) < fuel)%nat ->
      exists r, splitLongWord_loop fuel word 5 parts start = Some r).
Proof.
  split; [lia |].
  apply (createTweets_terminates (js "Supercalifragilistic and more") 5). lia.
Defined.

(** ** Chunks neither start nor end with whitespace *)

Lemma trimmed_trim (s : jsstr) : trimmed (trim s).
Proof. split; [apply trim_starts | apply trim_ends]. Qed.

Lemma trimmed_space_free (w : jsstr) : space_free w -> trimmed w.
Proof. intro H. split; [apply space_free_starts | apply space_free_ends]; exact H. Qed.

Lemma pieces_space_free (word : jsstr) (n : nat) :
  (1 <= n)%nat -> space_free word ->
  Forall space_free (pieces (S (length word)) n word).
Proof.
  intros Hn Hw. apply Forall_concat.
  rewrite pieces_concat; [exact Hw | exact Hn | lia].
Qed.

Section Invariants.

Variable maxLength : Z.
Hypothesis maxLength_pos : 1 <= maxLength.

Lemma flush_tweets_Forall (P : jsstr -> Prop) (st : state) :
  (forall s, P (trim s)) -> Forall P (tweets st) -> Forall P (tweets (flush st)).
Proof.
  intros HP H. unfold flush. destruct (0 <? len (currentWords st)); [| exact H].
  simpl. apply Forall_app. split; [exact H | repeat constructor; apply HP].
Qed.

Lemma cut_tweets_Forall (P : jsstr -> Prop) (st : state) :
  (forall s, P (trim s)) -> Forall P (tweets st) -> Forall P (tweets (cut st)).
Proof.
  intros HP H. unfold cut. simpl.
  destruct (negb (lastSentenceBreak st =? -1)).
  - simpl. apply Forall_app. split; [exact H | repeat constructor; apply HP].
  - apply flush_tweets_Forall; assumption.
Qed.

Lemma processed_trimmed (st st' : state) (w : jsstr) :
  Forall trimmed (tweets st) -> space_free w ->
  processed maxLength st w st' -> Forall trimmed (tweets st').
Proof.
  intros H Hw Hp. destruct Hp as [_ _ | _ _ | Hl].
  - exact H.
  - simpl. apply cut_tweets_Forall; [apply trimmed_trim | exact H].
  - simpl. apply Forall_app. split.
    + apply flush_tweets_Forall; [apply trimmed_trim |].
      apply cut_tweets_Forall; [apply trimmed_trim | exact H].
    + eapply Forall_impl; [apply trimmed_space_free |].
      apply pieces_space_free; [lia | exact Hw].
Qed.

End Invariants.

(** C10: for a limit of at least 1, [createTweets] returns chunks none of
    which starts or ends with a whitespace character. *)
Theorem createTweets_chunks_trimmed (text : jsstr) (maxLength : Z) :
  1 <= maxLength ->
  exists chunks, createTweets text maxLength = Some chunks /\
    Forall (fun chunk => starts_space chunk = false /\ ends_space chunk = false)
           chunks.
Proof.
  intro Hm. unfold createTweets.
  destruct (forEach_invariant maxLength space_free
              (fun _ st => Forall trimmed (tweets st)) Hm) with
    (ws := split_space text) (seen := @nil jsstr) (st := initial)
    as [st' [E H]].
  - intros seen st w st' HI Hw Hp. eapply processed_trimmed; eauto.
  - constructor.
  - apply split_from_space_free.
  - rewrite E. eexists. split; [reflexivity |].
    apply (flush_tweets_Forall trimmed st' trimmed_trim H).
Qed.

(** The theorem at a text with blanks at both ends and a limit of 6. *)
Lemma createTweets_chunks_trimmed_witness :
  1 <= 6 /\
  exists chunks, createTweets (js "  A. bb  cccccc dddddddd ") 6 = Some chunks /\
    Forall (fun chunk => starts_space chunk = false /\ ends_space chunk = false)
           chunks.
Proof.
  split; [lia |].
  apply (createTweets_chunks_trimmed (js "  A. bb  cccccc dddddddd ") 6). lia.
Defined.

(** ** The words of the chunks *)

Lemma flat_map_words_snoc (l : list jsstr) (t : jsstr) :
  flat_map words (l ++ [t]) = flat_map words l ++ words t.
Proof. rewrite flat_map_app. simpl. rewrite app_nil_r. reflexivity. Qed.

Lemma words_chunk (ws : list jsstr) :
  Forall space_free ws -> words (trim (buildTweet ws)) = filter nonempty ws.
Proof. intro H. rewrite words_trim. apply words_buildTweet. exact H. Qed.

Lemma visible_flush (st : state) :
  Forall space_free (currentWords st) ->
  flat_map words (tweets (flush st)) = visible st.
Proof.
  intro H. unfold flush, visible.
  destruct (0 <? len (currentWords st)) eqn:E.
  - simpl. rewrite flat_map_words_snoc, words_chunk by exact H. reflexivity.
  - apply Z.ltb_ge in E.
    rewrite (len_zero_nil (currentWords st)) by (pose proof (len_nonneg (currentWords st)); lia).
    simpl. rewrite app_nil_r. reflexivity.
Qed.

Lemma cut_space_free (st : state) :
  Forall space_free (currentWords st) -> Forall space_free (currentWords (cut st)).
Proof.
  intro H. unfold cut. simpl. destruct (negb (lastSentenceBreak st =? -1)).
  - simpl.
    pose proof (slice_split (currentWords st) (lastSentenceBreak st + 1)) as Hs.
    rewrite <- Hs in H. apply Forall_app in H. apply H.
  - rewrite flush_currentWords. constructor.
Qed.

Lemma visible_cut (st : state) :
  Forall space_free (currentWords st) -> visible (cut st) = visible st.
Proof.
  intro H. unfold cut. destruct (negb (lastSentenceBreak st =? -1)).
  - unfold visible. simpl.
    pose proof (slice_split (currentWords st) (lastSentenceBreak st + 1)) as Hs.
    rewrite <- Hs in H. apply Forall_app in H. destruct H as [H1 H2].
    rewrite flat_map_words_snoc, words_chunk by exact H1.
    rewrite <- app_assoc, <- filter_app, Hs. reflexivity.
  - unfold visible at 1. simpl.
    rewrite flush_currentWords, visible_flush by exact H.
    simpl. apply app_nil_r.
Qed.

Lemma visible_push_word (st : state) (w : jsstr) :
  visible (push_word st w) = visible st ++ filter nonempty [w].
Proof. unfold visible. simpl. rewrite filter_app, app_assoc. reflexivity. Qed.

Lemma words_pieces (word : jsstr) (n : nat) :
  (1 <= n)%nat -> space_free word ->
  flat_map words (pieces (S (length word)) n word) = pieces (S (length word)) n word.
Proof.
  intros Hn Hw.
  pose proof (pieces_space_free word n Hn Hw) as Hf.
  pose proof (pieces_bounds n (S (length word)) word Hn) as Hb.
  induction (pieces (S (length word)) n word) as [| p ps IH]; [reflexivity |].
  inversion Hf; subst. inversion Hb; subst. simpl.
  rewrite IH by assumption. rewrite words_space_free by assumption.
  destruct p; [simpl in *; lia | reflexivity].
Qed.

Lemma expand_short (maxLength : Z) (w : jsstr) :
  len w <= maxLength -> flat_map (expand maxLength) (filter nonempty [w]) = filter nonempty [w].
Proof.
  intro H. simpl. destruct (nonempty w); [| reflexivity].
  simpl. unfold expand.
  destruct (len w >? maxLength) eqn:E; [| reflexivity].
  rewrite Z.gtb_ltb in E. apply Z.ltb_lt in E. lia.
Qed.

Lemma expand_long (maxLength : Z) (w : jsstr) :
  0 <= maxLength < len w ->
  flat_map (expand maxLength) (filter nonempty [w]) =
  pieces (S (length w)) (Z.to_nat maxLength) w.
Proof.
  intro H. destruct w as [| c w]; [unfold len in H; simpl in H; lia |].
  simpl filter. simpl flat_map. rewrite app_nil_r. unfold expand.
  destruct (len (c :: w) >? maxLength) eqn:E; [reflexivity |].
  rewrite Z.gtb_ltb in E. apply Z.ltb_ge in E. lia.
Qed.

Lemma expand_all_short (maxLength : Z) (ws : list jsstr) :
  Forall (fun w => len w <= maxLength) ws -> flat_map (expand maxLength) ws = ws.
Proof.
  induction 1 as [| w ws Hw Hws IH]; [reflexivity |].
  simpl. rewrite IH. unfold expand.
  destruct (len w >? maxLength) eqn:Eg; [| reflexivity].
  rewrite Z.gtb_ltb in Eg. apply Z.ltb_lt in Eg. lia.
Qed.

Section Coverage.

Variable maxLength : Z.
Hypothesis maxLength_pos : 1 <= maxLength.

Lemma processed_covers (seen : list jsstr) (st st' : state) (w : jsstr) :
  covers maxLength seen st -> space_free w -> processed maxLength st w st' ->
  covers maxLength (seen ++ [w]) st'.
Proof.
  intros [Hsf Hv] Hw Hp. unfold covers.
  rewrite filter_app, flat_map_app.
  destruct Hp as [_ Hs | _ Hs | Hl].
  - split.
    + simpl. apply Forall_app. split; [exact Hsf | repeat constructor; exact Hw].
    + rewrite visible_push_word, Hv, expand_short by exact Hs. reflexivity.
  - split.
    + simpl. apply Forall_app.
      split; [apply cut_space_free; exact Hsf | repeat constructor; exact Hw].
    + rewrite visible_push_word, visible_cut, Hv, expand_short by assumption.
      reflexivity.
  - split.
    + simpl. constructor.
    + unfold visible. cbn [tweets currentWords].
      change (filter nonempty (@nil jsstr)) with (@nil jsstr).
      rewrite app_nil_r, flat_map_app.
      rewrite visible_flush by (apply cut_space_free; exact Hsf).
      rewrite visible_cut, Hv by exact Hsf.
      rewrite words_pieces by (trivial; lia).
      rewrite expand_long by lia. reflexivity.
Qed.

Lemma forEach_covers (text : jsstr) :
  exists st, forEach (process_word maxLength) (split_space text) initial = Some st /\
             covers maxLength (split_space text) st.
Proof.
  destruct (forEach_invariant maxLength space_free (covers maxLength) maxLength_pos) with
    (ws := split_space text) (seen := @nil jsstr) (st := initial)
    as [st' [E H]].
  - intros seen st w st' HI Hw Hp. eapply processed_covers; eauto.
  - split; [constructor | reflexivity].
  - apply split_from_space_free.
  - exists st'. split; assumption.
Qed.

End Coverage.

(** C2, as the code has it: for a limit of at least 1 the words of the
    chunks, read in order, are the words of the input in order, none dropped
    and none repeated, where a word longer than the limit stands as its
    consecutive parts of [maxLength] characters; when no word of the input
    is longer than the limit they are exactly the words of the input. *)
Theorem createTweets_covers_words (text : jsstr) (maxLength : Z) :
  1 <= maxLength ->
  exists chunks, createTweets text maxLength = Some chunks /\
    flat_map words chunks = flat_map (expand maxLength) (words text) /\
    (Forall (fun w => len w <= maxLength) (words text) ->
     flat_map words chunks = words text).
Proof.
  intro Hm. unfold createTweets.
  destruct (forEach_covers maxLength Hm text) as [st [E [Hsf Hv]]].
  rewrite E. eexists. split; [reflexivity |].
  assert (Hall : flat_map words (tweets (flush st)) =
                 flat_map (expand maxLength) (words text)).
  { rewrite visible_flush by exact Hsf. exact Hv. }
  split; [exact Hall |].
  intro Hshort. rewrite Hall. apply expand_all_short. exact Hshort.
Qed.

(** The theorem at a text with an over-long word and a limit of 3. *)
Lemma createTweets_covers_words_witness :
  1 <= 3 /\
  exists chunks, createTweets (js " ab  cdefgh. i ") 3 = Some chunks /\
    flat_map words chunks = flat_map (expand 3) (words (js " ab  cdefgh. i ")) /\
    (Forall (fun w => len w <= 3) (words (js " ab  cdefgh. i ")) ->
     flat_map words chunks = words (js " ab  cdefgh. i ")).
Proof.
  split; [lia |].
  apply (createTweets_covers_words (js " ab  cdefgh. i ") 3). lia.
Defined.

Lemma concat_words_acc (s : jsstr) : forall cur,
  concat (words_acc cur s) = cur ++ filter (fun c => negb (is_space c)) s.
Proof.
  induction s as [| c s IH]; intro cur; simpl.
  - rewrite app_nil_r. destruct cur; simpl; [reflexivity |].
    rewrite app_nil_r. reflexivity.
  - destruct (is_space c); simpl.
    + rewrite concat_app, IH. destruct cur; simpl; [reflexivity |].
      rewrite app_nil_r. reflexivity.
    + rewrite IH, <- app_assoc. reflexivity.
Qed.

Lemma concat_words (s : jsstr) :
  concat (words s) = filter (fun c => negb (is_space c)) s.
Proof. rewrite words_words_acc. apply (concat_words_acc s []). Qed.

Lemma concat_expand (maxLength : Z) (ws : list jsstr) :
  1 <= maxLength -> concat (flat_map (expand maxLength) ws) = concat ws.
Proof.
  intro Hm. induction ws as [| w ws IH]; [reflexivity |].
  simpl. rewrite concat_app, IH. f_equal. unfold expand.
  destruct (len w >? maxLength); [| simpl; apply app_nil_r].
  apply pieces_concat; lia.
Qed.

(** The characters of the chunks that are not whitespace are, in order,
    those of the input: nothing but whitespace is dropped or added. *)
Lemma createTweets_covers_characters (text : jsstr) (maxLength : Z) :
  1 <= maxLength ->
  exists chunks, createTweets text maxLength = Some chunks /\
    filter (fun c => negb (is_space c)) (concat chunks) =
    filter (fun c => negb (is_space c)) text.
Proof.
  intro Hm. unfold createTweets.
  destruct (forEach_covers maxLength Hm text) as [st [E [Hsf Hv]]].
  rewrite E. eexists. split; [reflexivity |].
  rewrite <- (concat_words text).
  change (filter nonempty (split_space text)) with (words text) in Hv.
  rewrite <- (concat_expand maxLength (words text) Hm), <- Hv.
  rewrite <- (visible_flush st Hsf).
  induction (tweets (flush st)) as [| t ts IH]; [reflexivity |].
  simpl. rewrite filter_app, concat_app, IH, concat_words. reflexivity.
Qed.

(** C2 as stated fails where a word is longer than the limit: with a limit
    of 3 the text "ab cdefgh" gives the chunks "ab", "cde", "fgh", whose
    words are not the two words of the input, whether the chunks are read
    one by one, joined by single spaces, or concatenated directly. *)
Lemma createTweets_words_counterexample :
  createTweets (js "ab cdefgh") 3 = Some [js "ab"; js "cde"; js "fgh"] /\
  words (js "ab cdefgh") = [js "ab"; js "cdefgh"] /\
  flat_map words [js "ab"; js "cde"; js "fgh"] <> words (js "ab cdefgh") /\
  words (join [32%N] [js "ab"; js "cde"; js "fgh"]) <> words (js "ab cdefgh") /\
  words (concat [js "ab"; js "cde"; js "fgh"]) <> words (js "ab cdefgh").
Proof.
  vm_compute. repeat split; discriminate.
Qed.

(** ** splitLongWord cuts fixed-width slices *)

Lemma Forall_last {A : Type} (P : A -> Prop) (l : list A) (d : A) :
  l <> [] -> Forall P l -> P (last l d).
Proof.
  intros Hne H. rewrite (app_removelast_last d Hne) in H.
  apply Forall_app in H. destruct H as [_ H]. inversion H; assumption.
Qed.

(** C7: for a width of at least 1, [splitLongWord] returns the consecutive
    slices of that width, left to right: their concatenation is the word,
    the part at index [i] is [w.slice(i * maxLength, i * maxLength +
    maxLength)], every part but the last has exactly [maxLength] characters,
    and the last part of a non-empty word has between 1 and [maxLength]. *)
Theorem splitLongWord_slices (w : jsstr) (maxLength : Z) :
  1 <= maxLength ->
  exists parts, splitLongWord w maxLength = Some parts /\
    concat parts = w /\
    (forall i, 0 <= i < len parts ->
       nth (Z.to_nat i) parts [] = slice w (i * maxLength) (i * maxLength + maxLength)) /\
    Forall (fun p => len p = maxLength) (removelast parts) /\
    (w <> [] -> 1 <= len (last parts []) <= maxLength).
Proof.
  intro Hm. exists (pieces (S (length w)) (Z.to_nat maxLength) w).
  assert (Hn : (1 <= Z.to_nat maxLength)%nat) by lia.
  assert (Hc : concat (pieces (S (length w)) (Z.to_nat maxLength) w) = w)
    by (apply pieces_concat; lia).
  split; [apply splitLongWord_pieces; exact Hm |].
  split; [exact Hc |].
  split; [| split].
  - intros i Hi.
    pose proof (pieces_length (Z.to_nat maxLength) (S (length w)) w Hn) as Hl.
    assert (Hi' : (Z.to_nat i < length (pieces (S (length w)) (Z.to_nat maxLength) w))%nat).
    { apply Nat2Z.inj_lt. rewrite Z2Nat.id by apply Hi. apply Hi. }
    etransitivity; [apply pieces_nth; assumption |].
    assert (Hr : i * maxLength < len w).
    { apply Nat2Z.inj_lt in Hi'. rewrite Z2Nat.id in Hi' by apply Hi.
      unfold len in *. nia. }
    rewrite slice_in_range by nia.
    replace (i * maxLength + maxLength - i * maxLength) with maxLength by lia.
    rewrite Z2Nat.inj_mul by lia. reflexivity.
  - eapply Forall_impl; [| apply pieces_full; exact Hn].
    intros p Hp. unfold len. simpl in Hp. lia.
  - intro Hw.
    assert (Hne : pieces (S (length w)) (Z.to_nat maxLength) w <> []).
    { intro E. rewrite E in Hc. simpl in Hc. congruence. }
    pose proof (Forall_last _ _ [] Hne
                  (pieces_bounds (Z.to_nat maxLength) (S (length w)) w Hn)) as Hl.
    simpl in Hl. destruct Hl as [H1 H2]. unfold len. split.
    + apply (Nat2Z.inj_le 1) in H1. exact H1.
    + apply Nat2Z.inj_le in H2. rewrite Z2Nat.id in H2 by lia. exact H2.
Qed.

(** The theorem at an 8-character word and a width of 3. *)
Lemma splitLongWord_slices_witness :
  1 <= 3 /\
  exists parts, splitLongWord (js "abcdefgh") 3 = Some parts /\
    concat parts = js "abcdefgh" /\
    (forall i, 0 <= i < len parts ->
       nth (Z.to_nat i) parts [] = slice (js "abcdefgh") (i * 3) (i * 3 + 3)) /\
    Forall (fun p => len p = 3) (removelast parts) /\
    (js "abcdefgh" <> [] -> 1 <= len (last parts []) <= 3).
Proof.
  split; [lia |]. apply (splitLongWord_slices (js "abcdefgh") 3). lia.
Defined.

(** ** sanitizeFileName *)

Lemma is_illegal_removed (c : code_unit) :
  is_illegal c = true <-> In c removed_characters.
Proof.
  unfold is_illegal, removed_characters. simpl.
  rewrite !orb_true_iff, !N.eqb_eq. intuition congruence.
Qed.

Lemma replace_class_delete (cls : code_unit -> bool) (s : jsstr) :
  replace_class cls [] s = filter (fun c => negb (cls c)) s.
Proof.
  induction s as [| c s IH]; [reflexivity |].
  simpl. rewrite IH. destruct (cls c); reflexivity.
Qed.

(** C9: [sanitizeFileName] returns the name with every occurrence of the
    nine characters removed and the other characters kept in order, so the
    result holds none of the nine. *)
Theorem sanitizeFileName_removes (name : jsstr) :
  sanitizeFileName name =
    filter (fun c => negb (existsb (N.eqb c) removed_characters)) name /\
  Forall (fun c => ~ In c removed_characters) (sanitizeFileName name).
Proof.
  unfold sanitizeFileName. rewrite replace_class_delete.
  assert (E : forall c, is_illegal c = existsb (N.eqb c) removed_characters).
  { intro c. unfold is_illegal, removed_characters. simpl.
    rewrite orb_false_r, !orb_assoc. reflexivity. }
  split.
  - apply filter_ext. intro c. rewrite E. reflexivity.
  - apply Forall_forall. intros c Hc. apply filter_In in Hc.
    destruct Hc as [_ Hc]. intro Hin. apply is_illegal_removed in Hin.
    rewrite Hin in Hc. discriminate.
Qed.

(** ** The scenarios *)

(** C4: with a limit of 10, "Hi there. Bye now." gives the two chunks
    "Hi there." and "Bye now.": after "Hi" and "there." the buffer holds both
    with the sentence break at index 1, "Bye" overflows and cuts there, and
    the rest forms the last chunk. *)
Theorem createTweets_hi_there :
  createTweets (js "Hi there. Bye now.") 10 = Some [js "Hi there."; js "Bye now."] /\
  split_space (js "Hi there. Bye now.") = [js "Hi"; js "there."; js "Bye"; js "now."] /\
  forEach (process_word 10) [js "Hi"; js "there."] initial =
    Some (mkState [] [js "Hi"; js "there."] 1) /\
  (len (buildTweet [js "Hi"; js "there."; js "Bye"]) <=? 10) = false /\
  process_word 10 (mkState [] [js "Hi"; js "there."] 1) (js "Bye") =
    Some (mkState [js "Hi there."] [js "Bye"] (-1)).
Proof. vm_compute. repeat split; reflexivity. Qed.

(** C5: with a limit of 5, the 20-character word "Supercalifragilistic"
    gives the four chunks "Super", "calif", "ragil", "istic", each of length
    5 and each a chunk of its own. *)
Theorem createTweets_supercalifragilistic :
  createTweets (js "Supercalifragilistic") 5 =
    Some [js "Super"; js "calif"; js "ragil"; js "istic"] /\
  len (js "Supercalifragilistic") = 20 /\
  map len [js "Super"; js "calif"; js "ragil"; js "istic"] = [5; 5; 5; 5].
Proof. vm_compute. repeat split; reflexivity. Qed.

(** C1 fails on the code: with a limit of 6, "A. bb cccccc" cuts after
    "A.", keeps "bb" in the buffer and then appends "cccccc" to it without
    a length test, so the second chunk has 9 characters. *)
Theorem createTweets_chunk_too_long :
  createTweets (js "A. bb cccccc") 6 = Some [js "A."; js "bb cccccc"] /\
  len (js "bb cccccc") = 9 /\
  process_word 6 (mkState [] [js "A."; js "bb"] 0) (js "cccccc") =
    Some (mkState [js "A."] [js "bb"; js "cccccc"] (-1)).
Proof. vm_compute. repeat split; reflexivity. Qed.

Lemma split_from_true_blank (s : jsstr) :
  Forall (fun c => is_space c = true) s -> split_from true s = [[]].
Proof.
  induction 1 as [| c s Hc Hs IH]; [reflexivity |].
  simpl. rewrite Hc. exact IH.
Qed.

(** On every blank text the result is one empty chunk, not no chunk. *)
Lemma createTweets_blank (text : jsstr) (maxLength : Z) :
  1 <= maxLength -> Forall (fun c => is_space c = true) text ->
  createTweets text maxLength = Some [[]].
Proof.
  intros Hm H. destruct H as [| c s Hc Hs].
  - unfold createTweets. simpl.
    rewrite process_word_fits by (unfold buildTweet, len; simpl; lia).
    reflexivity.
  - unfold createTweets, split_space. simpl split_from. rewrite Hc.
    rewrite (split_from_true_blank s Hs). simpl forEach.
    rewrite process_word_fits by (unfold buildTweet, len; simpl; lia).
    rewrite process_word_fits by (unfold buildTweet, len; simpl; lia).
    reflexivity.
Qed.

(** C3 fails on the code: the split of an empty or blank text is not empty
    (it holds one or two empty pieces), the empty piece enters the buffer,
    and the final flush emits one empty chunk. *)
Theorem createTweets_empty_text :
  createTweets [] 250 = Some [[]] /\
  createTweets (js "   ") 250 = Some [[]] /\
  split_space [] = [[]] /\
  split_space (js "   ") = [[]; []].
Proof. vm_compute. repeat split; reflexivity. Qed.

(** ** Segmenting the output again *)

(** C6 as stated fails: with a limit of 5, "abcdefg hi" gives "abcde",
    "fg", "hi" (the parts of a split word are chunks of their own), all
    within the limit, yet the text "abcde fg hi" gives "abcde" and "fg hi". *)
Lemma createTweets_resegment_counterexample :
  exists chunks,
    createTweets (js "abcdefg hi") 5 = Some chunks /\
    Forall (fun chunk => len chunk <= 5) chunks /\
    createTweets (join [32%N] chunks) 5 <> Some chunks.
Proof.
  exists [js "abcde"; js "fg"; js "hi"].
  split; [vm_compute; reflexivity |].
  split; [repeat constructor; vm_compute; discriminate |].
  vm_compute. discriminate.
Qed.

Lemma solid_word_solid (w : jsstr) : solid_word w -> solid w.
Proof. intros [Hne Hw]. split; [exact Hne | apply trimmed_space_free; exact Hw]. Qed.

Lemma starts_space_app (a b : jsstr) : a <> [] -> starts_space (a ++ b) = starts_space a.
Proof. destruct a; [congruence | reflexivity]. Qed.

Lemma rev_not_nil (a : jsstr) : a <> [] -> rev a <> [].
Proof.
  intros H E. apply H. rewrite <- (rev_involutive a), E. reflexivity.
Qed.

Lemma ends_space_app (a b : jsstr) : b <> [] -> ends_space (a ++ b) = ends_space b.
Proof.
  intro H. unfold ends_space. rewrite rev_app_distr.
  apply starts_space_app. apply rev_not_nil. exact H.
Qed.

Lemma solid_join (l : list jsstr) :
  l <> [] -> Forall solid l -> solid (join [32%N] l).
Proof.
  induction l as [| x l IH]; intros Hne H; [congruence |].
  inversion H as [| ? ? Hx Hl]; subst.
  destruct l as [| y l]; [exact Hx |].
  change (join [32%N] (x :: y :: l)) with (x ++ 32%N :: join [32%N] (y :: l)).
  destruct Hx as [Hx [Hxs _]].
  destruct (IH ltac:(discriminate) Hl) as [Hj [_ Hje]].
  split; [| split].
  - destruct x; [congruence | discriminate].
  - rewrite starts_space_app by exact Hx. exact Hxs.
  - change (x ++ 32%N :: join [32%N] (y :: l))
      with (x ++ [32%N] ++ join [32%N] (y :: l)).
    rewrite app_assoc, ends_space_app by exact Hj. exact Hje.
Qed.

Lemma solid_chunk (ws : list jsstr) :
  ws <> [] -> Forall solid_word ws ->
  solid (trim (buildTweet ws)) /\ trim (buildTweet ws) = buildTweet ws.
Proof.
  intros Hne H.
  assert (Hs : solid (buildTweet ws)).
  { apply solid_join; [exact Hne |].
    eapply Forall_impl; [apply solid_word_solid | exact H]. }
  assert (E : trim (buildTweet ws) = buildTweet ws)
    by (apply trim_id; apply Hs).
  rewrite E. split; [exact Hs | reflexivity].
Qed.

(** The pieces of a split, seen from inside a separator or not. *)
Lemma split_from_flag (s : jsstr) :
  split_from false s =
  if starts_space s then [] :: split_from true s else split_from true s.
Proof.
  destruct s as [| c s]; [reflexivity |].
  simpl. destruct (is_space c); reflexivity.
Qed.

Lemma ends_space_cons (c : code_unit) (s : jsstr) :
  s <> [] -> ends_space (c :: s) = ends_space s.
Proof. intro H. apply (ends_space_app [c] s H). Qed.

Lemma split_from_true_nonempty (s : jsstr) :
  s <> [] -> ends_space s = false ->
  Forall (fun w => nonempty w = true) (split_from true s).
Proof.
  induction s as [| c s IH]; intros Hne He; [congruence |].
  destruct s as [| d s].
  - simpl. unfold ends_space in He. simpl in He. rewrite He.
    repeat constructor.
  - rewrite ends_space_cons in He by discriminate.
    specialize (IH ltac:(discriminate) He).
    change (split_from true (c :: d :: s))
      with (if is_space c then split_from true (d :: s)
            else match split_from false (d :: s) with
                 | w :: ws => (c :: w) :: ws
                 | [] => [[c]]
                 end).
    destruct (is_space c); [exact IH |].
    rewrite split_from_flag.
    destruct (starts_space (d :: s)).
    + constructor; [reflexivity | exact IH].
    + destruct (split_from true (d :: s)) as [| w ws]; [repeat constructor |].
      inversion IH; subst. constructor; [reflexivity | assumption].
Qed.

(** A solid text has no empty piece: its split is its list of words. *)
Lemma split_space_solid (s : jsstr) : solid s -> split_space s = words s.
Proof.
  intros [Hne [Hs He]]. unfold words, split_space.
  symmetry. apply forallb_filter_id. apply forallb_forall.
  apply Forall_forall. rewrite split_from_flag, Hs.
  apply split_from_true_nonempty; assumption.
Qed.

Lemma slice_prefix_not_nil {A : Type} (l : list A) (i : Z) :
  0 <= i < len l -> slice l 0 (i + 1) <> [].
Proof.
  intro H. rewrite slice_in_range by lia.
  destruct l as [| x l]; [unfold len in H; simpl in H; lia |].
  replace (Z.to_nat (i + 1 - 0)) with (S (Z.to_nat i)) by lia.
  simpl. discriminate.
Qed.

Section Resegment.

Variable maxLength : Z.
Hypothesis maxLength_pos : 1 <= maxLength.

Lemma push_word_steady (seen : list jsstr) (st : state) (w : jsstr) :
  Forall solid (tweets st) -> Forall solid_word (currentWords st) ->
  (lastSentenceBreak st = -1 \/
   0 <= lastSentenceBreak st < len (currentWords st)) ->
  solid_word w -> steady (seen ++ [w]) (push_word st w).
Proof.
  intros Ht Hc Hl Hw. unfold steady, push_word. simpl.
  split; [exact Ht |].
  split; [apply Forall_app; split; [exact Hc | constructor; [exact Hw | constructor]] |].
  split; [intros _ E; apply app_eq_nil in E; destruct E; discriminate |].
  rewrite len_app, len_cons, len_nil.
  pose proof (len_nonneg (currentWords st)).
  destruct (ends_sentence w); lia.
Qed.

Lemma cut_steady (seen : list jsstr) (st : state) :
  steady seen st ->
  Forall solid (tweets (cut st)) /\ Forall solid_word (currentWords (cut st)) /\
  lastSentenceBreak (cut st) = -1.
Proof.
  intros [Ht [Hc [_ Hl]]]. unfold cut.
  destruct (lastSentenceBreak st =? -1) eqn:E; simpl.
  - unfold flush. destruct (0 <? len (currentWords st)) eqn:E0; simpl.
    + split; [| split; [constructor | reflexivity]].
      apply Forall_app. split; [exact Ht |]. constructor; [| constructor].
      apply solid_chunk; [| exact Hc].
      intro En. rewrite En in E0. discriminate.
    + split; [exact Ht | split; [exact Hc | reflexivity]].
  - apply Z.eqb_neq in E. destruct Hl as [Hl | Hl]; [congruence |].
    pose proof (slice_split (currentWords st) (lastSentenceBreak st + 1)) as Hs.
    rewrite <- Hs in Hc. apply Forall_app in Hc. destruct Hc as [Hc1 Hc2].
    split; [| split; [exact Hc2 | reflexivity]].
    apply Forall_app. split; [exact Ht |]. constructor; [| constructor].
    apply solid_chunk; [| exact Hc1].
    apply slice_prefix_not_nil. exact Hl.
Qed.

Lemma processed_steady (seen : list jsstr) (st st' : state) (w : jsstr) :
  steady seen st -> solid_word w /\ len w <= maxLength ->
  processed maxLength st w st' -> steady (seen ++ [w]) st'.
Proof.
  intros Hst [Hw Hlen] Hp. destruct Hp as [_ _ | _ _ | Hl].
  - destruct Hst as [Ht [Hc [_ Hl]]]. apply push_word_steady; assumption.
  - destruct (cut_steady seen st Hst) as [Ht [Hc Hl]].
    apply push_word_steady; try assumption. left. exact Hl.
  - lia.
Qed.

End Resegment.

Lemma createTweets_nil (maxLength : Z) :
  1 <= maxLength -> createTweets [] maxLength = Some [[]].
Proof.
  intro Hm. unfold createTweets. simpl.
  rewrite process_word_fits by (simpl; unfold buildTweet, len; simpl; lia).
  reflexivity.
Qed.

(** C6, as the code has it: for a limit of at least 1 and a text that
    neither starts nor ends with whitespace and has no word longer than the
    limit, segmenting the single-space join of the chunks again gives the
    same chunks. *)
Theorem createTweets_resegment (text : jsstr) (maxLength : Z) :
  1 <= maxLength ->
  starts_space text = false -> ends_space text = false ->
  Forall (fun w => len w <= maxLength) (words text) ->
  exists chunks, createTweets text maxLength = Some chunks /\
                 createTweets (join [32%N] chunks) maxLength = Some chunks.
Proof.
  intros Hm Hs He Hshort.
  destruct text as [| c text].
  { exists [[]]. split; [apply createTweets_nil; exact Hm |].
    simpl join. apply createTweets_nil; exact Hm. }
  assert (Hsolid : solid (c :: text)) by (split; [discriminate | split; assumption]).
  pose proof (split_space_solid _ Hsolid) as Hsplit.
  set (ws := split_space (c :: text)) in *.
  assert (Hws : Forall (fun w => solid_word w /\ len w <= maxLength) ws).
  { apply Forall_forall. intros w Hin. split; [split |].
    - rewrite Hsplit in Hin. apply filter_In in Hin. destruct Hin as [_ Hn].
      destruct w; [discriminate | discriminate].
    - pose proof (split_from_space_free (c :: text) false) as Hf.
      rewrite Forall_forall in Hf. apply Hf. exact Hin.
    - rewrite Hsplit in Hin. rewrite Forall_forall in Hshort. apply Hshort. exact Hin. }
  destruct (forEach_invariant maxLength _ steady Hm
              (fun seen st w st' => processed_steady maxLength seen st st' w)
              ws [] initial) as [st [E Hst]].
  { split; [constructor |]. split; [constructor |].
    split; [intro H; congruence | left; reflexivity]. }
  { exact Hws. }
  destruct (forEach_covers maxLength Hm (c :: text)) as [st2 [E2 [Hsf Hv]]].
  fold ws in E2, Hv. rewrite E in E2. injection E2 as <-.
  destruct Hst as [Ht [Hc [Hne _]]]. simpl app in Hne.
  assert (Hcur : currentWords st <> []).
  { apply Hne. unfold ws. apply split_from_not_nil. }
  assert (Hflush : tweets (flush st) = tweets st ++ [trim (buildTweet (currentWords st))]).
  { unfold flush. destruct (currentWords st) as [| x r]; [congruence |].
    rewrite len_cons. pose proof (len_nonneg r).
    destruct (0 <? len r + 1) eqn:E0; [reflexivity | apply Z.ltb_ge in E0; lia]. }
  exists (tweets (flush st)).
  assert (Hfirst : createTweets (c :: text) maxLength = Some (tweets (flush st))).
  { unfold createTweets. fold ws. rewrite E. reflexivity. }
  split; [exact Hfirst |].
  assert (Hchunks : Forall solid (tweets (flush st))).
  { rewrite Hflush. apply Forall_app. split; [exact Ht |].
    constructor; [| constructor]. apply solid_chunk; assumption. }
  assert (Hjoin : solid (join [32%N] (tweets (flush st)))).
  { apply solid_join; [| exact Hchunks].
    rewrite Hflush. intro En. apply app_eq_nil in En. destruct En; discriminate. }
  assert (Hagain : split_space (join [32%N] (tweets (flush st))) = ws).
  { rewrite (split_space_solid _ Hjoin), words_join.
    rewrite visible_flush by exact Hsf. rewrite Hv.
    change (filter nonempty ws) with (words (c :: text)).
    rewrite Hsplit. apply expand_all_short. exact Hshort. }
  unfold createTweets. rewrite Hagain, E. reflexivity.
Qed.

(** The theorem at a text of three sentences and a limit of 10. *)
Lemma createTweets_resegment_witness :
  1 <= 10 /\
  starts_space (js "Hi there. Bye now. More words follow here") = false /\
  ends_space (js "Hi there. Bye now. More words follow here") = false /\
  Forall (fun w => len w <= 10) (words (js "Hi there. Bye now. More words follow here")) /\
  exists chunks,
    createTweets (js "Hi there. Bye now. More words follow here") 10 = Some chunks /\
    createTweets (join [32%N] chunks) 10 = Some chunks.
Proof.
  assert (H : Forall (fun w => len w <= 10)
                (words (js "Hi there. Bye now. More words follow here"))).
  { vm_compute. repeat constructor; discriminate. }
  split; [lia |]. split; [reflexivity |]. split; [reflexivity |].
  split; [exact H |].
  apply (createTweets_resegment (js "Hi there. Bye now. More words follow here") 10);
    [lia | reflexivity | reflexivity | exact H].
Defined.

(** * Further properties of the segmenter *)

(** ** The output is never the empty list *)

Lemma pieces_not_nil {A : Type} (fuel n : nat) (w : list A) :
  w <> [] -> pieces (S fuel) n w <> [].
Proof. destruct w; [congruence | simpl; discriminate]. Qed.

Lemma long_word_not_nil (maxLength : Z) (w : jsstr) :
  1 <= maxLength -> maxLength < len w -> w <> [].
Proof. intros Hm Hw E. rewrite E in Hw. unfold len in Hw. simpl in Hw. lia. Qed.

Lemma processed_not_empty (maxLength : Z) (st st' : state) (w : jsstr) :
  1 <= maxLength -> processed maxLength st w st' ->
  tweets st' <> [] \/ currentWords st' <> [].
Proof.
  intros Hm Hp. destruct Hp as [_ _ | _ _ | Hl].
  - right. simpl. intro E. apply app_eq_nil in E. destruct E; discriminate.
  - right. simpl. intro E. apply app_eq_nil in E. destruct E; discriminate.
  - left. simpl. intro E. apply app_eq_nil in E. destruct E as [_ E].
    revert E. apply pieces_not_nil. eapply long_word_not_nil; eauto.
Qed.

Lemma createTweets_some_chunk (text : jsstr) (maxLength : Z) :
  1 <= maxLength ->
  exists chunks, createTweets text maxLength = Some chunks /\ chunks <> [].
Proof.
  intro Hm. unfold createTweets.
  destruct (forEach_invariant maxLength (fun _ => True)
              (fun seen st => seen <> [] ->
                 tweets st <> [] \/ currentWords st <> []) Hm) with
    (ws := split_space text) (seen := @nil jsstr) (st := initial)
    as [st [E H]].
  - intros seen st w st' _ _ Hp _. eapply processed_not_empty; eauto.
  - congruence.
  - apply Forall_forall. trivial.
  - rewrite E. eexists. split; [reflexivity |].
    specialize (H (split_from_not_nil text false)).
    unfold flush. destruct (0 <? len (currentWords st)) eqn:E0.
    + simpl. intro En. apply app_eq_nil in En. destruct En; discriminate.
    + destruct H as [H | H]; [exact H |].
      apply Z.ltb_ge in E0. exfalso. apply H. apply len_zero_nil.
      pose proof (len_nonneg (currentWords st)). lia.
Qed.

(** For a limit of at least 1 [createTweets] returns at least one chunk,
    whatever the text: every piece of the split, the empty ones included,
    ends up in the buffer or in the output. *)
Theorem createTweets_never_empty (text : jsstr) (maxLength : Z) :
  1 <= maxLength ->
  exists chunks, createTweets text maxLength = Some chunks /\ chunks <> [].
Proof. apply createTweets_some_chunk. Qed.

(** The theorem at the empty text and a limit of 250. *)
Lemma createTweets_never_empty_witness :
  1 <= 250 /\ exists chunks, createTweets [] 250 = Some chunks /\ chunks <> [].
Proof. split; [lia |]. apply (createTweets_never_empty [] 250). lia. Defined.

(** ** A limit of zero or less *)

Lemma forEach_none (f : state -> jsstr -> option state) (w : jsstr) :
  (forall st, f st w = None) ->
  forall ws st, In w ws -> forEach f ws st = None.
Proof.
  intros Hf. induction ws as [| x ws IH]; intros st Hin; [destruct Hin |].
  simpl. destruct Hin as [-> | Hin].
  - rewrite Hf. reflexivity.
  - destruct (f st x); [apply IH; exact Hin | reflexivity].
Qed.

Lemma process_word_stuck (maxLength : Z) (st : state) (w : jsstr) :
  maxLength <= 0 -> w <> [] -> process_word maxLength st w = None.
Proof.
  intros Hm Hw. unfold process_word. fold (buildTweet (currentWords st ++ [w])).
  destruct (len_candidate (currentWords st) w) as [Hc _].
  assert (Hlen : 1 <= len w).
  { destruct w; [congruence |]. rewrite len_cons. pose proof (len_nonneg w). lia. }
  destruct (len (buildTweet (currentWords st ++ [w])) <=? maxLength) eqn:E;
    [apply Z.leb_le in E; lia |].
  destruct (len w >? maxLength) eqn:E2;
    [| rewrite Z.gtb_ltb in E2; apply Z.ltb_ge in E2; lia].
  unfold splitLongWord. rewrite splitLongWord_loop_stuck by lia. reflexivity.
Qed.

Lemma words_of_visible_char (text : jsstr) (c : code_unit) :
  In c text -> is_space c = false -> exists w, In w (split_space text) /\ w <> [].
Proof.
  intros Hin Hc.
  assert (Hf : In c (concat (words text))).
  { rewrite concat_words. apply filter_In. split; [exact Hin |].
    rewrite Hc. reflexivity. }
  apply in_concat in Hf. destruct Hf as [w [Hw Hcw]].
  exists w. unfold words in Hw. apply filter_In in Hw. destruct Hw as [Hw _].
  split; [exact Hw |]. intro E. rewrite E in Hcw. destruct Hcw.
Qed.

(** With a limit of zero or less [createTweets] does not return on any text
    that holds a character other than whitespace: its first word is longer
    than the limit and the loop of [splitLongWord] never advances.  No fuel
    makes the loop return. *)
Theorem createTweets_nonpositive_limit (text : jsstr) (maxLength : Z) (c : code_unit) :
  maxLength <= 0 -> In c text -> is_space c = false ->
  createTweets text maxLength = None /\
  exists w, In w (split_space text) /\
    forall fuel, splitLongWord_loop fuel w maxLength [] 0 = None.
Proof.
  intros Hm Hin Hc.
  destruct (words_of_visible_char text c Hin Hc) as [w [Hw Hne]].
  split.
  - unfold createTweets.
    rewrite (forEach_none (process_word maxLength) w); trivial.
    intro st. apply process_word_stuck; assumption.
  - exists w. split; [exact Hw |]. intro fuel.
    apply splitLongWord_loop_stuck; [exact Hm |].
    destruct w; [congruence |]. rewrite len_cons. pose proof (len_nonneg w). lia.
Qed.

(** The theorem at the text "a" and a limit of 0. *)
Lemma createTweets_nonpositive_limit_witness :
  0 <= 0 /\ In 97%N (js "a") /\ is_space 97%N = false /\
  createTweets (js "a") 0 = None /\
  exists w, In w (split_space (js "a")) /\
    forall fuel, splitLongWord_loop fuel w 0 [] 0 = None.
Proof.
  assert (Hin : In 97%N (js "a")) by (left; reflexivity).
  split; [lia |]. split; [exact Hin |]. split; [reflexivity |].
  apply (createTweets_nonpositive_limit (js "a") 0 97%N);
    [lia | exact Hin | reflexivity].
Defined.

(** ** Texts without sentence ends stay within the limit *)

Lemma len_drop_space_le (s : jsstr) : len (drop_space s) <= len s.
Proof.
  induction s as [| c s IH]; [simpl; lia |].
  simpl drop_space. rewrite len_cons. destruct (is_space c); [lia |].
  rewrite len_cons. lia.
Qed.

Lemma len_rev (s : jsstr) : len (rev s) = len s.
Proof. unfold len. rewrite length_rev. reflexivity. Qed.

(** Trimming never lengthens a text. *)
Lemma len_trim_le (s : jsstr) : len (trim s) <= len s.
Proof.
  unfold trim. rewrite len_rev.
  pose proof (len_drop_space_le (rev (drop_space s))) as H1.
  rewrite len_rev in H1. pose proof (len_drop_space_le s). lia.
Qed.

Lemma pieces_within (maxLength : Z) (fuel : nat) (w : jsstr) :
  1 <= maxLength ->
  Forall (fun p => len p <= maxLength) (pieces fuel (Z.to_nat maxLength) w).
Proof.
  intro Hm. eapply Forall_impl; [| apply pieces_bounds; lia].
  intros p Hp. simpl in Hp. unfold len. lia.
Qed.

(** The state while no sentence break has been recorded: the buffer fits,
    and so does every chunk. *)
Lemma processed_plain (maxLength : Z) (st st' : state) (w : jsstr) :
  1 <= maxLength ->
  Forall (fun t => len t <= maxLength) (tweets st) ->
  len (buildTweet (currentWords st)) <= maxLength ->
  lastSentenceBreak st = -1 ->
  ends_sentence w = false ->
  processed maxLength st w st' ->
  Forall (fun t => len t <= maxLength) (tweets st') /\
  len (buildTweet (currentWords st')) <= maxLength /\
  lastSentenceBreak st' = -1.
Proof.
  intros Hm Ht Hc Hl Hw Hp.
  assert (Hflush : Forall (fun t => len t <= maxLength) (tweets (flush st))).
  { unfold flush. destruct (0 <? len (currentWords st)); [| exact Ht].
    simpl. apply Forall_app. split; [exact Ht |].
    constructor; [| constructor].
    pose proof (len_trim_le (buildTweet (currentWords st))). lia. }
  assert (Hcut : cut st = mkState (tweets (flush st)) [] (-1)).
  { unfold cut. rewrite Hl. simpl. rewrite flush_currentWords. reflexivity. }
  destruct Hp as [Hfit _ | _ Hs | Hlong].
  - unfold push_word. simpl. rewrite Hw. auto.
  - rewrite Hcut. unfold push_word. simpl. rewrite Hw. auto.
  - rewrite Hcut. rewrite flush_empty by reflexivity.
    cbn [tweets currentWords lastSentenceBreak].
    split; [| split; [unfold buildTweet, len; simpl; lia | reflexivity]].
    apply Forall_app. split; [exact Hflush | apply pieces_within; exact Hm].
Qed.

Lemma ends_sentence_nil : ends_sentence [] = false.
Proof. reflexivity. Qed.

(** When no word of the text ends with [.], [!] or [?], every chunk has at
    most [maxLength] characters. *)
Theorem createTweets_plain_within_limit (text : jsstr) (maxLength : Z) :
  1 <= maxLength ->
  Forall (fun w => ends_sentence w = false) (words text) ->
  exists chunks, createTweets text maxLength = Some chunks /\
                 Forall (fun chunk => len chunk <= maxLength) chunks.
Proof.
  intros Hm Hplain. unfold createTweets.
  assert (Hpieces : Forall (fun w => ends_sentence w = false) (split_space text)).
  { apply Forall_forall. intros w Hin. destruct w as [| c w]; [reflexivity |].
    rewrite Forall_forall in Hplain. apply Hplain.
    unfold words. apply filter_In. split; [exact Hin | reflexivity]. }
  destruct (forEach_invariant maxLength (fun w => ends_sentence w = false)
              (fun _ st =>
                 Forall (fun t => len t <= maxLength) (tweets st) /\
                 len (buildTweet (currentWords st)) <= maxLength /\
                 lastSentenceBreak st = -1) Hm) with
    (ws := split_space text) (seen := @nil jsstr) (st := initial)
    as [st [E [Ht [Hc Hl]]]].
  - intros seen st w st' [Ht [Hc Hl]] Hw Hp. eapply processed_plain; eauto.
  - split; [constructor | split; [unfold buildTweet, len; simpl; lia | reflexivity]].
  - exact Hpieces.
  - rewrite E. eexists. split; [reflexivity |].
    unfold flush. destruct (0 <? len (currentWords st)); [| exact Ht].
    simpl. apply Forall_app. split; [exact Ht |]. constructor; [| constructor].
    pose proof (len_trim_le (buildTweet (currentWords st))). lia.
Qed.

(** The theorem at a text without sentence ends and a limit of 7. *)
Lemma createTweets_plain_within_limit_witness :
  1 <= 7 /\
  Forall (fun w => ends_sentence w = false) (words (js "one two three fourfivesix seven")) /\
  exists chunks, createTweets (js "one two three fourfivesix seven") 7 = Some chunks /\
                 Forall (fun chunk => len chunk <= 7) chunks.
Proof.
  assert (H : Forall (fun w => ends_sentence w = false)
                (words (js "one two three fourfivesix seven"))).
  { vm_compute. repeat constructor. }
  split; [lia |]. split; [exact H |].
  apply (createTweets_plain_within_limit (js "one two three fourfivesix seven") 7);
    [lia | exact H].
Defined.

(** ** A text that fits is one chunk *)

Lemma buildTweet_app (a b : list jsstr) :
  a <> [] -> b <> [] -> buildTweet (a ++ b) = buildTweet a ++ 32%N :: buildTweet b.
Proof.
  unfold buildTweet. intros Ha Hb. induction a as [| x a IH]; [congruence |].
  destruct a as [| y a].
  - destruct b as [| z b]; [congruence | reflexivity].
  - change (join [32%N] ((x :: y :: a) ++ b))
      with (x ++ 32%N :: join [32%N] ((y :: a) ++ b)).
    rewrite IH by discriminate.
    change (join [32%N] (x :: y :: a)) with (x ++ 32%N :: join [32%N] (y :: a)).
    rewrite <- app_assoc. reflexivity.
Qed.

(** A buffer is no longer than any extension of it. *)
Lemma len_buildTweet_prefix (a b : list jsstr) :
  len (buildTweet a) <= len (buildTweet (a ++ b)).
Proof.
  destruct a as [| x a]; [apply len_nonneg |].
  destruct b as [| y b]; [rewrite app_nil_r; lia |].
  rewrite buildTweet_app by discriminate.
  rewrite len_app, len_cons. pose proof (len_nonneg (buildTweet (y :: b))). lia.
Qed.

Lemma forEach_all_fit (maxLength : Z) (ws : list jsstr) : forall st,
  len (buildTweet (currentWords st ++ ws)) <= maxLength ->
  exists st', forEach (process_word maxLength) ws st = Some st' /\
              tweets st' = tweets st /\
              currentWords st' = currentWords st ++ ws.
Proof.
  induction ws as [| w ws IH]; intros st H.
  - exists st. rewrite app_nil_r. auto.
  - simpl forEach. rewrite process_word_fits.
    + destruct (IH (push_word st w)) as [st' [E [Ht Hc]]].
      * simpl. rewrite <- app_assoc. exact H.
      * exists st'. split; [exact E |]. split; [exact Ht |].
        rewrite Hc. simpl. rewrite <- app_assoc. reflexivity.
    + pose proof (len_buildTweet_prefix (currentWords st ++ [w]) ws) as Hp.
      rewrite <- app_assoc in Hp. simpl in Hp. lia.
Qed.

(** When the pieces of the text joined by single spaces fit within the
    limit, the result is that one text, trimmed, as a single chunk; for a
    text without whitespace at either end it is the words of the text joined
    by single spaces. *)
Theorem createTweets_fits_single_chunk (text : jsstr) (maxLength : Z) :
  len (buildTweet (split_space text)) <= maxLength ->
  createTweets text maxLength = Some [trim (buildTweet (split_space text))] /\
  (text <> [] -> starts_space text = false -> ends_space text = false ->
   createTweets text maxLength = Some [buildTweet (words text)]).
Proof.
  intro H.
  assert (E1 : createTweets text maxLength =
               Some [trim (buildTweet (split_space text))]).
  { unfold createTweets.
    destruct (forEach_all_fit maxLength (split_space text) initial H)
      as [st [E [Ht Hc]]].
    rewrite E. simpl in Ht, Hc. unfold flush. rewrite Hc, Ht.
    pose proof (split_from_not_nil text false) as Hne. fold (split_space text) in Hne.
    destruct (split_space text) as [| x r]; [congruence |].
    rewrite len_cons. pose proof (len_nonneg r).
    destruct (0 <? len r + 1) eqn:E0; [reflexivity | apply Z.ltb_ge in E0; lia]. }
  split; [exact E1 |].
  intros Hne Hs He. rewrite E1.
  assert (Hsolid : solid text) by (split; [exact Hne | split; assumption]).
  rewrite (split_space_solid text Hsolid).
  f_equal. f_equal.
  apply solid_chunk.
  - rewrite <- (split_space_solid text Hsolid). apply split_from_not_nil.
  - apply Forall_forall. intros w Hin. split.
    + unfold words in Hin. apply filter_In in Hin. destruct Hin as [_ Hn].
      destruct w; discriminate.
    + unfold words in Hin. apply filter_In in Hin. destruct Hin as [Hin _].
      pose proof (split_from_space_free text false) as Hf.
      rewrite Forall_forall in Hf. apply Hf. exact Hin.
Qed.

(** The theorem at a text with irregular spacing and a limit of 20. *)
Lemma createTweets_fits_single_chunk_witness :
  len (buildTweet (split_space (js "  short   text here "))) <= 20 /\
  createTweets (js "  short   text here ") 20 =
    Some [trim (buildTweet (split_space (js "  short   text here ")))] /\
  (js "  short   text here " <> [] ->
   starts_space (js "  short   text here ") = false ->
   ends_space (js "  short   text here ") = false ->
   createTweets (js "  short   text here ") 20 =
     Some [buildTweet (words (js "  short   text here "))]).
Proof.
  assert (H : len (buildTweet (split_space (js "  short   text here "))) <= 20)
    by (vm_compute; discriminate).
  split; [exact H |].
  exact (createTweets_fits_single_chunk (js "  short   text here ") 20 H).
Defined.

(** ** No chunk is longer than twice the limit *)

Lemma slice_whole {A : Type} (l : list A) : slice l 0 (len l) = l.
Proof.
  pose proof (len_nonneg l).
  rewrite slice_in_range by lia. simpl skipn.
  apply firstn_all2. unfold len. lia.
Qed.

Lemma slice_app_prefix {A : Type} (l l' : list A) (k : Z) :
  0 <= k <= len l -> slice (l ++ l') 0 k = slice l 0 k.
Proof.
  intro H. pose proof (len_nonneg l').
  rewrite !slice_in_range by (rewrite ?len_app; lia).
  simpl skipn. rewrite firstn_app.
  replace (Z.to_nat (k - 0) - length l)%nat with 0%nat by (unfold len in H; lia).
  simpl. apply app_nil_r.
Qed.

Lemma ends_sentence_not_nil (w : jsstr) : ends_sentence w = true -> 1 <= len w.
Proof.
  destruct w as [| c w]; [discriminate |]. intros _.
  rewrite len_cons. pose proof (len_nonneg w). lia.
Qed.

Lemma buildTweet_nil_len (l : list jsstr) : 1 <= len (buildTweet l) -> l <> [].
Proof. intros H E. rewrite E in H. unfold buildTweet, len in H. simpl in H. lia. Qed.

Lemma break_ok_push (st : state) (w : jsstr) :
  break_ok st -> break_ok (push_word st w).
Proof.
  intro H. unfold break_ok, push_word. simpl.
  rewrite len_app, len_cons, len_nil.
  pose proof (len_nonneg (currentWords st)) as Hn.
  destruct (ends_sentence w) eqn:Ew.
  - right. split; [lia |].
    replace (len (currentWords st) + (0 + 1) - 1 + 1)
      with (len (currentWords st ++ [w])) by (rewrite len_app, len_cons, len_nil; lia).
    rewrite slice_whole.
    destruct (len_candidate (currentWords st) w) as [Hc _].
    pose proof (ends_sentence_not_nil w Ew). lia.
  - destruct H as [H | [H1 H2]]; [left; exact H | right].
    split; [lia |]. rewrite slice_app_prefix by lia. exact H2.
Qed.

Lemma push_fits_within (maxLength : Z) (st : state) (w : jsstr) :
  within_twice maxLength st ->
  len (buildTweet (currentWords st ++ [w])) <= maxLength ->
  within_twice maxLength (push_word st w).
Proof.
  intros [Ht Hc] Hfit. split; [exact Ht |]. left.
  split; [exact Hfit |].
  pose proof (len_buildTweet_prefix (currentWords st) [w]) as Hp.
  destruct Hc as [[_ Hb] | [Hover _]]; [| lia].
  apply break_ok_push. exact Hb.
Qed.

(** After the cut the output is bounded and the buffer is empty or leaves
    room for a separator and more. *)
Lemma cut_within (maxLength : Z) (st : state) :
  1 <= maxLength -> within_twice maxLength st ->
  Forall (fun t => len t <= 2 * maxLength - 1) (tweets (cut st)) /\
  (currentWords (cut st) = [] \/
   len (buildTweet (currentWords (cut st))) + 2 <= maxLength) /\
  lastSentenceBreak (cut st) = -1.
Proof.
  intros Hm [Ht Hc].
  assert (Hall : len (buildTweet (currentWords st)) <= 2 * maxLength - 1)
    by (destruct Hc as [[Hc _] | [Hc _]]; lia).
  unfold cut. destruct (lastSentenceBreak st =? -1) eqn:E;
    cbn [negb tweets currentWords lastSentenceBreak].
  - split; [| split; [left; apply flush_currentWords | reflexivity]].
    unfold flush. destruct (0 <? len (currentWords st)); [| exact Ht].
    cbn [tweets currentWords lastSentenceBreak]. apply Forall_app. split; [exact Ht |]. constructor; [| constructor].
    pose proof (len_trim_le (buildTweet (currentWords st))). lia.
  - apply Z.eqb_neq in E.
    pose proof (slice_split (currentWords st) (lastSentenceBreak st + 1)) as Hs.
    set (X := slice (currentWords st) 0 (lastSentenceBreak st + 1)) in *.
    set (R := slice_from (currentWords st) (lastSentenceBreak st + 1)) in *.
    pose proof (len_buildTweet_prefix X R) as Hp. rewrite Hs in Hp.
    split; [| split; [| reflexivity]].
    + apply Forall_app. split; [exact Ht |]. constructor; [| constructor].
      pose proof (len_trim_le (buildTweet X)). lia.
    + destruct Hc as [[Hfit Hb] | [_ Hb]].
      * destruct Hb as [Hb | [_ Hb]]; [congruence |]. fold X in Hb.
        destruct R as [| r R']; [left; reflexivity | right].
        rewrite <- Hs in Hfit.
        rewrite buildTweet_app in Hfit
          by (try discriminate; apply buildTweet_nil_len; exact Hb).
        rewrite len_app, len_cons in Hfit. lia.
      * destruct Hb as [Hb | Hb]; [congruence |]. left.
        assert (HX : X = currentWords st).
        { unfold X. rewrite Hb.
          replace (len (currentWords st) - 1 + 1) with (len (currentWords st)) by lia.
          apply slice_whole. }
        rewrite HX in Hs. rewrite <- (app_nil_r (currentWords st)) in Hs at 2.
        apply app_inv_head in Hs. exact Hs.
Qed.

Lemma push_after_cut_within (maxLength : Z) (st : state) (w : jsstr) :
  1 <= maxLength ->
  Forall (fun t => len t <= 2 * maxLength - 1) (tweets st) ->
  currentWords st = [] \/ len (buildTweet (currentWords st)) + 2 <= maxLength ->
  lastSentenceBreak st = -1 ->
  len w <= maxLength ->
  within_twice maxLength (push_word st w).
Proof.
  intros Hm Ht Hc Hl Hw. split; [exact Ht |].
  assert (Hlen : len (buildTweet (currentWords st ++ [w])) <= 2 * maxLength - 1).
  { destruct Hc as [Hc | Hc].
    - rewrite Hc. unfold buildTweet. cbn [app join]. lia.
    - destruct (currentWords st) as [| x r] eqn:Ecur.
      + unfold buildTweet. cbn [app join]. lia.
      + rewrite buildTweet_snoc by discriminate.
        rewrite len_app, len_cons. lia. }
  destruct (Z.le_gt_cases (len (buildTweet (currentWords st ++ [w]))) maxLength)
    as [Hfit | Hover].
  - left. split; [exact Hfit |]. apply break_ok_push. left. exact Hl.
  - right. split; [cbn [push_word currentWords]; lia |].
    unfold push_word. cbn [currentWords lastSentenceBreak].
    destruct (ends_sentence w); [right; reflexivity | left; exact Hl].
Qed.

Lemma processed_within (maxLength : Z) (st st' : state) (w : jsstr) :
  1 <= maxLength -> within_twice maxLength st ->
  processed maxLength st w st' -> within_twice maxLength st'.
Proof.
  intros Hm Hst Hp. destruct Hp as [Hfit _ | _ Hs | Hl].
  - apply push_fits_within; assumption.
  - destruct (cut_within maxLength st Hm Hst) as [Ht [Hc Hb]].
    apply push_after_cut_within; assumption.
  - destruct (cut_within maxLength st Hm Hst) as [Ht [Hc Hb]].
    split; cbn [tweets currentWords lastSentenceBreak].
    + apply Forall_app. split.
      * unfold flush. destruct (0 <? len (currentWords (cut st))); [| exact Ht].
        cbn [tweets currentWords lastSentenceBreak]. apply Forall_app. split; [exact Ht |]. constructor; [| constructor].
        pose proof (len_trim_le (buildTweet (currentWords (cut st)))) as Hle.
        destruct Hc as [Hc | Hc]; [| lia].
        rewrite Hc in Hle |- *. change (len (buildTweet [])) with 0 in Hle. lia.
      * eapply Forall_impl; [| apply pieces_within; exact Hm].
        intros p Hp. simpl in Hp. lia.
    + left. split; [unfold buildTweet, len; simpl; lia | left; reflexivity].
Qed.

(** For a limit of at least 1 no chunk has more than [2 * maxLength - 1]
    characters: a chunk goes over the limit only as the rest of a buffer cut
    at a sentence break with one more word pushed onto it. *)
Theorem createTweets_within_twice_limit (text : jsstr) (maxLength : Z) :
  1 <= maxLength ->
  exists chunks, createTweets text maxLength = Some chunks /\
                 Forall (fun chunk => len chunk <= 2 * maxLength - 1) chunks.
Proof.
  intro Hm. unfold createTweets.
  destruct (forEach_invariant maxLength (fun _ => True)
              (fun _ st => within_twice maxLength st) Hm) with
    (ws := split_space text) (seen := @nil jsstr) (st := initial)
    as [st [E [Ht Hc]]].
  - intros seen st w st' Hst _ Hp. eapply processed_within; eauto.
  - split; [constructor |]. left.
    split; [unfold buildTweet, len; simpl; lia | left; reflexivity].
  - apply Forall_forall. trivial.
  - rewrite E. eexists. split; [reflexivity |].
    unfold flush. destruct (0 <? len (currentWords st)); [| exact Ht].
    cbn [tweets currentWords lastSentenceBreak]. apply Forall_app. split; [exact Ht |]. constructor; [| constructor].
    pose proof (len_trim_le (buildTweet (currentWords st))).
    destruct Hc as [[Hc _] | [Hc _]]; lia.
Qed.

(** The theorem at a text that reaches the bound, with a limit of 6: the
    second chunk has 11 characters. *)
Lemma createTweets_within_twice_limit_witness :
  1 <= 6 /\
  exists chunks, createTweets (js ". bbbb cccccc") 6 = Some chunks /\
                 Forall (fun chunk => len chunk <= 2 * 6 - 1) chunks.
Proof.
  split; [lia |]. apply (createTweets_within_twice_limit (js ". bbbb cccccc") 6). lia.
Defined.

Example createTweets_bound_reached :
  createTweets (js ". bbbb cccccc") 6 = Some [js "."; js "bbbb cccccc"] /\
  len (js "bbbb cccccc") = 2 * 6 - 1.
Proof. vm_compute. split; reflexivity. Qed.

(** ** No empty chunk from a text without outer whitespace *)

Lemma solid_pieces (maxLength : Z) (w : jsstr) :
  1 <= maxLength -> space_free w ->
  Forall solid (pieces (S (length w)) (Z.to_nat maxLength) w).
Proof.
  intros Hm Hw.
  pose proof (pieces_space_free w (Z.to_nat maxLength) ltac:(lia) Hw) as Hf.
  pose proof (pieces_bounds (Z.to_nat maxLength) (S (length w)) w ltac:(lia)) as Hb.
  induction (pieces (S (length w)) (Z.to_nat maxLength) w) as [| p ps IH];
    [constructor |].
  inversion Hf; subst. inversion Hb; subst.
  constructor; [| apply IH; assumption].
  apply solid_word_solid. split; [| assumption].
  destruct p; [simpl in *; lia | discriminate].
Qed.

Lemma processed_solid (maxLength : Z) (st st' : state) (w : jsstr) :
  1 <= maxLength -> steady [] st -> solid_word w ->
  processed maxLength st w st' -> steady [] st'.
Proof.
  intros Hm Hst Hw Hp.
  assert (Hweak : forall s, steady ([] ++ [w]) s -> steady [] s).
  { intros s [H1 [H2 [_ H4]]]. split; [exact H1 |]. split; [exact H2 |].
    split; [congruence | exact H4]. }
  destruct Hp as [_ _ | _ _ | Hl].
  - destruct Hst as [Ht [Hc [_ Hl]]]. apply Hweak.
    apply push_word_steady; assumption.
  - destruct (cut_steady [] st Hst) as [Ht [Hc Hl]]. apply Hweak.
    apply push_word_steady; try assumption. left. exact Hl.
  - destruct (cut_steady [] st Hst) as [Ht [Hc _]].
    generalize dependent (cut st). intros st1 Ht Hc.
    split; cbn [tweets currentWords lastSentenceBreak].
    + apply Forall_app. split.
      * unfold flush. destruct (0 <? len (currentWords st1)) eqn:E0; [| exact Ht].
        simpl. apply Forall_app. split; [exact Ht |]. constructor; [| constructor].
        apply solid_chunk; [| exact Hc].
        intro En. rewrite En in E0. discriminate.
      * apply solid_pieces; [exact Hm | apply Hw].
    + split; [constructor |]. split; [congruence | left; reflexivity].
Qed.

(** For a limit of at least 1 and a text that is not empty and neither
    starts nor ends with whitespace, no chunk is empty. *)
Theorem createTweets_no_empty_chunk (text : jsstr) (maxLength : Z) :
  1 <= maxLength ->
  text <> [] -> starts_space text = false -> ends_space text = false ->
  exists chunks, createTweets text maxLength = Some chunks /\
                 Forall (fun chunk => chunk <> []) chunks.
Proof.
  intros Hm Hne Hs He. unfold createTweets.
  assert (Hsolid : solid text) by (split; [exact Hne | split; assumption]).
  assert (Hws : Forall solid_word (split_space text)).
  { apply Forall_forall. intros w Hin. split.
    - rewrite (split_space_solid text Hsolid) in Hin.
      apply filter_In in Hin. destruct Hin as [_ Hn]. destruct w; discriminate.
    - pose proof (split_from_space_free text false) as Hf.
      rewrite Forall_forall in Hf. apply Hf. exact Hin. }
  destruct (forEach_invariant maxLength solid_word (fun _ st => steady [] st) Hm)
    with (ws := split_space text) (seen := @nil jsstr) (st := initial)
    as [st [E [Ht [Hc _]]]].
  - intros seen st w st' Hst Hw Hp. eapply processed_solid; eauto.
  - split; [constructor |]. split; [constructor |].
    split; [congruence | left; reflexivity].
  - exact Hws.
  - rewrite E. eexists. split; [reflexivity |].
    apply (Forall_impl (fun c : jsstr => c <> []) (fun c (Hcs : solid c) => proj1 Hcs)).
    unfold flush. destruct (0 <? len (currentWords st)) eqn:E0; [| exact Ht].
    simpl. apply Forall_app. split; [exact Ht |]. constructor; [| constructor].
    apply solid_chunk; [| exact Hc].
    intro En. rewrite En in E0. discriminate.
Qed.

(** The theorem at a text with a long word and a limit of 4. *)
Lemma createTweets_no_empty_chunk_witness :
  1 <= 4 /\ js "ab. cdefghij  k" <> [] /\
  starts_space (js "ab. cdefghij  k") = false /\
  ends_space (js "ab. cdefghij  k") = false /\
  exists chunks, createTweets (js "ab. cdefghij  k") 4 = Some chunks /\
                 Forall (fun chunk => chunk <> []) chunks.
Proof.
  split; [lia |]. split; [discriminate |].
  split; [reflexivity |]. split; [reflexivity |].
  apply (createTweets_no_empty_chunk (js "ab. cdefghij  k") 4);
    [lia | discriminate | reflexivity | reflexivity].
Defined.

(** ** The parts of a long word are chunks of their own *)







(** * Properties of the file name and of the note *)

(** ** sanitizeFileName, further *)

Lemma sanitizeFileName_filter (name : jsstr) :
  sanitizeFileName name = filter (fun c => negb (is_illegal c)) name.
Proof. apply replace_class_delete. Qed.

Lemma sanitizeFileName_legal (name : jsstr) : legal (sanitizeFileName name).
Proof.
  rewrite sanitizeFileName_filter. apply Forall_forall. intros c Hc.
  apply filter_In in Hc. destruct Hc as [_ Hc]. intro Hin.
  apply is_illegal_removed in Hin. rewrite Hin in Hc. discriminate.
Qed.

Lemma sanitizeFileName_app (a b : jsstr) :
  sanitizeFileName (a ++ b) = sanitizeFileName a ++ sanitizeFileName b.
Proof. rewrite !sanitizeFileName_filter. apply filter_app. Qed.

(** Sanitizing twice is sanitizing once, and the sanitized form of a
    concatenation is the concatenation of the sanitized forms. *)
Theorem sanitizeFileName_idempotent (name other : jsstr) :
  sanitizeFileName (sanitizeFileName name) = sanitizeFileName name /\
  sanitizeFileName (name ++ other) = sanitizeFileName name ++ sanitizeFileName other.
Proof.
  split; [| apply sanitizeFileName_app].
  rewrite !sanitizeFileName_filter.
  induction name as [| c name IH]; [reflexivity |].
  simpl. destruct (is_illegal c) eqn:E; simpl; [exact IH |].
  rewrite E. simpl. rewrite IH. reflexivity.
Qed.

Lemma len_filter_le {A : Type} (f : A -> bool) (l : list A) :
  len (filter f l) <= len l.
Proof.
  induction l as [| x l IH]; [simpl; lia |].
  simpl. destruct (f x); rewrite ?len_cons; lia.
Qed.

(** The result is never longer than the name, and it is the name itself
    exactly when the name holds none of the nine characters. *)
Theorem sanitizeFileName_unchanged_iff (name : jsstr) :
  len (sanitizeFileName name) <= len name /\
  (sanitizeFileName name = name <-> legal name).
Proof.
  rewrite sanitizeFileName_filter. split; [apply len_filter_le |].
  split.
  - intro E. rewrite <- E. rewrite <- sanitizeFileName_filter.
    apply sanitizeFileName_legal.
  - intro H. induction H as [| c name Hc Hname IH]; [reflexivity |].
    simpl. destruct (is_illegal c) eqn:E.
    + apply is_illegal_removed in E. contradiction.
    + simpl. rewrite IH. reflexivity.
Qed.

(** ** Decimal digits *)

Lemma js_app (a b : string) : js (a ++ b)%string = js a ++ js b.
Proof.
  unfold js. induction a as [| c a IH]; [reflexivity |].
  simpl. rewrite IH. reflexivity.
Qed.

Lemma N_of_ascii_inj (a b : ascii) : N_of_ascii a = N_of_ascii b -> a = b.
Proof.
  intro H. rewrite <- (ascii_N_embedding a), <- (ascii_N_embedding b), H.
  reflexivity.
Qed.

Lemma js_inj (a : string) : forall b, js a = js b -> a = b.
Proof.
  unfold js. induction a as [| c a IH]; intros [| d b] H; simpl in H;
    try discriminate; [reflexivity |].
  injection H as Hc Hr. apply N_of_ascii_inj in Hc. apply IH in Hr.
  subst. reflexivity.
Qed.

(** Different numbers have different digits. *)
Lemma decimal_inj (m n : nat) : decimal m = decimal n -> m = n.
Proof.
  unfold decimal. intro H. apply js_inj in H.
  apply DecimalNat.Unsigned.to_uint_inj.
  pose proof (DecimalString.NilEmpty.usu (Nat.to_uint m)) as Hm.
  pose proof (DecimalString.NilEmpty.usu (Nat.to_uint n)) as Hn.
  rewrite H in Hm. congruence.
Qed.

Lemma string_of_uint_digits (d : Decimal.uint) :
  Forall is_digit (js (DecimalString.NilEmpty.string_of_uint d)).
Proof.
  induction d; simpl; try constructor; try assumption;
    unfold is_digit; simpl; lia.
Qed.

Lemma decimal_digits (n : nat) : Forall is_digit (decimal n).
Proof. apply string_of_uint_digits. Qed.

Lemma decimal_not_nil (n : nat) : decimal n <> [].
Proof.
  unfold decimal. intro H.
  assert (E : DecimalString.NilEmpty.string_of_uint (Nat.to_uint n) = ""%string)
    by (apply js_inj; exact H).
  pose proof (DecimalString.NilEmpty.usu (Nat.to_uint n)) as Hu. rewrite E in Hu.
  simpl in Hu. injection Hu as Hu.
  pose proof (DecimalNat.Unsigned.of_to n) as Hof. rewrite <- Hu in Hof.
  simpl in Hof. subst n. discriminate Hu.
Qed.

(** ** The path of the new note *)

Lemma candidate_inj (base : jsstr) (i j : nat) :
  candidate base i = candidate base j -> i = j.
Proof.
  assert (Hpn : forall k, plain_path base <> numbered_path base k).
  { intros k H. unfold plain_path, numbered_path in H.
    do 3 apply app_inv_head in H. discriminate H. }
  destruct i as [| i], j as [| j]; simpl; intro H.
  - reflexivity.
  - exfalso. apply (Hpn _ H).
  - exfalso. apply (Hpn (S i)). symmetry. exact H.
  - unfold numbered_path in H. do 4 apply app_inv_head in H.
    apply app_inv_tail in H. apply decimal_inj. exact H.
Qed.

(** The loop seen from candidate [k]: a result is the first candidate from
    [k] on that is not taken. *)
Lemma pick_path_first_free (taken : jsstr -> bool) (base : jsstr) (fuel : nat) :
  forall k p,
  pick_path fuel taken base (candidate base k) (S k) = Some p ->
  exists j, (k <= j < k + fuel)%nat /\ p = candidate base j /\ taken p = false /\
            forall i, (k <= i < j)%nat -> taken (candidate base i) = true.
Proof.
  induction fuel as [| fuel IH]; intros k p H; [discriminate |].
  simpl in H. destruct (taken (candidate base k)) eqn:E.
  - change (numbered_path base (S k)) with (candidate base (S k)) in H.
    destruct (IH (S k) p H) as [j [Hj [Hp [Hf Hall]]]].
    exists j. split; [lia |]. split; [exact Hp |]. split; [exact Hf |].
    intros i Hi. destruct (Nat.eq_dec i k) as [-> | Hne]; [exact E |].
    apply Hall. lia.
  - injection H as <-. exists k. split; [lia |]. split; [reflexivity |].
    split; [exact E |]. intros i Hi. lia.
Qed.

Lemma pick_path_none (taken : jsstr -> bool) (base : jsstr) (fuel : nat) :
  forall k,
  pick_path fuel taken base (candidate base k) (S k) = None ->
  forall i, (k <= i < k + fuel)%nat -> taken (candidate base i) = true.
Proof.
  induction fuel as [| fuel IH]; intros k H i Hi; [lia |].
  simpl in H. destruct (taken (candidate base k)) eqn:E; [| discriminate].
  destruct (Nat.eq_dec i k) as [-> | Hne]; [exact E |].
  apply (IH (S k)); [exact H | lia].
Qed.

(** When [createNewNote] creates a note, its path is one the vault does not
    hold: the plain name, or the name with the smallest counter from 1 on
    that is free, every name before it being taken; the content is the
    thread. *)
Theorem createNewNote_first_free_path (fuel : nat) (taken : jsstr -> bool)
    (dateStr : jsstr) (activeFile : option jsstr) (tweets : list jsstr)
    (filePath content : jsstr) :
  createNewNote fuel taken dateStr activeFile tweets = Some (filePath, content) ->
  content = threadContent tweets /\
  taken filePath = false /\
  exists j, filePath = candidate (fileBase dateStr activeFile) j /\
    forall i, (i < j)%nat -> taken (candidate (fileBase dateStr activeFile) i) = true.
Proof.
  unfold createNewNote. intro H.
  destruct (pick_path fuel taken (fileBase dateStr activeFile)
              (plain_path (fileBase dateStr activeFile)) 1) as [p |] eqn:E;
    [| discriminate].
  injection H as <- <-.
  destruct (pick_path_first_free taken _ fuel 0%nat p E) as [j [_ [Hp [Hf Hall]]]].
  split; [reflexivity |]. split; [exact Hf |].
  exists j. split; [exact Hp |]. intros i Hi. apply Hall. lia.
Qed.

(** The theorem at a vault that holds the plain name and the name numbered
    1. *)
Lemma createNewNote_first_free_path_witness :
  createNewNote 5
    (member [candidate (fileBase (js "2024-05-01") (Some (js "a/b"))) 0;
             candidate (fileBase (js "2024-05-01") (Some (js "a/b"))) 1])
    (js "2024-05-01") (Some (js "a/b")) [js "x"] =
    Some (js "TwitterThreads/Twitter Thread 2024-05-01 for ab (2).md",
          threadContent [js "x"]) /\
  threadContent [js "x"] = threadContent [js "x"] /\
  member [candidate (fileBase (js "2024-05-01") (Some (js "a/b"))) 0;
          candidate (fileBase (js "2024-05-01") (Some (js "a/b"))) 1]
    (js "TwitterThreads/Twitter Thread 2024-05-01 for ab (2).md") = false /\
  exists j,
    js "TwitterThreads/Twitter Thread 2024-05-01 for ab (2).md" =
      candidate (fileBase (js "2024-05-01") (Some (js "a/b"))) j /\
    forall i, (i < j)%nat ->
      member [candidate (fileBase (js "2024-05-01") (Some (js "a/b"))) 0;
              candidate (fileBase (js "2024-05-01") (Some (js "a/b"))) 1]
        (candidate (fileBase (js "2024-05-01") (Some (js "a/b"))) i) = true.
Proof.
  assert (E : createNewNote 5
    (member [candidate (fileBase (js "2024-05-01") (Some (js "a/b"))) 0;
             candidate (fileBase (js "2024-05-01") (Some (js "a/b"))) 1])
    (js "2024-05-01") (Some (js "a/b")) [js "x"] =
    Some (js "TwitterThreads/Twitter Thread 2024-05-01 for ab (2).md",
          threadContent [js "x"])) by (vm_compute; reflexivity).
  split; [exact E |].
  exact (createNewNote_first_free_path 5 _ (js "2024-05-01")
           (Some (js "a/b")) [js "x"] _ _ E).
Defined.

Lemma NoDup_map_inj {A B : Type} (f : A -> B) (l : list A) :
  (forall x y, f x = f y -> x = y) -> NoDup l -> NoDup (map f l).
Proof.
  intros Hf H. induction H as [| x l Hx Hl IH]; simpl; constructor.
  - intro Hin. apply in_map_iff in Hin. destruct Hin as [y [E Hy]].
    apply Hf in E. subst y. contradiction.
  - exact IH.
Qed.

Lemma NoDup_candidates (base : jsstr) (n : nat) :
  NoDup (map (candidate base) (seq 0 n)).
Proof.
  apply NoDup_map_inj; [| apply seq_NoDup].
  intros i j. apply candidate_inj.
Qed.

Lemma createNewNote_some (fuel : nat) (taken : jsstr -> bool)
    (vault : list jsstr) (dateStr : jsstr) (activeFile : option jsstr)
    (tweets : list jsstr) :
  (forall p, taken p = true -> In p vault) ->
  (length vault < fuel)%nat ->
  exists j, (j <= length vault)%nat /\
    createNewNote fuel taken dateStr activeFile tweets =
    Some (candidate (fileBase dateStr activeFile) j, threadContent tweets).
Proof.
  intros Hv Hfuel. unfold createNewNote.
  set (base := fileBase dateStr activeFile).
  assert (Hbound : forall j,
             (forall i, (i < j)%nat -> taken (candidate base i) = true) ->
             (j <= length vault)%nat).
  { intros j Hall.
    assert (El : length (map (candidate base) (seq 0 j)) = j)
      by (rewrite length_map, length_seq; reflexivity).
    rewrite <- El.
    apply NoDup_incl_length; [apply NoDup_candidates |].
    intros p Hp. apply in_map_iff in Hp. destruct Hp as [i [<- Hi]].
    apply in_seq in Hi. apply Hv. apply Hall. lia. }
  destruct (pick_path fuel taken base (plain_path base) 1) as [p |] eqn:E.
  - destruct (pick_path_first_free taken base fuel 0%nat p E) as [j [_ [Hp [_ Hall]]]].
    exists j. split; [| rewrite Hp; reflexivity].
    apply Hbound. intros i Hi. apply Hall. lia.
  - pose proof (pick_path_none taken base fuel 0%nat E) as Hall.
    specialize (Hbound fuel). assert (fuel <= length vault)%nat; [| lia].
    apply Hbound. intros i Hi. apply Hall. lia.
Qed.

(** A vault holds finitely many paths, so the loop ends: when every taken
    path is in the list [vault], [createNewNote] creates a note as soon as
    the fuel exceeds the length of the list, after at most that many names
    found taken. *)
Theorem createNewNote_terminates (fuel : nat) (taken : jsstr -> bool)
    (vault : list jsstr) (dateStr : jsstr) (activeFile : option jsstr)
    (tweets : list jsstr) :
  (forall p, taken p = true -> In p vault) ->
  (length vault < fuel)%nat ->
  exists j, (j <= length vault)%nat /\
    createNewNote fuel taken dateStr activeFile tweets =
    Some (candidate (fileBase dateStr activeFile) j, threadContent tweets).
Proof. apply createNewNote_some. Qed.

Lemma member_In (vault : list jsstr) (p : jsstr) :
  member vault p = true -> In p vault.
Proof.
  unfold member. intro H. apply existsb_exists in H.
  destruct H as [q [Hq Hpq]].
  destruct (list_eq_dec N.eq_dec p q); [subst q; exact Hq | discriminate].
Qed.

(** The theorem at a vault of two paths, one of them the plain name. *)
Lemma createNewNote_terminates_witness :
  (forall p,
     member [candidate (fileBase (js "2024-05-01") None) 0; js "other.md"] p = true ->
     In p [candidate (fileBase (js "2024-05-01") None) 0; js "other.md"]) /\
  (length [candidate (fileBase (js "2024-05-01") None) 0; js "other.md"] < 3)%nat /\
  exists j,
    (j <= length [candidate (fileBase (js "2024-05-01") None) 0; js "other.md"])%nat /\
    createNewNote 3
      (member [candidate (fileBase (js "2024-05-01") None) 0; js "other.md"])
      (js "2024-05-01") None [js "x"] =
    Some (candidate (fileBase (js "2024-05-01") None) j, threadContent [js "x"]).
Proof.
  split; [apply member_In |].
  split; [simpl; lia |].
  apply (createNewNote_terminates 3 _
           [candidate (fileBase (js "2024-05-01") None) 0; js "other.md"]
           (js "2024-05-01") None [js "x"]);
    [apply member_In | simpl; lia].
Defined.

(** ** The file name is legal *)

Lemma legalb_legal (s : jsstr) : legalb s = true -> legal s.
Proof.
  unfold legalb, legal. intro H. rewrite forallb_forall in H.
  apply Forall_forall. intros c Hin Hr. apply is_illegal_removed in Hr.
  specialize (H c Hin). rewrite Hr in H. discriminate.
Qed.

Lemma legal_app (a b : jsstr) : legal a -> legal b -> legal (a ++ b).
Proof. intros Ha Hb. apply Forall_app. split; assumption. Qed.

Lemma legal_decimal (n : nat) : legal (decimal n).
Proof.
  eapply Forall_impl; [| apply decimal_digits].
  intros c Hc Hin. unfold is_digit in Hc. unfold removed_characters in Hin.
  simpl in Hin. lia.
Qed.

Lemma legal_fileBase (dateStr : jsstr) (activeFile : option jsstr) :
  legal dateStr -> legal (fileBase dateStr activeFile).
Proof.
  intro Hd. unfold fileBase.
  apply legal_app; [apply legalb_legal; reflexivity |].
  apply legal_app; [exact Hd |].
  apply legal_app; [apply legalb_legal; reflexivity |].
  destruct activeFile as [basename |]; simpl.
  - apply sanitizeFileName_legal.
  - apply legalb_legal. reflexivity.
Qed.

(** When the date string holds none of the nine characters, the path of the
    new note is the folder, one slash and a file name that holds none of
    them, whatever the name of the active file. *)
Theorem createNewNote_legal_file_name (fuel : nat) (taken : jsstr -> bool)
    (dateStr : jsstr) (activeFile : option jsstr) (tweets : list jsstr)
    (filePath content : jsstr) :
  legal dateStr ->
  createNewNote fuel taken dateStr activeFile tweets = Some (filePath, content) ->
  exists fileName, filePath = js "TwitterThreads/" ++ fileName /\ legal fileName.
Proof.
  intros Hd H. unfold createNewNote in H.
  destruct (pick_path fuel taken (fileBase dateStr activeFile)
              (plain_path (fileBase dateStr activeFile)) 1) as [p |] eqn:E;
    [| discriminate].
  injection H as <- _.
  destruct (pick_path_first_free taken _ fuel 0%nat p E) as [j [_ [Hp _]]].
  pose proof (legal_fileBase dateStr activeFile Hd) as Hb.
  destruct j as [| j]; simpl in Hp; subst p.
  - exists (fileBase dateStr activeFile ++ fileExt). split; [reflexivity |].
    apply legal_app; [exact Hb | apply legalb_legal; reflexivity].
  - exists (fileBase dateStr activeFile ++ js " (" ++ decimal (S j) ++ js ")" ++ fileExt).
    split; [reflexivity |].
    apply legal_app; [exact Hb |].
    apply legal_app; [apply legalb_legal; reflexivity |].
    apply legal_app; [apply legal_decimal |].
    apply legalb_legal. reflexivity.
Qed.

(** The theorem at a file whose name holds slashes and a colon. *)
Lemma createNewNote_legal_file_name_witness :
  legal (js "2024-05-01") /\
  createNewNote 1 (fun _ => false) (js "2024-05-01") (Some (js "a/b: c?")) [] =
    Some (js "TwitterThreads/Twitter Thread 2024-05-01 for ab c.md", []) /\
  exists fileName,
    js "TwitterThreads/Twitter Thread 2024-05-01 for ab c.md" =
      js "TwitterThreads/" ++ fileName /\ legal fileName.
Proof.
  assert (Hd : legal (js "2024-05-01")) by (apply legalb_legal; reflexivity).
  assert (E : createNewNote 1 (fun _ => false) (js "2024-05-01")
                (Some (js "a/b: c?")) [] =
              Some (js "TwitterThreads/Twitter Thread 2024-05-01 for ab c.md", []))
    by (vm_compute; reflexivity).
  split; [exact Hd |]. split; [exact E |].
  apply (createNewNote_legal_file_name 1 (fun _ => false) (js "2024-05-01")
           (Some (js "a/b: c?")) [] _ _ Hd E).
Defined.

(** ** The content of the note *)







(** * Properties of the settings tab *)

Example parseInt_samples :
  parseInt (js "  42px") = Some 42 /\ parseInt (js "-7") = Some (-7) /\
  parseInt (js "0x1F") = Some 31 /\ parseInt (js "abc") = None /\
  parseInt (js "") = None /\ parseInt (js "+") = None /\
  parseInt (js "0x") = None /\ parseInt (js "007") = Some 7.
Proof. vm_compute. repeat split; reflexivity. Qed.

Lemma digit_value_range (radix : Z) (c : code_unit) (d : Z) :
  digit_value radix c = Some d -> 0 <= d < radix.
Proof.
  unfold digit_value. intro H.
  destruct ((48 <=? c) && (c <=? 57))%N eqn:E1.
  - apply andb_true_iff in E1. destruct E1 as [E1 _]. apply N.leb_le in E1.
    destruct (Z.of_N c - 48 <? radix) eqn:Er; [| discriminate].
    apply Z.ltb_lt in Er. injection H as <-. lia.
  - destruct ((97 <=? c) && (c <=? 122))%N eqn:E2.
    + apply andb_true_iff in E2. destruct E2 as [E2 _]. apply N.leb_le in E2.
      destruct (Z.of_N c - 87 <? radix) eqn:Er; [| discriminate].
      apply Z.ltb_lt in Er. injection H as <-. lia.
    + destruct ((65 <=? c) && (c <=? 90))%N eqn:E3; [| discriminate].
      apply andb_true_iff in E3. destruct E3 as [E3 _]. apply N.leb_le in E3.
      destruct (Z.of_N c - 55 <? radix) eqn:Er; [| discriminate].
      apply Z.ltb_lt in Er. injection H as <-. lia.
Qed.

(** The digits read after a value [a] give less than [(a + 1) * radix ^ n]
    for [n] characters. *)
Lemma parse_digits_bound (radix : Z) (s : jsstr) : forall a v,
  1 <= radix -> 0 <= a ->
  parse_digits radix (Some a) s = Some v ->
  0 <= v < (a + 1) * radix ^ len s.
Proof.
  induction s as [| c s IH]; intros a v Hr Ha H; simpl in H.
  - injection H as <-. change (len (@nil code_unit)) with 0. lia.
  - rewrite len_cons. pose proof (len_nonneg s) as Hn.
    rewrite Z.pow_add_r, Z.pow_1_r by lia.
    assert (Hp : 0 < radix ^ len s) by (apply Z.pow_pos_nonneg; lia).
    destruct (digit_value radix c) as [d |] eqn:Ed.
    + apply digit_value_range in Ed.
      apply IH in H; [| lia | nia]. nia.
    + injection H as <-. nia.
Qed.

Lemma parse_digits_bound_none (radix : Z) (s : jsstr) (v : Z) :
  1 <= radix ->
  parse_digits radix None s = Some v -> 0 <= v < radix ^ len s.
Proof.
  intros Hr H. destruct s as [| c s]; [discriminate |].
  simpl in H. rewrite len_cons. pose proof (len_nonneg s) as Hn.
  rewrite Z.pow_add_r, Z.pow_1_r by lia.
  destruct (digit_value radix c) as [d |] eqn:Ed; [| discriminate].
  apply digit_value_range in Ed.
  apply parse_digits_bound in H; [| lia | lia]. nia.
Qed.

(** On a string of at most 15 characters the value [parseInt] computes is
    below [2^53] in size, so the number returned is that value exactly. *)
Lemma parseInt_exact (value : jsstr) (v : Z) :
  len value <= 15 -> parseInt value = Some v -> - 2 ^ 53 < v < 2 ^ 53.
Proof.
  intros Hlen H. unfold parseInt in H.
  pose proof (len_drop_space_le value) as Hd.
  set (s0 := drop_space value) in *.
  assert (Hsign : exists sign s1,
             (match s0 with
              | c :: r => if (c =? 45)%N then (-1, r)
                          else if (c =? 43)%N then (1, r) else (1, s0)
              | [] => (1, s0)
              end) = (sign, s1) /\ (sign = 1 \/ sign = -1) /\ len s1 <= 15).
  { destruct s0 as [| c r]; [exists 1, []; split; [reflexivity | split; [auto | change (len (@nil code_unit)) with 0; lia]] |].
    rewrite len_cons in Hd. pose proof (len_nonneg r).
    destruct (c =? 45)%N; [exists (-1), r; split; [reflexivity | split; [auto | lia]] |].
    destruct (c =? 43)%N; [exists 1, r; split; [reflexivity | split; [auto | lia]] |].
    exists 1, (c :: r). split; [reflexivity | split; [auto | rewrite len_cons; lia]]. }
  destruct Hsign as [sign [s1 [Es [Hs Hl1]]]]. rewrite Es in H.
  assert (Hradix : exists radix s2,
             (match s1 with
              | c0 :: c1 :: r =>
                  if ((c0 =? 48) && ((c1 =? 120) || (c1 =? 88)))%N then (16, r)
                  else (10, s1)
              | _ => (10, s1)
              end) = (radix, s2) /\
             ((radix = 10 /\ len s2 <= 15) \/ (radix = 16 /\ len s2 <= 13))).
  { destruct s1 as [| c0 [| c1 r]];
      try (eexists _, _; split; [reflexivity | left; split; [reflexivity | exact Hl1]]).
    destruct ((c0 =? 48) && ((c1 =? 120) || (c1 =? 88)))%N.
    - exists 16, r. split; [reflexivity | right; split; [reflexivity |]].
      rewrite !len_cons in Hl1. lia.
    - eexists _, _. split; [reflexivity | left; split; [reflexivity | exact Hl1]]. }
  destruct Hradix as [radix [s2 [Er Hr]]]. rewrite Er in H.
  destruct (parse_digits radix None s2) as [u |] eqn:Eu; [| discriminate].
  injection H as <-.
  pose proof (len_nonneg s2) as Hn.
  destruct Hr as [[-> Hl2] | [-> Hl2]].
  - apply parse_digits_bound_none in Eu; [| lia].
    assert (10 ^ len s2 <= 10 ^ 15) by (apply Z.pow_le_mono_r; lia).
    assert (10 ^ 15 < 2 ^ 53) by reflexivity.
    destruct Hs as [-> | ->]; lia.
  - apply parse_digits_bound_none in Eu; [| lia].
    assert (16 ^ len s2 <= 16 ^ 13) by (apply Z.pow_le_mono_r; lia).
    assert (16 ^ 13 < 2 ^ 53) by reflexivity.
    destruct Hs as [-> | ->]; lia.
Qed.

(** Whatever is typed into the field, up to 15 characters, the setting
    that results is an integer of at least 1 and below [2^53]: a value that
    does not parse, or parses to zero or less, gives the default 250.  With
    it [createTweets] returns on every text. *)
Theorem onChange_positive (value text : jsstr) :
  len value <= 15 ->
  1 <= onChange value < 2 ^ 53 /\
  (parseInt value = None -> onChange value = 250) /\
  (forall parsed, parseInt value = Some parsed -> parsed <= 0 ->
     onChange value = 250) /\
  exists chunks, createTweets text (onChange value) = Some chunks.
Proof.
  intro Hlen.
  assert (H1 : 1 <= onChange value < 2 ^ 53).
  { unfold onChange, default_maxTweetLength.
    destruct (parseInt value) as [p |] eqn:Ep; [| split; [lia | reflexivity]].
    apply parseInt_exact in Ep; [| exact Hlen].
    destruct (p >? 0) eqn:E; [| split; [lia | reflexivity]].
    rewrite Z.gtb_ltb in E. apply Z.ltb_lt in E. lia. }
  split; [exact H1 |]. split; [| split].
  - unfold onChange. intros ->. reflexivity.
  - unfold onChange. intros p -> Hp.
    destruct (p >? 0) eqn:E; [| reflexivity].
    rewrite Z.gtb_ltb in E. apply Z.ltb_lt in E. lia.
  - unfold createTweets.
    destruct (forEach_total (onChange value) (split_space text) initial
                (proj1 H1)) as [st E].
    rewrite E. eexists. reflexivity.
Qed.

(** The theorem at a value that does not parse. *)
Lemma onChange_positive_witness :
  len (js "abc") <= 15 /\ 1 <= onChange (js "abc") < 2 ^ 53 /\
  (parseInt (js "abc") = None -> onChange (js "abc") = 250) /\
  (forall parsed, parseInt (js "abc") = Some parsed -> parsed <= 0 ->
     onChange (js "abc") = 250) /\
  exists chunks, createTweets (js "some text") (onChange (js "abc")) = Some chunks.
Proof.
  assert (H : len (js "abc") <= 15) by (vm_compute; discriminate).
  split; [exact H |]. apply (onChange_positive (js "abc") (js "some text") H).
Defined.

(** ** Typing the displayed value back *)

Lemma parse_digits_string_of_uint (d : Decimal.uint) : forall acc : nat,
  parse_digits 10 (Some (Z.of_nat acc)) (js (DecimalString.NilEmpty.string_of_uint d)) =
  Some (Z.of_nat (Nat.of_uint_acc d acc)).
Proof.
  induction d; intro acc; simpl;
    try reflexivity;
    rewrite Nat.tail_mul_spec;
    match goal with
    | |- parse_digits 10 (Some ?x) _ = Some (Z.of_nat (Nat.of_uint_acc _ ?y)) =>
        replace x with (Z.of_nat y) by lia
    end;
    apply IHd.
Qed.

Lemma digit_not_space (c : code_unit) : is_digit c -> is_space c = false.
Proof.
  unfold is_digit, is_space. intro H.
  assert (E1 : (c <=? 13)%N = false) by (apply N.leb_gt; lia).
  assert (E2 : (8192 <=? c)%N = false) by (apply N.leb_gt; lia).
  assert (E3 : forall k, (57 < k)%N \/ (k < 48)%N -> (c =? k)%N = false)
    by (intros k Hk; apply N.eqb_neq; lia).
  rewrite E1, E2, !E3 by lia. rewrite andb_false_r. reflexivity.
Qed.

Lemma decimal_head_digit (n : nat) :
  exists c r, decimal n = c :: r /\ is_digit c /\ Forall is_digit r.
Proof.
  pose proof (decimal_digits n) as H. pose proof (decimal_not_nil n) as Hne.
  destruct (decimal n) as [| c r]; [congruence |].
  inversion H; subst. exists c, r. auto.
Qed.

Lemma parse_digits_none_some (s : jsstr) (c : code_unit) :
  is_digit c ->
  parse_digits 10 None (c :: s) = parse_digits 10 (Some 0) (c :: s).
Proof.
  intro Hc. simpl.
  assert (E : digit_value 10 c = Some (Z.of_N c - 48)).
  { unfold digit_value, is_digit in *.
    destruct (N.leb_spec 48 c) as [_ | H]; [| lia].
    destruct (N.leb_spec c 57) as [_ | H]; [| lia].
    simpl. destruct (Z.ltb_spec (Z.of_N c - 48) 10) as [_ | H]; [reflexivity | lia]. }
  rewrite E. reflexivity.
Qed.

(** [parseInt] reads the decimal digits of a number back. *)
Lemma parseInt_decimal (n : nat) : parseInt (decimal n) = Some (Z.of_nat n).
Proof.
  destruct (decimal_head_digit n) as [c [r [E [Hc Hr]]]].
  assert (Hv : parse_digits 10 None (decimal n) = Some (Z.of_nat n)).
  { rewrite E, (parse_digits_none_some r c Hc), <- E. unfold decimal.
    etransitivity; [exact (parse_digits_string_of_uint (Nat.to_uint n) 0) |].
    change (Nat.of_uint_acc (Nat.to_uint n) 0) with (Nat.of_uint (Nat.to_uint n)).
    rewrite DecimalNat.Unsigned.of_to. reflexivity. }
  assert (Hsp : is_space c = false) by (apply digit_not_space; exact Hc).
  unfold is_digit in Hc.
  assert (H45 : (c =? 45)%N = false) by (apply N.eqb_neq; lia).
  assert (H43 : (c =? 43)%N = false) by (apply N.eqb_neq; lia).
  assert (Hx : forall c1, is_digit c1 ->
             ((c =? 48) && ((c1 =? 120) || (c1 =? 88)))%N = false).
  { intros c1 Hc1. unfold is_digit in Hc1.
    assert (E1 : (c1 =? 120)%N = false) by (apply N.eqb_neq; lia).
    assert (E2 : (c1 =? 88)%N = false) by (apply N.eqb_neq; lia).
    rewrite E1, E2. apply andb_false_r. }
  unfold parseInt. rewrite E. cbn [drop_space]. rewrite Hsp, H45, H43.
  destruct r as [| c1 r'].
  - rewrite <- E, Hv. f_equal. lia.
  - inversion Hr as [| ? ? Hc1 _]; subst. rewrite (Hx c1 Hc1).
    rewrite <- E, Hv. f_equal. lia.
Qed.

(** The text field shows the setting in decimal; typing that text back
    gives the same setting, for every setting that is an integer of at
    least 1 and below [2^53]. *)
Theorem onChange_displayed_value (n : nat) :
  1 <= Z.of_nat n < 2 ^ 53 -> onChange (decimal n) = Z.of_nat n.
Proof.
  intro H. unfold onChange. rewrite parseInt_decimal.
  destruct (Z.of_nat n >? 0) eqn:E; [reflexivity |].
  rewrite Z.gtb_ltb in E. apply Z.ltb_ge in E. lia.
Qed.

(** The theorem at the default setting. *)
Lemma onChange_displayed_value_witness :
  1 <= Z.of_nat 250 < 2 ^ 53 /\ onChange (decimal 250) = Z.of_nat 250.
Proof.
  assert (H : 1 <= Z.of_nat 250 < 2 ^ 53) by (split; [lia | reflexivity]).
  split; [exact H |]. apply (onChange_displayed_value 250 H).
Defined.

(** * Properties of the content cleaner *)

Example cleanContent_samples :
  cleanContent (js "# Title") = js "Title" /\
  cleanContent (js "a **bold** and __bold__ b") = js "a bold and bold b" /\
  cleanContent (js "an *it* and _it_ x") = js "an it and it x" /\
  cleanContent (js "run `code` now") = js "run code now" /\
  cleanContent (js "~~gone~~ kept") = js "gone kept" /\
  cleanContent (js "see [the docs](http://x.y/z) here") = js "see the docs here" /\
  cleanContent (js "---" ++ [10%N] ++ js "a: 1" ++ [10%N] ++ js "---" ++ [10%N] ++ js "Body")
    = js "Body" /\
  cleanContent (js "snake_case and other_name") = js "snakecase and othername" /\
  cleanContent (js "2 * 3 * 4") = js "2  3  4" /\
  cleanContent (js "a #tag") = js "a #tag".
Proof. vm_compute. repeat split; reflexivity. Qed.

(** ** Text without markup is left as it is *)

Lemma replace_all_no_match (r : regex) (tpl : list titem) (starts : list code_unit) :
  (forall prev rest, head_not_in starts rest -> exec r prev rest = None) ->
  forall s prev, Forall (fun c => ~ In c starts) s ->
  replace_all r tpl 0 prev s = s.
Proof.
  intros Hdead. induction s as [| c s IH]; intros prev Hs.
  - simpl. rewrite Hdead by exact I. reflexivity.
  - inversion Hs as [| ? ? Hc Hs']; subst. simpl.
    rewrite Hdead by exact Hc. rewrite IH by exact Hs'. reflexivity.
Qed.

Lemma eqb_not_in (c x : code_unit) (starts : list code_unit) :
  ~ In c starts -> In x starts -> (c =? x)%N = false.
Proof. intros Hc Hx. apply N.eqb_neq. intros ->. contradiction. Qed.

Lemma exec_heading_dead (prev : option code_unit) (rest : jsstr) :
  head_not_in [35%N] rest -> exec heading prev rest = None.
Proof.
  intro H. unfold exec, heading. simpl.
  assert (E : rep (is_char 35%N) true 1 prev rest (fun _ => None)
                (fun st1 => rep is_space true 1 (m_prev st1) (m_rest st1)
                              (m_caps st1) Some) = None).
  { destruct rest as [| c rest]; [reflexivity |]. simpl.
    unfold is_char. rewrite (eqb_not_in c 35%N [35%N] H) by (simpl; tauto).
    reflexivity. }
  destruct prev as [p |]; [| exact E].
  destruct (is_line_terminator p); [exact E | reflexivity].
Qed.

Lemma exec_bold_dead (prev : option code_unit) (rest : jsstr) :
  head_not_in [42%N; 95%N] rest -> exec bold prev rest = None.
Proof.
  intro H. unfold exec, bold. destruct rest as [| c rest]; [reflexivity |].
  simpl.
  rewrite (eqb_not_in c 42%N _ H) by (simpl; tauto).
  rewrite (eqb_not_in c 95%N _ H) by (simpl; tauto).
  reflexivity.
Qed.

Lemma exec_italic_dead (prev : option code_unit) (rest : jsstr) :
  head_not_in [42%N; 95%N] rest -> exec italic prev rest = None.
Proof.
  intro H. unfold exec, italic. destruct rest as [| c rest]; [reflexivity |].
  simpl.
  rewrite (eqb_not_in c 42%N _ H) by (simpl; tauto).
  rewrite (eqb_not_in c 95%N _ H) by (simpl; tauto).
  reflexivity.
Qed.

Lemma exec_inline_code_dead (prev : option code_unit) (rest : jsstr) :
  head_not_in [96%N] rest -> exec inline_code prev rest = None.
Proof.
  intro H. unfold exec, inline_code. destruct rest as [| c rest]; [reflexivity |].
  simpl.
  rewrite (eqb_not_in c 96%N _ H) by (simpl; tauto). reflexivity.
Qed.

Lemma exec_strikethrough_dead (prev : option code_unit) (rest : jsstr) :
  head_not_in [126%N] rest -> exec strikethrough prev rest = None.
Proof.
  intro H. unfold exec, strikethrough. destruct rest as [| c rest]; [reflexivity |].
  simpl.
  rewrite (eqb_not_in c 126%N _ H) by (simpl; tauto). reflexivity.
Qed.

Lemma exec_link_dead (prev : option code_unit) (rest : jsstr) :
  head_not_in [91%N] rest -> exec link prev rest = None.
Proof.
  intro H. unfold exec, link. destruct rest as [| c rest]; [reflexivity |].
  simpl.
  rewrite (eqb_not_in c 91%N _ H) by (simpl; tauto). reflexivity.
Qed.

(** The front matter pattern only matches at the start of the text, and
    only a text that starts with three hyphens. *)
Lemma replace_first_front_matter_inside (tpl : list titem) (s : jsstr) :
  forall c, replace_first front_matter tpl (Some c) s = s.
Proof.
  induction s as [| x s IH]; intro c; [reflexivity |].
  simpl. rewrite IH. reflexivity.
Qed.

Lemma replace_first_front_matter_none (tpl : list titem) (s : jsstr) :
  firstn 3 s <> js "---" -> replace_first front_matter tpl None s = s.
Proof.
  intro H.
  assert (E : exec front_matter None s = None).
  { unfold exec, front_matter. simpl.
    destruct s as [| a [| b [| c s]]]; simpl; try reflexivity;
      destruct (N.eqb_spec a 45) as [-> |]; try reflexivity;
      destruct (N.eqb_spec b 45) as [-> |]; try reflexivity;
      destruct (N.eqb_spec c 45) as [-> |]; try reflexivity.
    exfalso. apply H. reflexivity. }
  destruct s as [| c s]; [reflexivity |].
  change (replace_first front_matter tpl None (c :: s))
    with (match exec front_matter None (c :: s) with
          | Some st => substitute tpl (m_caps st) ++ m_rest st
          | None => c :: replace_first front_matter tpl (Some c) s
          end).
  rewrite E, replace_first_front_matter_inside. reflexivity.
Qed.

Lemma markup_free_not_in (s : jsstr) (starts : list code_unit) :
  markup_free s -> Forall (fun x => is_markup x = true) starts ->
  Forall (fun c => ~ In c starts) s.
Proof.
  intros Hs Hst. eapply Forall_impl; [| exact Hs].
  intros c Hc Hin. rewrite Forall_forall in Hst. simpl in Hc.
  rewrite (Hst c Hin) in Hc. discriminate.
Qed.

(** The six global patterns leave a text without markup characters as it
    is. *)
Lemma global_patterns_plain (s : jsstr) :
  markup_free s ->
  replace_all link [TGroup 1] 0 None
    (replace_all strikethrough [TGroup 1] 0 None
       (replace_all inline_code [TGroup 1] 0 None
          (replace_all italic [TGroup 2] 0 None
             (replace_all bold [TGroup 2] 0 None
                (replace_all heading [] 0 None s))))) = s.
Proof.
  intro H.
  rewrite (replace_all_no_match heading _ [35%N] exec_heading_dead)
    by (apply markup_free_not_in; [exact H | repeat constructor]).
  rewrite (replace_all_no_match bold _ [42%N; 95%N] exec_bold_dead)
    by (apply markup_free_not_in; [exact H | repeat constructor]).
  rewrite (replace_all_no_match italic _ [42%N; 95%N] exec_italic_dead)
    by (apply markup_free_not_in; [exact H | repeat constructor]).
  rewrite (replace_all_no_match inline_code _ [96%N] exec_inline_code_dead)
    by (apply markup_free_not_in; [exact H | repeat constructor]).
  rewrite (replace_all_no_match strikethrough _ [126%N] exec_strikethrough_dead)
    by (apply markup_free_not_in; [exact H | repeat constructor]).
  apply (replace_all_no_match link _ [91%N] exec_link_dead).
  apply markup_free_not_in; [exact H | repeat constructor].
Qed.

(** A text that holds none of [#], [*], [_], backtick, [~] and the opening
    bracket and does not start with three hyphens comes out of
    [cleanContent] unchanged. *)
Theorem cleanContent_plain_text (content : jsstr) :
  markup_free content -> firstn 3 content <> js "---" ->
  cleanContent content = content.
Proof.
  intros H Hf. unfold cleanContent.
  rewrite replace_first_front_matter_none by exact Hf.
  apply global_patterns_plain. exact H.
Qed.

(** The theorem at a sentence with a list hyphen and punctuation. *)
Lemma cleanContent_plain_text_witness :
  markup_free (js "- Plain text, with (brackets) & more.") /\
  firstn 3 (js "- Plain text, with (brackets) & more.") <> js "---" /\
  cleanContent (js "- Plain text, with (brackets) & more.") =
    js "- Plain text, with (brackets) & more.".
Proof.
  assert (H : markup_free (js "- Plain text, with (brackets) & more."))
    by (apply Forall_forall; intros c Hc; vm_compute in Hc;
        repeat (destruct Hc as [<- | Hc]; [reflexivity |]); destruct Hc).
  assert (Hf : firstn 3 (js "- Plain text, with (brackets) & more.") <> js "---")
    by (vm_compute; discriminate).
  split; [exact H |]. split; [exact Hf |].
  apply (cleanContent_plain_text _ H Hf).
Defined.

(** ** Cleaning never lengthens the text *)

Lemma cap_bound_refl (st : mstate) : cap_bound st st.
Proof. split; [lia | intro i; left; reflexivity]. Qed.

Lemma cap_bound_trans (a b c : mstate) :
  cap_bound a b -> cap_bound b c -> cap_bound a c.
Proof.
  intros [Hab Cab] [Hbc Cbc]. split; [lia |].
  intro i. destruct (Cbc i) as [E | [s [E Hs]]].
  - rewrite E. destruct (Cab i) as [E' | [s [E' Hs]]].
    + left. exact E'.
    + right. exists s. split; [exact E' | lia].
  - right. exists s. split; [exact E | lia].
Qed.

Lemma rep_bound (p : code_unit -> bool) (greedy : bool) (caps : nat -> option jsstr)
    (k : mstate -> option mstate) (res : mstate) (rest : jsstr) :
  forall min prev,
  rep p greedy min prev rest caps k = Some res ->
  exists st1, k st1 = Some res /\
              (length (m_rest st1) <= length rest)%nat /\ m_caps st1 = caps.
Proof.
  induction rest as [| c rest IH]; intros min prev H.
  - simpl in H. destruct greedy, min; try discriminate;
      (destruct (k (mkM prev [] caps)) eqn:E; [| discriminate]);
      injection H as <-; eexists; (split; [exact E | split; [simpl; lia | reflexivity]]).
  - assert (Hmore : (if p c then rep p greedy (pred min) (Some c) rest caps k
                     else None) = Some res ->
                    exists st1, k st1 = Some res /\
                      (length (m_rest st1) <= length (c :: rest))%nat /\
                      m_caps st1 = caps).
    { intro Hm. destruct (p c); [| discriminate].
      destruct (IH _ _ Hm) as [st1 [E [Hl Hc]]].
      exists st1. split; [exact E | split; [simpl; lia | exact Hc]]. }
    assert (Hstop : match min with
                    | O => k (mkM prev (c :: rest) caps)
                    | S _ => None
                    end = Some res ->
                    exists st1, k st1 = Some res /\
                      (length (m_rest st1) <= length (c :: rest))%nat /\
                      m_caps st1 = caps).
    { intro Hs. destruct min; [| discriminate].
      eexists. split; [exact Hs | split; [simpl; lia | reflexivity]]. }
    simpl in H. destruct greedy.
    + destruct (if p c then rep p true (pred min) (Some c) rest caps k else None)
        as [r1 |] eqn:E1.
      * injection H as <-. apply Hmore. reflexivity.
      * apply Hstop. exact H.
    + destruct (match min with
                | O => k (mkM prev (c :: rest) caps)
                | S _ => None
                end) as [r1 |] eqn:E1.
      * injection H as <-. apply Hstop. reflexivity.
      * apply Hmore. exact H.
Qed.

Lemma strip_prefix_length (s : jsstr) : forall rest prev prev' rest',
  strip_prefix s rest prev = Some (prev', rest') ->
  (length rest' <= length rest)%nat.
Proof.
  induction s as [| c s IH]; intros rest prev prev' rest' H; simpl in H.
  - injection H as _ <-. lia.
  - destruct rest as [| x rest]; [discriminate |].
    destruct (x =? c)%N; [| discriminate].
    apply IH in H. simpl. lia.
Qed.

(** A match that succeeds has called its continuation on a state
    [cap_bound] relates to the state it started from. *)
Lemma mtch_bound (r : regex) : forall st k res,
  mtch r st k = Some res ->
  exists st1, k st1 = Some res /\ cap_bound st st1.
Proof.
  induction r as [| c | p | min greedy p | r1 IH1 r2 IH2 | r1 IH1 r2 IH2
                  | i r1 IH1 | i | multiline];
    intros st k res H; simpl in H.
  - exists st. split; [exact H | apply cap_bound_refl].
  - destruct (m_rest st) as [| x rest'] eqn:Er; [discriminate |].
    destruct (x =? c)%N; [| discriminate].
    eexists. split; [exact H |]. split; simpl; [rewrite Er; simpl; lia |].
    intro j. left. reflexivity.
  - destruct (m_rest st) as [| x rest'] eqn:Er; [discriminate |].
    destruct (p x); [| discriminate].
    eexists. split; [exact H |]. split; simpl; [rewrite Er; simpl; lia |].
    intro j. left. reflexivity.
  - destruct (rep_bound _ _ _ _ _ _ _ _ H) as [st1 [E [Hl Hc]]].
    exists st1. split; [exact E |]. split; [exact Hl |].
    intro j. left. rewrite Hc. reflexivity.
  - destruct (IH1 _ _ _ H) as [st1 [E1 B1]].
    destruct (IH2 _ _ _ E1) as [st2 [E2 B2]].
    exists st2. split; [exact E2 | eapply cap_bound_trans; eauto].
  - destruct (mtch r1 st k) as [r' |] eqn:E1.
    + injection H as <-. apply IH1. exact E1.
    + apply IH2. exact H.
  - destruct (IH1 _ _ _ H) as [st1 [E1 [Hl Hc]]].
    eexists. split; [exact E1 |]. split; [exact Hl |]. simpl.
    intro j. unfold set_cap. destruct (Nat.eqb j i).
    + right. eexists. split; [reflexivity |].
      unfold consumed. rewrite length_firstn. lia.
    + apply Hc.
  - destruct (m_caps st i) as [s |].
    + destruct (strip_prefix s (m_rest st) (m_prev st)) as [[prev' rest'] |] eqn:Es;
        [| discriminate].
      apply strip_prefix_length in Es.
      eexists. split; [exact H |]. split; [exact Es |].
      intro j. left. reflexivity.
    + exists st. split; [exact H | apply cap_bound_refl].
  - destruct (m_prev st) as [c |].
    + destruct (multiline && is_line_terminator c); [| discriminate].
      exists st. split; [exact H | apply cap_bound_refl].
    + exists st. split; [exact H | apply cap_bound_refl].
Qed.

(** After a successful attempt the rest is a part of the text and every
    capture fits in what was matched. *)
Lemma exec_bound (r : regex) (prev : option code_unit) (s : jsstr) (st : mstate) :
  exec r prev s = Some st ->
  (length (m_rest st) <= length s)%nat /\
  forall i v, m_caps st i = Some v ->
              (length v + length (m_rest st) <= length s)%nat.
Proof.
  unfold exec. intro H.
  destruct (mtch_bound r _ _ _ H) as [st1 [E [Hl Hc]]].
  injection E as ->. simpl in Hl, Hc. split; [exact Hl |].
  intros i v Hv. destruct (Hc i) as [E | [s' [E Hs]]].
  - rewrite Hv in E. discriminate.
  - rewrite Hv in E. injection E as <-. exact Hs.
Qed.

Lemma substitute_length (r : regex) (tpl : list titem) (prev : option code_unit)
    (s : jsstr) (st : mstate) :
  one_group tpl -> exec r prev s = Some st ->
  (length (substitute tpl (m_caps st)) + length (m_rest st) <= length s)%nat.
Proof.
  intros Ht H. destruct (exec_bound r prev s st H) as [Hl Hc].
  destruct Ht as [-> | [i ->]]; simpl; [lia |].
  destruct (m_caps st i) as [v |] eqn:Ev; simpl; [| lia].
  rewrite app_nil_r. apply (Hc i v Ev).
Qed.

Lemma replace_all_length (r : regex) (tpl : list titem) :
  one_group tpl ->
  forall s skip prev,
  (length (replace_all r tpl skip prev s) <= length s - skip)%nat.
Proof.
  intro Ht. induction s as [| c s IH]; intros skip prev.
  - destruct skip as [| n]; simpl; [| lia].
    destruct (exec r prev []) as [st |] eqn:E; simpl; [| lia].
    pose proof (substitute_length r tpl prev [] st Ht E) as Hs.
    rewrite app_nil_r. simpl in Hs. lia.
  - destruct skip as [| n].
    + change (replace_all r tpl 0 prev (c :: s))
        with (match exec r prev (c :: s) with
              | Some st =>
                  substitute tpl (m_caps st) ++
                  match (length (c :: s) - length (m_rest st))%nat with
                  | O => c :: replace_all r tpl 0 (Some c) s
                  | S n => replace_all r tpl n (Some c) s
                  end
              | None => c :: replace_all r tpl 0 (Some c) s
              end).
      destruct (exec r prev (c :: s)) as [st |] eqn:E.
      * pose proof (substitute_length r tpl prev (c :: s) st Ht E) as Hs.
        destruct (exec_bound r prev (c :: s) st E) as [Hl _].
        rewrite length_app.
        destruct (length (c :: s) - length (m_rest st))%nat as [| n] eqn:En.
        -- specialize (IH 0%nat (Some c)). simpl length in *. lia.
        -- specialize (IH n (Some c)). simpl length in *. lia.
      * specialize (IH 0%nat (Some c)). simpl length in *. lia.
    + simpl. specialize (IH n (Some c)). lia.
Qed.

Lemma replace_first_length (r : regex) (tpl : list titem) :
  one_group tpl ->
  forall s prev, (length (replace_first r tpl prev s) <= length s)%nat.
Proof.
  intro Ht. induction s as [| c s IH]; intro prev.
  - simpl. destruct (exec r prev []) as [st |] eqn:E; simpl; [| lia].
    pose proof (substitute_length r tpl prev [] st Ht E) as Hs.
    rewrite length_app. simpl in Hs. lia.
  - change (replace_first r tpl prev (c :: s))
      with (match exec r prev (c :: s) with
            | Some st => substitute tpl (m_caps st) ++ m_rest st
            | None => c :: replace_first r tpl (Some c) s
            end).
    destruct (exec r prev (c :: s)) as [st |] eqn:E.
    + pose proof (substitute_length r tpl prev (c :: s) st Ht E) as Hs.
      rewrite length_app. lia.
    + specialize (IH (Some c)). simpl length. lia.
Qed.

(** The cleaned content is never longer than the content: every
    replacement is empty or a capture of the match it replaces. *)
Theorem cleanContent_not_longer (content : jsstr) :
  len (cleanContent content) <= len content.
Proof.
  unfold cleanContent, len.
  assert (H0 : one_group []) by (left; reflexivity).
  assert (H1 : forall i, one_group [TGroup i]) by (intro i; right; exists i; reflexivity).
  pose proof (replace_first_length front_matter [] H0 content None) as A1.
  set (c1 := replace_first front_matter [] None content) in *.
  pose proof (replace_all_length heading [] H0 c1 0%nat None) as A2.
  set (c2 := replace_all heading [] 0 None c1) in *.
  pose proof (replace_all_length bold _ (H1 2%nat) c2 0%nat None) as A3.
  set (c3 := replace_all bold [TGroup 2] 0 None c2) in *.
  pose proof (replace_all_length italic _ (H1 2%nat) c3 0%nat None) as A4.
  set (c4 := replace_all italic [TGroup 2] 0 None c3) in *.
  pose proof (replace_all_length inline_code _ (H1 1%nat) c4 0%nat None) as A5.
  set (c5 := replace_all inline_code [TGroup 1] 0 None c4) in *.
  pose proof (replace_all_length strikethrough _ (H1 1%nat) c5 0%nat None) as A6.
  set (c6 := replace_all strikethrough [TGroup 1] 0 None c5) in *.
  pose proof (replace_all_length link _ (H1 1%nat) c6 0%nat None) as A7.
  lia.
Qed.

(** ** How the quantifiers and the literals match *)

Lemma rep_unfold (p : code_unit -> bool) (greedy : bool) (min : nat)
    (prev : option code_unit) (rest : jsstr) (caps : nat -> option jsstr)
    (k : mstate -> option mstate) :
  rep p greedy min prev rest caps k =
  if greedy then
    match
      match rest with
      | c :: rest' =>
          if p c then rep p greedy (pred min) (Some c) rest' caps k else None
      | [] => None
      end
    with
    | Some res => Some res
    | None => match min with O => k (mkM prev rest caps) | S _ => None end
    end
  else
    match match min with O => k (mkM prev rest caps) | S _ => None end with
    | Some res => Some res
    | None =>
        match rest with
        | c :: rest' =>
            if p c then rep p greedy (pred min) (Some c) rest' caps k else None
        | [] => None
        end
    end.
Proof. destruct rest; reflexivity. Qed.

(** A greedy quantifier reads a whole run of the class when the
    continuation succeeds after it. *)
Lemma rep_greedy_run (p : code_unit -> bool) (caps : nat -> option jsstr)
    (k : mstate -> option mstate) (res : mstate) (tail : jsstr) (run : jsstr) :
  forall prev min,
  Forall (fun c => p c = true) run ->
  match tail with [] => True | x :: _ => p x = false end ->
  (min <= length run)%nat ->
  k (mkM (after_run prev run) tail caps) = Some res ->
  rep p true min prev (run ++ tail) caps k = Some res.
Proof.
  induction run as [| c run IH]; intros prev min Hrun Htail Hmin Hk.
  - simpl app. simpl in Hk, Hmin. rewrite rep_unfold.
    assert (min = 0%nat) by lia. subst min.
    destruct tail as [| x tail]; [exact Hk |].
    rewrite Htail. exact Hk.
  - inversion Hrun as [| ? ? Hc Hrun']; subst. simpl in Hc.
    rewrite rep_unfold. simpl app. cbv beta iota. rewrite Hc.
    rewrite (IH (Some c) (pred min) Hrun' Htail); [reflexivity | simpl in Hmin; lia |].
    exact Hk.
Qed.

(** A lazy quantifier reads a run of the class up to the first point where
    the continuation succeeds. *)
Lemma rep_lazy_run (p : code_unit -> bool) (caps : nat -> option jsstr)
    (k : mstate -> option mstate) (res : mstate) (tail : jsstr) (run : jsstr) :
  forall prev min,
  Forall (fun c => p c = true) run ->
  (forall a b, run = a ++ b -> b <> [] -> (min <= length a)%nat ->
     k (mkM (after_run prev a) (b ++ tail) caps) = None) ->
  (min <= length run)%nat ->
  k (mkM (after_run prev run) tail caps) = Some res ->
  rep p false min prev (run ++ tail) caps k = Some res.
Proof.
  induction run as [| c run IH]; intros prev min Hrun Hfail Hmin Hk.
  - simpl app. simpl in Hk, Hmin. rewrite rep_unfold.
    assert (min = 0%nat) by lia. subst min. rewrite Hk. reflexivity.
  - inversion Hrun as [| ? ? Hc Hrun']; subst. simpl in Hc.
    rewrite rep_unfold. cbv beta iota.
    assert (Hstop : match min with
                    | O => k (mkM prev ((c :: run) ++ tail) caps)
                    | S _ => None
                    end = None).
    { destruct min; [| reflexivity].
      apply (Hfail [] (c :: run)); [reflexivity | discriminate | simpl; lia]. }
    rewrite Hstop. simpl app. cbv beta iota. rewrite Hc.
    apply IH; trivial.
    + intros a b E Hb Ha. apply (Hfail (c :: a) b); [rewrite E; reflexivity | exact Hb |].
      simpl. lia.
    + simpl in Hmin. lia.
Qed.

Lemma lit_cons (c : ascii) (s : string) :
  lit (String c s) = Seq (Lit (N_of_ascii c)) (lit s).
Proof. reflexivity. Qed.

(** A literal text matches when the input starts with it. *)
Lemma mtch_lit (s : string) : forall st k,
  mtch (lit s) st k =
  match strip_prefix (js s) (m_rest st) (m_prev st) with
  | Some (prev', rest') => k (mkM prev' rest' (m_caps st))
  | None => None
  end.
Proof.
  induction s as [| c s IH]; intros st k.
  - destruct st. reflexivity.
  - rewrite lit_cons. simpl mtch.
    change (js (String c s)) with (N_of_ascii c :: js s). simpl strip_prefix.
    destruct (m_rest st) as [| x rest']; [reflexivity |].
    destruct (x =? N_of_ascii c)%N; [| reflexivity].
    rewrite IH. reflexivity.
Qed.

Lemma strip_prefix_app (p : jsstr) : forall rest prev,
  strip_prefix p (p ++ rest) prev = Some (after_run prev p, rest).
Proof.
  induction p as [| c p IH]; intros rest prev; [reflexivity |].
  simpl. rewrite N.eqb_refl. apply IH.
Qed.

Lemma strip_prefix_prev (p : jsstr) : forall s prev prev',
  strip_prefix p s prev = None -> strip_prefix p s prev' = None.
Proof.
  induction p as [| c p IH]; intros s prev prev' H; [discriminate |].
  simpl in *. destruct s as [| x s]; [reflexivity |].
  destruct (x =? c)%N; [eapply IH; exact H | reflexivity].
Qed.

Lemma starts_with_false (p s : jsstr) (prev : option code_unit) :
  starts_with p s = false -> strip_prefix p s prev = None.
Proof.
  unfold starts_with. intro H.
  destruct (strip_prefix p s None) eqn:E; [discriminate |].
  eapply strip_prefix_prev. exact E.
Qed.

Lemma starts_with_app (p : jsstr) : forall x y,
  (length p <= length x)%nat -> starts_with p (x ++ y) = starts_with p x.
Proof.
  unfold starts_with.
  assert (H : forall p x y prev, (length p <= length x)%nat ->
            match strip_prefix p (x ++ y) prev with Some _ => true | None => false end =
            match strip_prefix p x prev with Some _ => true | None => false end).
  { clear p. induction p as [| c p IH]; intros x y prev Hl; [reflexivity |].
    destruct x as [| a x]; [simpl in Hl; lia |].
    simpl. destruct (a =? c)%N; [| reflexivity].
    apply IH. simpl in Hl. lia. }
  intros x y Hl. apply H. exact Hl.
Qed.

(** A text that starts with a character other than the first of [p] does
    not start with [p]. *)
Lemma starts_with_head (p : jsstr) (c x : code_unit) (s : jsstr) :
  x <> c -> starts_with (c :: p) (x :: s) = false.
Proof.
  intro H. unfold starts_with. simpl.
  destruct (N.eqb_spec x c); [contradiction | reflexivity].
Qed.

(** ** How a global replacement walks over the text *)

Lemma after_run_app (prev : option code_unit) (a b : jsstr) :
  after_run prev (a ++ b) = after_run (after_run prev a) b.
Proof. apply fold_left_app. Qed.

(** Characters at which every attempt fails are copied. *)
Lemma replace_all_copy (r : regex) (tpl : list titem) (pre : jsstr) :
  forall s prev,
  (forall a b, pre = a ++ b -> b <> [] ->
     exec r (after_run prev a) (b ++ s) = None) ->
  replace_all r tpl 0 prev (pre ++ s) =
  pre ++ replace_all r tpl 0 (after_run prev pre) s.
Proof.
  induction pre as [| c pre IH]; intros s prev H; [reflexivity |].
  change (replace_all r tpl 0 prev ((c :: pre) ++ s))
    with (match exec r prev ((c :: pre) ++ s) with
          | Some st =>
              substitute tpl (m_caps st) ++
              match (length ((c :: pre) ++ s) - length (m_rest st))%nat with
              | O => c :: replace_all r tpl 0 (Some c) (pre ++ s)
              | S n => replace_all r tpl n (Some c) (pre ++ s)
              end
          | None => c :: replace_all r tpl 0 (Some c) (pre ++ s)
          end).
  assert (H0 : exec r prev ((c :: pre) ++ s) = None)
    by (apply (H [] (c :: pre)); [reflexivity | discriminate]).
  rewrite H0. rewrite IH; [reflexivity |].
  intros a b E Hb. apply (H (c :: a) b); [rewrite E; reflexivity | exact Hb].
Qed.

Lemma replace_all_skip (r : regex) (tpl : list titem) (x : jsstr) :
  forall s prev,
  replace_all r tpl (length x) prev (x ++ s) =
  replace_all r tpl 0 (after_run prev x) s.
Proof.
  induction x as [| c x IH]; intros s prev; [reflexivity |].
  simpl. apply IH.
Qed.

(** A match of [m] at the current position is replaced, and the search
    goes on after it. *)
Lemma replace_all_match (r : regex) (tpl : list titem) (prev : option code_unit)
    (m s : jsstr) (st : mstate) :
  m <> [] -> exec r prev (m ++ s) = Some st -> m_rest st = s ->
  replace_all r tpl 0 prev (m ++ s) =
  substitute tpl (m_caps st) ++ replace_all r tpl 0 (after_run prev m) s.
Proof.
  intros Hm He Hr. destruct m as [| c m]; [congruence |].
  change (replace_all r tpl 0 prev ((c :: m) ++ s))
    with (match exec r prev ((c :: m) ++ s) with
          | Some st =>
              substitute tpl (m_caps st) ++
              match (length ((c :: m) ++ s) - length (m_rest st))%nat with
              | O => c :: replace_all r tpl 0 (Some c) (m ++ s)
              | S n => replace_all r tpl n (Some c) (m ++ s)
              end
          | None => c :: replace_all r tpl 0 (Some c) (m ++ s)
          end).
  rewrite He, Hr. f_equal.
  replace (length ((c :: m) ++ s) - length s)%nat with (S (length m))
    by (rewrite length_app; simpl length; lia).
  apply (replace_all_skip r tpl m s (Some c)).
Qed.

Lemma free_of_sub (chars chars' : list code_unit) (s : jsstr) :
  incl chars' chars -> free_of chars s -> free_of chars' s.
Proof.
  intros Hi H. eapply Forall_impl; [| exact H].
  intros c Hc Hin. apply Hc. apply Hi. exact Hin.
Qed.

Lemma free_of_app (chars : list code_unit) (a b : jsstr) :
  free_of chars a -> free_of chars b -> free_of chars (a ++ b).
Proof. intros Ha Hb. apply Forall_app. split; assumption. Qed.

Lemma markup_free_free_of (s : jsstr) :
  markup_free s <-> free_of [35; 42; 95; 96; 126; 91]%N s.
Proof.
  unfold markup_free, free_of. split; intro H; (eapply Forall_impl; [| exact H]);
    intros c Hc; simpl in *.
  - unfold is_markup in Hc. rewrite !orb_false_iff, !N.eqb_neq in Hc.
    intuition congruence.
  - unfold is_markup. rewrite !orb_false_iff, !N.eqb_neq. intuition congruence.
Qed.

(** ** Front matter *)

Lemma starts_with_firstn (s : jsstr) :
  starts_with (js "---") s = false -> firstn 3 s <> js "---".
Proof.
  intros H E. rewrite <- (firstn_skipn 3 s), E in H.
  unfold starts_with in H. rewrite strip_prefix_app in H. discriminate.
Qed.

Lemma strip_prefix_extend (x : code_unit) (s : jsstr) (p : jsstr) :
  ~ In x p -> p <> [] ->
  forall pre prev prev',
  strip_prefix p pre prev = None ->
  strip_prefix p (pre ++ x :: s) prev' = None.
Proof.
  intros Hx. induction p as [| c p IH]; intros Hp pre prev prev' H; [congruence |].
  simpl in *. destruct pre as [| a pre].
  - simpl. destruct (N.eqb_spec x c) as [-> | _]; [| reflexivity].
    exfalso. apply Hx. left. reflexivity.
  - simpl. destruct (a =? c)%N; [| reflexivity].
    destruct p as [| c' p']; [discriminate |].
    eapply IH; [intro Hin; apply Hx; right; exact Hin | discriminate | exact H].
Qed.

(** A text that does not start with [---] still does not after a character
    other than a hyphen is put behind it. *)
Lemma starts_with_extend (pre : jsstr) (x : code_unit) (s : jsstr) :
  starts_with (js "---") pre = false -> x <> 45%N ->
  starts_with (js "---") (pre ++ x :: s) = false.
Proof.
  unfold starts_with. intros H Hx.
  destruct (strip_prefix (js "---") pre None) eqn:E; [discriminate |].
  rewrite (strip_prefix_extend x s (js "---")) with (prev := None);
    [reflexivity | | discriminate | exact E].
  simpl. intuition congruence.
Qed.

Lemma is_space_not (x c : code_unit) :
  is_space x = true -> is_space c = false -> is_char c x = false.
Proof.
  intros Hx Hc. unfold is_char. apply N.eqb_neq. intros ->. congruence.
Qed.

Lemma blank_then_rest (blank rest : jsstr) (prev : option code_unit) (min : nat)
    (caps : nat -> option jsstr) :
  Forall (fun c => is_space c = true) blank -> starts_space rest = false ->
  (min <= length blank)%nat ->
  rep is_space true min prev (blank ++ rest) caps Some =
  Some (mkM (after_run prev blank) rest caps).
Proof.
  intros Hb Hr Hm. apply rep_greedy_run; trivial.
  destruct rest; [exact I | exact Hr].
Qed.

Lemma exec_front_matter (body blank rest : jsstr) :
  body <> [] -> closes_first body ->
  Forall (fun c => is_space c = true) blank -> starts_space rest = false ->
  exists st,
    exec front_matter None (js "---" ++ body ++ js "---" ++ blank ++ rest) = Some st /\
    m_rest st = rest.
Proof.
  intros Hne Hclose Hblank Hrest. eexists. split.
  - unfold exec, front_matter. cbn [mtch m_prev].
    rewrite mtch_lit. cbn [m_rest m_prev m_caps]. rewrite strip_prefix_app.
    cbn [mtch m_rest m_prev m_caps].
    apply rep_lazy_run.
    + apply Forall_forall. reflexivity.
    + intros a b E Hb Ha. rewrite mtch_lit. cbn [m_rest m_prev m_caps].
      rewrite starts_with_false; [reflexivity |].
      rewrite app_assoc, starts_with_app
        by (rewrite length_app; simpl; lia).
      apply (Hclose a b E); [| exact Hb].
      intro En. subst a. simpl in Ha. lia.
    + destruct body; [congruence | simpl; lia].
    + rewrite mtch_lit. cbn [m_rest m_prev m_caps]. rewrite strip_prefix_app.
      cbn [mtch m_rest m_prev m_caps].
      apply blank_then_rest; [exact Hblank | exact Hrest | lia].
  - reflexivity.
Qed.

Lemma later_patterns_plain (s : jsstr) :
  markup_free s ->
  replace_all link [TGroup 1] 0 None
    (replace_all strikethrough [TGroup 1] 0 None
       (replace_all inline_code [TGroup 1] 0 None
          (replace_all italic [TGroup 2] 0 None
             (replace_all bold [TGroup 2] 0 None s)))) = s.
Proof.
  intro H.
  rewrite (replace_all_no_match bold _ [42%N; 95%N] exec_bold_dead)
    by (apply markup_free_not_in; [exact H | repeat constructor]).
  rewrite (replace_all_no_match italic _ [42%N; 95%N] exec_italic_dead)
    by (apply markup_free_not_in; [exact H | repeat constructor]).
  rewrite (replace_all_no_match inline_code _ [96%N] exec_inline_code_dead)
    by (apply markup_free_not_in; [exact H | repeat constructor]).
  rewrite (replace_all_no_match strikethrough _ [126%N] exec_strikethrough_dead)
    by (apply markup_free_not_in; [exact H | repeat constructor]).
  apply (replace_all_no_match link _ [91%N] exec_link_dead).
  apply markup_free_not_in; [exact H | repeat constructor].
Qed.

(** A front matter block is removed with the whitespace after it: for a
    content made of [---], a body that is not empty and closes at the first
    [---] after its first character, [---], whitespace, and a text without
    markup that does not start with whitespace, [cleanContent] returns that
    text. *)
Theorem cleanContent_front_matter (body blank rest : jsstr) :
  body <> [] -> closes_first body ->
  Forall (fun c => is_space c = true) blank ->
  starts_space rest = false -> markup_free rest ->
  cleanContent (js "---" ++ body ++ js "---" ++ blank ++ rest) = rest.
Proof.
  intros Hne Hclose Hblank Hs Hrest.
  destruct (exec_front_matter body blank rest Hne Hclose Hblank Hs) as [st [E Er]].
  unfold cleanContent.
  assert (E1 : replace_first front_matter [] None
                 (js "---" ++ body ++ js "---" ++ blank ++ rest) = rest).
  { change (js "---" ++ body ++ js "---" ++ blank ++ rest)
      with (45%N :: (js "--" ++ body ++ js "---" ++ blank ++ rest)) in *.
    cbn [replace_first]. rewrite E, Er. reflexivity. }
  rewrite E1. apply global_patterns_plain. exact Hrest.
Qed.

(** The theorem at a front matter of two lines with hyphens inside. *)
Lemma cleanContent_front_matter_witness :
  [10; 97; 58; 32; 45; 49; 10]%N <> [] /\
  closes_first [10; 97; 58; 32; 45; 49; 10]%N /\
  Forall (fun c => is_space c = true) [10; 10]%N /\
  starts_space (js "Body text.") = false /\ markup_free (js "Body text.") /\
  cleanContent (js "---" ++ [10; 97; 58; 32; 45; 49; 10]%N ++ js "---"
                ++ [10; 10]%N ++ js "Body text.") = js "Body text.".
Proof.
  assert (H1 : [10; 97; 58; 32; 45; 49; 10]%N <> []) by discriminate.
  assert (H2 : closes_first [10; 97; 58; 32; 45; 49; 10]%N).
  { intros a b E Ha Hb. destruct b as [| x b]; [congruence |].
    destruct a as [| a0 a]; [congruence |].
    simpl in E. injection E as _ E.
    do 6 (destruct a as [| ? a]; simpl in E;
          [injection E as <- <-; reflexivity | injection E as _ E]).
    destruct a; discriminate E. }
  assert (H3 : Forall (fun c => is_space c = true) [10; 10]%N)
    by (repeat constructor).
  assert (H5 : markup_free (js "Body text."))
    by (apply Forall_forall; intros c Hc; vm_compute in Hc;
        repeat (destruct Hc as [<- | Hc]; [reflexivity |]); destruct Hc).
  split; [exact H1 |]. split; [exact H2 |]. split; [exact H3 |].
  split; [reflexivity |]. split; [exact H5 |].
  apply (cleanContent_front_matter [10; 97; 58; 32; 45; 49; 10]%N [10; 10]%N
           (js "Body text.") H1 H2 H3 eq_refl H5).
Defined.

(** ** Headings *)

Lemma Forall_split_suffix {A : Type} (P : A -> Prop) (l a b : list A) :
  Forall P l -> l = a ++ b -> Forall P b.
Proof. intros H ->. apply Forall_app in H. apply H. Qed.

(** Over a stretch of text none of whose characters can start a match, a
    global replacement copies the text. *)
Lemma replace_all_copy_free (r : regex) (tpl : list titem) (starts : list code_unit)
    (pre s : jsstr) (prev : option code_unit) :
  (forall prev rest, head_not_in starts rest -> exec r prev rest = None) ->
  free_of starts pre ->
  replace_all r tpl 0 prev (pre ++ s) =
  pre ++ replace_all r tpl 0 (after_run prev pre) s.
Proof.
  intros Hdead Hpre. apply replace_all_copy.
  intros a b E Hb. apply Hdead.
  pose proof (Forall_split_suffix _ _ _ _ Hpre E) as Hbf.
  destruct b as [| x b]; [congruence |]. inversion Hbf; assumption.
Qed.

Lemma exec_heading (prev : option code_unit) (hashes blank rest : jsstr) :
  match prev with None => True | Some c => is_line_terminator c = true end ->
  hashes <> [] -> Forall (fun c => c = 35%N) hashes ->
  blank <> [] -> Forall (fun c => is_space c = true) blank ->
  starts_space rest = false ->
  exists st, exec heading prev (hashes ++ blank ++ rest) = Some st /\
             m_rest st = rest.
Proof.
  intros Hprev Hh Hhash Hb Hblank Hrest. eexists. split.
  - unfold exec, heading. cbn [mtch m_prev m_rest m_caps].
    assert (Hrun : forall p0,
               rep (is_char 35%N) true 1 p0 (hashes ++ blank ++ rest) (fun _ => None)
                 (fun st1 => rep is_space true 1 (m_prev st1) (m_rest st1)
                               (m_caps st1) Some) =
               Some (mkM (after_run (after_run p0 hashes) blank) rest (fun _ => None))).
    { intro p0. apply rep_greedy_run.
      + eapply Forall_impl; [| exact Hhash]. intros c ->. reflexivity.
      + destruct blank as [| x blank]; [congruence |]. simpl.
        inversion Hblank; subst. apply is_space_not; [assumption | reflexivity].
      + destruct hashes; [congruence | simpl; lia].
      + cbn [m_prev m_rest m_caps].
        apply blank_then_rest; [exact Hblank | exact Hrest |].
        destruct blank; [congruence | simpl; lia]. }
    destruct prev as [c |]; [rewrite Hprev; cbn [andb] |]; apply Hrun.
  - reflexivity.
Qed.

Lemma markup_free_app (a b : jsstr) :
  markup_free a -> markup_free b -> markup_free (a ++ b).
Proof. intros Ha Hb. apply Forall_app. split; assumption. Qed.

(** A heading marker at the start of a line is removed with the whitespace
    after it: for markup-free [pre] ending a line (or empty) and not
    starting with [---], one or more [#], one or more whitespace characters
    and a markup-free [rest] that does not start with whitespace,
    [cleanContent] returns [pre ++ rest]. *)
Theorem cleanContent_heading (pre hashes blank rest : jsstr) :
  at_line_start pre -> markup_free pre -> starts_with (js "---") pre = false ->
  hashes <> [] -> Forall (fun c => c = 35%N) hashes ->
  blank <> [] -> Forall (fun c => is_space c = true) blank ->
  starts_space rest = false -> markup_free rest ->
  cleanContent (pre ++ hashes ++ blank ++ rest) = pre ++ rest.
Proof.
  intros Hline Hpre Hfm Hh Hhash Hb Hblank Hs Hrest.
  unfold cleanContent.
  assert (E0 : replace_first front_matter [] None (pre ++ hashes ++ blank ++ rest)
               = pre ++ hashes ++ blank ++ rest).
  { apply replace_first_front_matter_none. apply starts_with_firstn.
    destruct hashes as [| h hashes]; [congruence |].
    inversion Hhash; subst. apply starts_with_extend; [exact Hfm | discriminate]. }
  rewrite E0.
  destruct (exec_heading (after_run None pre) hashes blank rest Hline Hh Hhash Hb
              Hblank Hs) as [st [E Er]].
  assert (E1 : replace_all heading [] 0 None (pre ++ hashes ++ blank ++ rest)
               = pre ++ rest).
  { rewrite (replace_all_copy_free heading [] [35%N] pre _ None exec_heading_dead)
      by (apply markup_free_not_in; [exact Hpre | repeat constructor]).
    f_equal. rewrite app_assoc in E |- *.
    rewrite (replace_all_match heading [] _ (hashes ++ blank) rest st); trivial.
    - simpl substitute. simpl app.
      apply (replace_all_no_match heading _ [35%N] exec_heading_dead).
      apply markup_free_not_in; [exact Hrest | repeat constructor].
    - destruct hashes; [congruence | discriminate]. }
  rewrite E1. apply later_patterns_plain.
  apply markup_free_app; assumption.
Qed.

(** The theorem at a second-level heading on the second line. *)
Lemma cleanContent_heading_witness :
  at_line_start (js "Intro" ++ [10%N]) /\ markup_free (js "Intro" ++ [10%N]) /\
  starts_with (js "---") (js "Intro" ++ [10%N]) = false /\
  js "##" <> [] /\ Forall (fun c => c = 35%N) (js "##") /\
  js " " <> [] /\ Forall (fun c => is_space c = true) (js " ") /\
  starts_space (js "Title") = false /\ markup_free (js "Title") /\
  cleanContent ((js "Intro" ++ [10%N]) ++ js "##" ++ js " " ++ js "Title") =
    (js "Intro" ++ [10%N]) ++ js "Title".
Proof.
  assert (H1 : at_line_start (js "Intro" ++ [10%N])) by reflexivity.
  assert (H2 : markup_free (js "Intro" ++ [10%N])) by (repeat constructor).
  assert (H5 : Forall (fun c => c = 35%N) (js "##")) by (repeat constructor).
  assert (H7 : Forall (fun c => is_space c = true) (js " ")) by (repeat constructor).
  assert (H9 : markup_free (js "Title")) by (repeat constructor).
  split; [exact H1 |]. split; [exact H2 |]. split; [reflexivity |].
  split; [discriminate |]. split; [exact H5 |]. split; [discriminate |].
  split; [exact H7 |]. split; [reflexivity |]. split; [exact H9 |].
  apply (cleanContent_heading (js "Intro" ++ [10%N]) (js "##") (js " ") (js "Title")
           H1 H2 eq_refl ltac:(discriminate) H5 ltac:(discriminate) H7 eq_refl H9).
Defined.

(** ** Links, inline code, strikethrough and bold *)

Lemma consumed_run (prev prev' : option code_unit) (run tail : jsstr)
    (caps caps' : nat -> option jsstr) :
  consumed (mkM prev (run ++ tail) caps) (mkM prev' tail caps') = run.
Proof.
  unfold consumed. cbn [m_rest]. rewrite length_app.
  replace (length run + length tail - length tail)%nat with (length run) by lia.
  rewrite firstn_app, Nat.sub_diag, firstn_all. simpl. apply app_nil_r.
Qed.

Lemma other_than_run (x : code_unit) (run : jsstr) :
  free_of [x] run -> Forall (fun c => other_than x c = true) run.
Proof.
  intro H. eapply Forall_impl; [| exact H]. intros c Hc. simpl in Hc.
  unfold other_than. destruct (N.eqb_spec c x) as [-> |]; [| reflexivity].
  exfalso. apply Hc. left. reflexivity.
Qed.

Lemma exec_link (prev : option code_unit) (text url post : jsstr) :
  text <> [] -> free_of [93%N] text -> url <> [] -> free_of [41%N] url ->
  exists st,
    exec link prev ((91%N :: text ++ 93%N :: 40%N :: url ++ [41%N]) ++ post) = Some st /\
    m_rest st = post /\ m_caps st 1%nat = Some text.
Proof.
  intros Ht Htext Hu Hurl. eexists. split; [| split].
  - unfold exec, link. rewrite <- app_comm_cons. cbn [mtch m_prev m_rest m_caps].
    rewrite N.eqb_refl. rewrite <- !app_assoc.
    apply rep_greedy_run.
    + apply other_than_run. exact Htext.
    + reflexivity.
    + destruct text; [congruence | simpl; lia].
    + cbn [m_prev m_rest m_caps app]. rewrite !N.eqb_refl.
      rewrite <- !app_assoc.
      apply rep_greedy_run.
      * apply other_than_run. exact Hurl.
      * reflexivity.
      * destruct url; [congruence | simpl; lia].
      * cbn [m_prev m_rest m_caps app]. rewrite N.eqb_refl. reflexivity.
  - reflexivity.
  - cbn [m_caps]. unfold set_cap. cbn [Nat.eqb]. f_equal.
    apply (consumed_run _ _ text).
Qed.

(** A link becomes its text: for markup-free [pre] and [post], a text
    without [#], [*], [_], backtick, [~] or closing bracket and a target
    without [#], [*], [_], backtick, [~] or closing parenthesis, both not
    empty, [cleanContent] turns [pre[text](target)post] into
    [pre ++ text ++ post]. *)
Theorem cleanContent_link (pre text url post : jsstr) :
  markup_free pre -> starts_with (js "---") pre = false -> markup_free post ->
  text <> [] -> free_of [35; 42; 95; 96; 126; 91; 93]%N text ->
  url <> [] -> free_of [35; 42; 95; 96; 126; 41]%N url ->
  cleanContent (pre ++ (91%N :: text ++ 93%N :: 40%N :: url ++ [41%N]) ++ post) =
  pre ++ text ++ post.
Proof.
  intros Hpre Hfm Hpost Ht Htext Hu Hurl.
  set (m := 91%N :: text ++ 93%N :: 40%N :: url ++ [41%N]).
  assert (Hpre' := proj1 (markup_free_free_of pre) Hpre).
  assert (Hpost' := proj1 (markup_free_free_of post) Hpost).
  assert (Hfree : free_of [35; 42; 95; 96; 126]%N (pre ++ m ++ post)).
  { apply free_of_app; [eapply free_of_sub; [| exact Hpre']; intros x Hx; simpl in *; tauto |].
    apply free_of_app; [| eapply free_of_sub; [| exact Hpost']; intros x Hx; simpl in *; tauto].
    unfold m. constructor; [simpl; intuition discriminate |].
    apply free_of_app; [eapply free_of_sub; [| exact Htext]; intros x Hx; simpl in *; tauto |].
    constructor; [simpl; intuition discriminate |].
    constructor; [simpl; intuition discriminate |].
    apply free_of_app; [eapply free_of_sub; [| exact Hurl]; intros x Hx; simpl in *; tauto |].
    constructor; [simpl; intuition discriminate | constructor]. }
  unfold cleanContent.
  rewrite replace_first_front_matter_none
    by (apply starts_with_firstn; unfold m; rewrite <- app_comm_cons;
        apply starts_with_extend; [exact Hfm | discriminate]).
  rewrite (replace_all_no_match heading _ [35%N] exec_heading_dead)
    by (eapply free_of_sub; [| exact Hfree]; intros x Hx; simpl in *; tauto).
  rewrite (replace_all_no_match bold _ [42%N; 95%N] exec_bold_dead)
    by (eapply free_of_sub; [| exact Hfree]; intros x Hx; simpl in *; tauto).
  rewrite (replace_all_no_match italic _ [42%N; 95%N] exec_italic_dead)
    by (eapply free_of_sub; [| exact Hfree]; intros x Hx; simpl in *; tauto).
  rewrite (replace_all_no_match inline_code _ [96%N] exec_inline_code_dead)
    by (eapply free_of_sub; [| exact Hfree]; intros x Hx; simpl in *; tauto).
  rewrite (replace_all_no_match strikethrough _ [126%N] exec_strikethrough_dead)
    by (eapply free_of_sub; [| exact Hfree]; intros x Hx; simpl in *; tauto).
  rewrite (replace_all_copy_free link _ [91%N] pre _ None exec_link_dead)
    by (eapply free_of_sub; [| exact Hpre']; intros x Hx; simpl in *; tauto).
  f_equal.
  destruct (exec_link (after_run None pre) text url post Ht
              ltac:(eapply free_of_sub; [| exact Htext]; intros x Hx; simpl in *; tauto)
              Hu
              ltac:(eapply free_of_sub; [| exact Hurl]; intros x Hx; simpl in *; tauto))
    as [st [E [Er Ec]]].
  fold m in E.
  rewrite (replace_all_match link _ _ m post st); trivial; [| discriminate].
  simpl substitute. rewrite Ec, app_nil_r. f_equal.
  apply (replace_all_no_match link _ [91%N] exec_link_dead).
  eapply free_of_sub; [| exact Hpost']. intros x Hx. simpl in *. tauto.
Qed.

(** The theorem at a sentence with one link. *)
Lemma cleanContent_link_witness :
  markup_free (js "see ") /\ starts_with (js "---") (js "see ") = false /\
  markup_free (js " now") /\ js "the docs" <> [] /\
  free_of [35; 42; 95; 96; 126; 91; 93]%N (js "the docs") /\
  js "http://x.y/z" <> [] /\
  free_of [35; 42; 95; 96; 126; 41]%N (js "http://x.y/z") /\
  cleanContent (js "see " ++ (91%N :: js "the docs" ++ 93%N :: 40%N ::
                              js "http://x.y/z" ++ [41%N]) ++ js " now") =
    js "see " ++ js "the docs" ++ js " now".
Proof.
  assert (H1 : markup_free (js "see ")) by (repeat constructor).
  assert (H3 : markup_free (js " now")) by (repeat constructor).
  assert (H5 : free_of [35; 42; 95; 96; 126; 91; 93]%N (js "the docs"))
    by (repeat constructor; simpl; intuition discriminate).
  assert (H7 : free_of [35; 42; 95; 96; 126; 41]%N (js "http://x.y/z"))
    by (repeat constructor; simpl; intuition discriminate).
  split; [exact H1 |]. split; [reflexivity |]. split; [exact H3 |].
  split; [discriminate |]. split; [exact H5 |]. split; [discriminate |].
  split; [exact H7 |].
  apply (cleanContent_link (js "see ") (js "the docs") (js "http://x.y/z") (js " now")
           H1 eq_refl H3 ltac:(discriminate) H5 ltac:(discriminate) H7).
Defined.

Ltac sub_free H := eapply free_of_sub; [| exact H]; intros ? ?; simpl in *; tauto.

Lemma exec_inline_code (prev : option code_unit) (code post : jsstr) :
  code <> [] -> free_of [96%N] code ->
  exists st,
    exec inline_code prev ((96%N :: code ++ [96%N]) ++ post) = Some st /\
    m_rest st = post /\ m_caps st 1%nat = Some code.
Proof.
  intros Hc Hcode. eexists. split; [| split].
  - unfold exec, inline_code. rewrite <- app_comm_cons.
    cbn [mtch m_prev m_rest m_caps]. rewrite N.eqb_refl. rewrite <- !app_assoc.
    apply rep_greedy_run.
    + apply other_than_run. exact Hcode.
    + reflexivity.
    + destruct code; [congruence | simpl; lia].
    + cbn [m_prev m_rest m_caps app]. rewrite N.eqb_refl. reflexivity.
  - reflexivity.
  - cbn [m_caps]. unfold set_cap. cbn [Nat.eqb]. f_equal.
    apply (consumed_run _ _ code).
Qed.

(** Inline code loses its backticks: for markup-free [pre], [code] and
    [post], the code not empty, [cleanContent] turns [pre`code`post] into
    [pre ++ code ++ post]. *)
Theorem cleanContent_inline_code (pre code post : jsstr) :
  markup_free pre -> starts_with (js "---") pre = false ->
  code <> [] -> markup_free code -> markup_free post ->
  cleanContent (pre ++ (96%N :: code ++ [96%N]) ++ post) = pre ++ code ++ post.
Proof.
  intros Hpre Hfm Hc Hcode Hpost.
  set (m := 96%N :: code ++ [96%N]).
  assert (Hpre' := proj1 (markup_free_free_of pre) Hpre).
  assert (Hcode' := proj1 (markup_free_free_of code) Hcode).
  assert (Hpost' := proj1 (markup_free_free_of post) Hpost).
  assert (Hfree : free_of [35; 42; 95]%N (pre ++ m ++ post)).
  { apply free_of_app; [sub_free Hpre' |].
    apply free_of_app; [| sub_free Hpost'].
    unfold m. constructor; [simpl; intuition discriminate |].
    apply free_of_app; [sub_free Hcode' |].
    constructor; [simpl; intuition discriminate | constructor]. }
  unfold cleanContent.
  rewrite replace_first_front_matter_none
    by (apply starts_with_firstn; unfold m; rewrite <- app_comm_cons;
        apply starts_with_extend; [exact Hfm | discriminate]).
  rewrite (replace_all_no_match heading _ [35%N] exec_heading_dead) by sub_free Hfree.
  rewrite (replace_all_no_match bold _ [42%N; 95%N] exec_bold_dead) by sub_free Hfree.
  rewrite (replace_all_no_match italic _ [42%N; 95%N] exec_italic_dead) by sub_free Hfree.
  destruct (exec_inline_code (after_run None pre) code post Hc
              ltac:(sub_free Hcode')) as [st [E [Er Ec]]].
  fold m in E.
  assert (E1 : replace_all inline_code [TGroup 1] 0 None (pre ++ m ++ post) =
               pre ++ code ++ post).
  { rewrite (replace_all_copy_free inline_code _ [96%N] pre _ None exec_inline_code_dead)
      by sub_free Hpre'.
    f_equal.
    rewrite (replace_all_match inline_code _ _ m post st); trivial; [| discriminate].
    simpl substitute. rewrite Ec, app_nil_r. f_equal.
    apply (replace_all_no_match inline_code _ [96%N] exec_inline_code_dead).
    sub_free Hpost'. }
  rewrite E1.
  assert (Hres : free_of [35; 42; 95; 96; 126; 91]%N (pre ++ code ++ post))
    by (repeat apply free_of_app; assumption).
  rewrite (replace_all_no_match strikethrough _ [126%N] exec_strikethrough_dead)
    by sub_free Hres.
  apply (replace_all_no_match link _ [91%N] exec_link_dead). sub_free Hres.
Qed.

(** The theorem at a sentence with one code span. *)
Lemma cleanContent_inline_code_witness :
  markup_free (js "run ") /\ starts_with (js "---") (js "run ") = false /\
  js "ls -l" <> [] /\ markup_free (js "ls -l") /\ markup_free (js " now") /\
  cleanContent (js "run " ++ (96%N :: js "ls -l" ++ [96%N]) ++ js " now") =
    js "run " ++ js "ls -l" ++ js " now".
Proof.
  assert (H1 : markup_free (js "run ")) by (repeat constructor).
  assert (H4 : markup_free (js "ls -l")) by (repeat constructor).
  assert (H5 : markup_free (js " now")) by (repeat constructor).
  split; [exact H1 |]. split; [reflexivity |]. split; [discriminate |].
  split; [exact H4 |]. split; [exact H5 |].
  apply (cleanContent_inline_code (js "run ") (js "ls -l") (js " now")
           H1 eq_refl ltac:(discriminate) H4 H5).
Defined.

Lemma dot_run (t : jsstr) :
  Forall (fun c => is_line_terminator c = false) t ->
  Forall (fun c => dot c = true) t.
Proof.
  intro H. eapply Forall_impl; [| exact H]. intros c Hc. simpl in Hc.
  unfold dot. rewrite Hc. reflexivity.
Qed.

(** Inside a text without the character [d], a delimiter that starts with
    [d] is not found before the end of the text. *)
Lemma strip_prefix_inside (d : code_unit) (delim t tail : jsstr)
    (prev : option code_unit) :
  free_of [d] t ->
  forall a b, t = a ++ b -> b <> [] ->
  strip_prefix (d :: delim) (b ++ tail) prev = None.
Proof.
  intros Ht a b E Hb.
  pose proof (Forall_split_suffix _ _ _ _ Ht E) as Hbf.
  destruct b as [| x b]; [congruence |]. inversion Hbf as [| ? ? Hx _]; subst.
  simpl. destruct (N.eqb_spec x d) as [-> | _]; [| reflexivity].
  exfalso. apply Hx. left. reflexivity.
Qed.

Lemma exec_strikethrough (prev : option code_unit) (t post : jsstr) :
  free_of [126%N] t -> Forall (fun c => is_line_terminator c = false) t ->
  exists st,
    exec strikethrough prev ((js "~~" ++ t ++ js "~~") ++ post) = Some st /\
    m_rest st = post /\ m_caps st 1%nat = Some t.
Proof.
  intros Ht Hdot. eexists. split; [| split].
  - unfold exec, strikethrough. cbn [mtch].
    rewrite mtch_lit. cbn [m_rest m_prev m_caps].
    rewrite <- !app_assoc. rewrite strip_prefix_app.
    cbn [mtch m_rest m_prev m_caps].
    apply rep_lazy_run.
    + apply dot_run. exact Hdot.
    + intros a b E Hb _. rewrite mtch_lit. cbn [m_rest m_prev m_caps].
      rewrite (strip_prefix_inside 126%N [126%N] t _ _ Ht a b E Hb). reflexivity.
    + lia.
    + rewrite mtch_lit. cbn [m_rest m_prev m_caps].
      rewrite strip_prefix_app. reflexivity.
  - reflexivity.
  - cbn [m_caps]. unfold set_cap. cbn [Nat.eqb]. f_equal.
    apply (consumed_run _ _ t).
Qed.

(** Strikethrough loses its tildes: for markup-free [pre], [t] and [post],
    [t] on one line, [cleanContent] turns [pre~~t~~post] into
    [pre ++ t ++ post]. *)
Theorem cleanContent_strikethrough (pre t post : jsstr) :
  markup_free pre -> starts_with (js "---") pre = false ->
  markup_free t -> Forall (fun c => is_line_terminator c = false) t ->
  markup_free post ->
  cleanContent (pre ++ (js "~~" ++ t ++ js "~~") ++ post) = pre ++ t ++ post.
Proof.
  intros Hpre Hfm Ht Hdot Hpost.
  set (m := js "~~" ++ t ++ js "~~").
  assert (Hpre' := proj1 (markup_free_free_of pre) Hpre).
  assert (Ht' := proj1 (markup_free_free_of t) Ht).
  assert (Hpost' := proj1 (markup_free_free_of post) Hpost).
  assert (Hfree : free_of [35; 42; 95; 96]%N (pre ++ m ++ post)).
  { apply free_of_app; [sub_free Hpre' |].
    apply free_of_app; [| sub_free Hpost'].
    unfold m. constructor; [simpl; intuition discriminate |].
    constructor; [simpl; intuition discriminate |].
    apply free_of_app; [sub_free Ht' |].
    repeat (constructor; [simpl; intuition discriminate |]). constructor. }
  unfold cleanContent.
  rewrite replace_first_front_matter_none
    by (apply starts_with_firstn; unfold m;
        change (js "~~" ++ t ++ js "~~") with (126%N :: 126%N :: t ++ js "~~");
        rewrite <- app_comm_cons;
        apply starts_with_extend; [exact Hfm | discriminate]).
  rewrite (replace_all_no_match heading _ [35%N] exec_heading_dead) by sub_free Hfree.
  rewrite (replace_all_no_match bold _ [42%N; 95%N] exec_bold_dead) by sub_free Hfree.
  rewrite (replace_all_no_match italic _ [42%N; 95%N] exec_italic_dead) by sub_free Hfree.
  rewrite (replace_all_no_match inline_code _ [96%N] exec_inline_code_dead)
    by sub_free Hfree.
  destruct (exec_strikethrough (after_run None pre) t post
              ltac:(sub_free Ht') Hdot) as [st [E [Er Ec]]].
  fold m in E.
  assert (E1 : replace_all strikethrough [TGroup 1] 0 None (pre ++ m ++ post) =
               pre ++ t ++ post).
  { rewrite (replace_all_copy_free strikethrough _ [126%N] pre _ None
               exec_strikethrough_dead) by sub_free Hpre'.
    f_equal.
    rewrite (replace_all_match strikethrough _ _ m post st); trivial;
      [| discriminate].
    simpl substitute. rewrite Ec, app_nil_r. f_equal.
    apply (replace_all_no_match strikethrough _ [126%N] exec_strikethrough_dead).
    sub_free Hpost'. }
  rewrite E1.
  assert (Hres : free_of [35; 42; 95; 96; 126; 91]%N (pre ++ t ++ post))
    by (repeat apply free_of_app; assumption).
  apply (replace_all_no_match link _ [91%N] exec_link_dead). sub_free Hres.
Qed.

(** The theorem at a sentence with one struck-out word. *)
Lemma cleanContent_strikethrough_witness :
  markup_free (js "a ") /\ starts_with (js "---") (js "a ") = false /\
  markup_free (js "gone") /\
  Forall (fun c => is_line_terminator c = false) (js "gone") /\
  markup_free (js " b") /\
  cleanContent (js "a " ++ (js "~~" ++ js "gone" ++ js "~~") ++ js " b") =
    js "a " ++ js "gone" ++ js " b".
Proof.
  assert (H1 : markup_free (js "a ")) by (repeat constructor).
  assert (H3 : markup_free (js "gone")) by (repeat constructor).
  assert (H4 : Forall (fun c => is_line_terminator c = false) (js "gone"))
    by (repeat constructor).
  assert (H5 : markup_free (js " b")) by (repeat constructor).
  split; [exact H1 |]. split; [reflexivity |]. split; [exact H3 |].
  split; [exact H4 |]. split; [exact H5 |].
  apply (cleanContent_strikethrough (js "a ") (js "gone") (js " b") H1 eq_refl H3 H4 H5).
Defined.

Lemma mtch_Seq (r1 r2 : regex) (st : mstate) (k : mstate -> option mstate) :
  mtch (Seq r1 r2) st k = mtch r1 st (fun st1 => mtch r2 st1 k).
Proof. reflexivity. Qed.

Lemma mtch_Grp (i : nat) (r : regex) (st : mstate) (k : mstate -> option mstate) :
  mtch (Grp i r) st k =
  mtch r st (fun st1 =>
    k (mkM (m_prev st1) (m_rest st1) (set_cap i (consumed st st1) (m_caps st1)))).
Proof. reflexivity. Qed.

Lemma mtch_Alt (r1 r2 : regex) (st : mstate) (k : mstate -> option mstate) :
  mtch (Alt r1 r2) st k =
  match mtch r1 st k with
  | Some res => Some res
  | None => mtch r2 st k
  end.
Proof. reflexivity. Qed.

(** The second half of the bold and italic patterns, [(.*?)\1], once group
    1 holds the delimiter [d]: on a text [t] of one line without the first
    character of [d], followed by [d], it reads [t] into group 2 and the
    closing delimiter. *)
Lemma mtch_delimited (c : code_unit) (d' : jsstr) (prev : option code_unit)
    (caps : nat -> option jsstr) (t post : jsstr) :
  caps 1%nat = Some (c :: d') -> free_of [c] t ->
  Forall (fun x => is_line_terminator x = false) t ->
  mtch (Seq (Grp 2 (Rep 0 false dot)) (Ref 1))
    (mkM prev (t ++ (c :: d') ++ post) caps) Some =
  Some (mkM (after_run (after_run prev t) (c :: d')) post (set_cap 2 t caps)).
Proof.
  intros Hcap Ht Hdot. cbn [mtch m_prev m_rest m_caps].
  assert (Hc2 : forall v, set_cap 2 v caps 1%nat = Some (c :: d'))
    by (intro v; unfold set_cap; simpl; exact Hcap).
  apply rep_lazy_run.
  - apply dot_run. exact Hdot.
  - intros a b E Hb _. cbn [m_prev m_rest m_caps]. rewrite Hc2.
    rewrite (strip_prefix_inside c d' t _ _ Ht a b E Hb). reflexivity.
  - lia.
  - cbn [m_prev m_rest m_caps]. rewrite Hc2, strip_prefix_app.
    rewrite consumed_run. reflexivity.
Qed.

Lemma exec_bold (prev : option code_unit) (d t post : jsstr) :
  d = js "**" \/ d = js "__" ->
  free_of [42; 95]%N t -> Forall (fun x => is_line_terminator x = false) t ->
  exists st,
    exec bold prev ((d ++ t ++ d) ++ post) = Some st /\
    m_rest st = post /\ m_caps st 2%nat = Some t.
Proof.
  intros Hd Ht Hdot. unfold exec, bold.
  rewrite mtch_Seq, mtch_Grp, mtch_Alt, !mtch_lit. cbn [m_rest m_prev m_caps].
  rewrite <- !app_assoc.
  destruct Hd as [-> | ->].
  - rewrite strip_prefix_app. cbn [m_rest m_prev m_caps].
    rewrite consumed_run.
    rewrite (mtch_delimited 42%N [42%N]);
      [| reflexivity | sub_free Ht | exact Hdot].
    eexists. split; [reflexivity |]. split; reflexivity.
  - change (strip_prefix (js "**") (js "__" ++ t ++ js "__" ++ post) prev) with (@None (option code_unit * jsstr)).
    rewrite strip_prefix_app. cbn [m_rest m_prev m_caps].
    rewrite consumed_run.
    rewrite (mtch_delimited 95%N [95%N]);
      [| reflexivity | sub_free Ht | exact Hdot].
    eexists. split; [reflexivity |]. split; reflexivity.
Qed.

Lemma later_four_plain (s : jsstr) :
  markup_free s ->
  replace_all link [TGroup 1] 0 None
    (replace_all strikethrough [TGroup 1] 0 None
       (replace_all inline_code [TGroup 1] 0 None
          (replace_all italic [TGroup 2] 0 None s))) = s.
Proof.
  intro H. pose proof (later_patterns_plain s H) as E.
  rewrite (replace_all_no_match bold _ [42%N; 95%N] exec_bold_dead) in E
    by (apply markup_free_not_in; [exact H | repeat constructor]).
  exact E.
Qed.

(** Bold text loses its delimiters: for markup-free [pre], [t] and [post],
    [t] on one line, and [d] one of [**] and [__], [cleanContent] turns
    [pre ++ d ++ t ++ d ++ post] into [pre ++ t ++ post]. *)
Theorem cleanContent_bold (pre d t post : jsstr) :
  d = js "**" \/ d = js "__" ->
  markup_free pre -> starts_with (js "---") pre = false ->
  markup_free t -> Forall (fun c => is_line_terminator c = false) t ->
  markup_free post ->
  cleanContent (pre ++ (d ++ t ++ d) ++ post) = pre ++ t ++ post.
Proof.
  intros Hd Hpre Hfm Ht Hdot Hpost.
  set (m := d ++ t ++ d).
  assert (Hpre' := proj1 (markup_free_free_of pre) Hpre).
  assert (Ht' := proj1 (markup_free_free_of t) Ht).
  assert (Hpost' := proj1 (markup_free_free_of post) Hpost).
  assert (Hdfree : free_of [35; 45]%N d)
    by (destruct Hd as [-> | ->]; repeat constructor; simpl; intuition discriminate).
  assert (Hdne : exists x d', d = x :: d' /\ x <> 45%N)
    by (destruct Hd as [-> | ->]; eexists _, _; (split; [reflexivity | discriminate])).
  assert (Hfree : free_of [35]%N (pre ++ m ++ post)).
  { apply free_of_app; [sub_free Hpre' |].
    apply free_of_app; [| sub_free Hpost'].
    unfold m. apply free_of_app; [sub_free Hdfree |].
    apply free_of_app; [sub_free Ht' | sub_free Hdfree]. }
  unfold cleanContent.
  rewrite replace_first_front_matter_none.
  2: { apply starts_with_firstn. destruct Hdne as [x [d' [Ed Hx]]].
       unfold m. rewrite Ed. rewrite <- !app_comm_cons.
       apply starts_with_extend; [exact Hfm | exact Hx]. }
  rewrite (replace_all_no_match heading _ [35%N] exec_heading_dead) by sub_free Hfree.
  destruct (exec_bold (after_run None pre) d t post Hd ltac:(sub_free Ht') Hdot)
    as [st [E [Er Ec]]].
  fold m in E.
  assert (E1 : replace_all bold [TGroup 2] 0 None (pre ++ m ++ post) =
               pre ++ t ++ post).
  { rewrite (replace_all_copy_free bold _ [42%N; 95%N] pre _ None exec_bold_dead)
      by sub_free Hpre'.
    f_equal.
    rewrite (replace_all_match bold _ _ m post st); trivial.
    - simpl substitute. rewrite Ec, app_nil_r. f_equal.
      apply (replace_all_no_match bold _ [42%N; 95%N] exec_bold_dead).
      sub_free Hpost'.
    - unfold m. destruct Hd as [-> | ->]; discriminate. }
  rewrite E1. apply later_four_plain.
  repeat apply markup_free_app; assumption.
Qed.

(** The theorem at a sentence with one bold word. *)
Lemma cleanContent_bold_witness :
  (js "__" = js "**" \/ js "__" = js "__") /\
  markup_free (js "a ") /\ starts_with (js "---") (js "a ") = false /\
  markup_free (js "strong") /\
  Forall (fun c => is_line_terminator c = false) (js "strong") /\
  markup_free (js " b") /\
  cleanContent (js "a " ++ (js "__" ++ js "strong" ++ js "__") ++ js " b") =
    js "a " ++ js "strong" ++ js " b".
Proof.
  assert (H0 : js "__" = js "**" \/ js "__" = js "__") by (right; reflexivity).
  assert (H1 : markup_free (js "a ")) by (repeat constructor).
  assert (H3 : markup_free (js "strong")) by (repeat constructor).
  assert (H4 : Forall (fun c => is_line_terminator c = false) (js "strong"))
    by (repeat constructor).
  assert (H5 : markup_free (js " b")) by (repeat constructor).
  split; [exact H0 |]. split; [exact H1 |]. split; [reflexivity |].
  split; [exact H3 |]. split; [exact H4 |]. split; [exact H5 |].
  apply (cleanContent_bold (js "a ") (js "__") (js "strong") (js " b")
           H0 H1 eq_refl H3 H4 H5).
Defined.

(** ** Italic *)

Lemma replace_all_copy_one (r : regex) (tpl : list titem) (prev : option code_unit)
    (c : code_unit) (s : jsstr) :
  exec r prev (c :: s) = None ->
  replace_all r tpl 0 prev (c :: s) = c :: replace_all r tpl 0 (Some c) s.
Proof.
  intro H.
  change (replace_all r tpl 0 prev (c :: s))
    with (match exec r prev (c :: s) with
          | Some st =>
              substitute tpl (m_caps st) ++
              match (length (c :: s) - length (m_rest st))%nat with
              | O => c :: replace_all r tpl 0 (Some c) s
              | S n => replace_all r tpl n (Some c) s
              end
          | None => c :: replace_all r tpl 0 (Some c) s
          end).
  rewrite H. reflexivity.
Qed.

(** A single [*] or [_] does not open bold text. *)
Lemma exec_bold_lone (prev : option code_unit) (d : code_unit) (s : jsstr) :
  head_not_in [42; 95]%N s -> exec bold prev (d :: s) = None.
Proof.
  intro H. unfold exec, bold.
  rewrite mtch_Seq, mtch_Grp, mtch_Alt, !mtch_lit. cbn [m_rest m_prev m_caps].
  assert (E : forall c, In c [42; 95]%N ->
              strip_prefix [c; c] (d :: s) prev = None).
  { intros c Hc. simpl. destruct (d =? c)%N; [| reflexivity].
    destruct s as [| x s]; [reflexivity |].
    rewrite (eqb_not_in x c _ H Hc). reflexivity. }
  change (js "**") with [42; 42]%N. change (js "__") with [95; 95]%N.
  rewrite !E by (simpl; tauto). reflexivity.
Qed.

Lemma consumed_one (prev prev' : option code_unit) (c : code_unit) (tail : jsstr)
    (caps caps' : nat -> option jsstr) :
  consumed (mkM prev (c :: tail) caps) (mkM prev' tail caps') = [c].
Proof. apply (consumed_run prev prev' [c] tail). Qed.

Lemma mtch_Lit_same (c : code_unit) (prev : option code_unit) (rest : jsstr)
    (caps : nat -> option jsstr) (k : mstate -> option mstate) :
  mtch (Lit c) (mkM prev (c :: rest) caps) k = k (mkM (Some c) rest caps).
Proof. simpl. rewrite N.eqb_refl. reflexivity. Qed.

Lemma mtch_Lit_other (c x : code_unit) (prev : option code_unit) (rest : jsstr)
    (caps : nat -> option jsstr) (k : mstate -> option mstate) :
  x <> c -> mtch (Lit c) (mkM prev (x :: rest) caps) k = None.
Proof. intro H. simpl. apply N.eqb_neq in H. rewrite H. reflexivity. Qed.

Lemma exec_italic (prev : option code_unit) (d : code_unit) (t post : jsstr) :
  d = 42%N \/ d = 95%N ->
  free_of [42; 95]%N t -> Forall (fun x => is_line_terminator x = false) t ->
  exists st,
    exec italic prev ((d :: t ++ [d]) ++ post) = Some st /\
    m_rest st = post /\ m_caps st 2%nat = Some t.
Proof.
  intros Hd Ht Hdot. unfold exec, italic.
  rewrite mtch_Seq, mtch_Grp, mtch_Alt. rewrite <- app_comm_cons, <- app_assoc.
  destruct Hd as [-> | ->].
  - rewrite mtch_Lit_same. cbn [m_rest m_prev m_caps]. rewrite consumed_one.
    rewrite (mtch_delimited 42%N []);
      [| reflexivity | sub_free Ht | exact Hdot].
    eexists. split; [reflexivity |]. split; reflexivity.
  - rewrite mtch_Lit_other by discriminate.
    rewrite mtch_Lit_same. cbn [m_rest m_prev m_caps]. rewrite consumed_one.
    rewrite (mtch_delimited 95%N []);
      [| reflexivity | sub_free Ht | exact Hdot].
    eexists. split; [reflexivity |]. split; reflexivity.
Qed.

Lemma later_three_plain (s : jsstr) :
  markup_free s ->
  replace_all link [TGroup 1] 0 None
    (replace_all strikethrough [TGroup 1] 0 None
       (replace_all inline_code [TGroup 1] 0 None s)) = s.
Proof.
  intro H. pose proof (later_four_plain s H) as E.
  rewrite (replace_all_no_match italic _ [42%N; 95%N] exec_italic_dead) in E
    by (apply markup_free_not_in; [exact H | repeat constructor]).
  exact E.
Qed.

Lemma head_not_in_app (starts : list code_unit) (a b : jsstr) :
  a <> [] -> free_of starts a -> head_not_in starts (a ++ b).
Proof.
  intros Ha H. destruct a as [| x a]; [congruence |].
  inversion H; assumption.
Qed.

Lemma head_not_in_free (starts : list code_unit) (a : jsstr) :
  free_of starts a -> head_not_in starts a.
Proof. intro H. destruct H; [exact I | assumption]. Qed.

(** Italic text loses its delimiters: for markup-free [pre], [t] and
    [post], [t] not empty and on one line, and [d] one of [*] and [_],
    [cleanContent] turns [pre ++ d ++ t ++ d ++ post] into
    [pre ++ t ++ post]. *)
Theorem cleanContent_italic (pre : jsstr) (d : code_unit) (t post : jsstr) :
  d = 42%N \/ d = 95%N ->
  markup_free pre -> starts_with (js "---") pre = false ->
  t <> [] -> markup_free t -> Forall (fun c => is_line_terminator c = false) t ->
  markup_free post ->
  cleanContent (pre ++ (d :: t ++ [d]) ++ post) = pre ++ t ++ post.
Proof.
  intros Hd Hpre Hfm Hne Ht Hdot Hpost.
  set (m := d :: t ++ [d]).
  assert (Hpre' := proj1 (markup_free_free_of pre) Hpre).
  assert (Ht' := proj1 (markup_free_free_of t) Ht).
  assert (Hpost' := proj1 (markup_free_free_of post) Hpost).
  assert (Hd35 : ~ In d [35]%N) by (destruct Hd as [-> | ->]; simpl; intuition discriminate).
  assert (Hd45 : d <> 45%N) by (destruct Hd as [-> | ->]; discriminate).
  assert (Hfree : free_of [35]%N (pre ++ m ++ post)).
  { apply free_of_app; [sub_free Hpre' |].
    apply free_of_app; [| sub_free Hpost'].
    unfold m. constructor; [exact Hd35 |].
    apply free_of_app; [sub_free Ht' |]. constructor; [exact Hd35 | constructor]. }
  unfold cleanContent.
  rewrite replace_first_front_matter_none
    by (apply starts_with_firstn; unfold m; rewrite <- app_comm_cons;
        apply starts_with_extend; [exact Hfm | exact Hd45]).
  rewrite (replace_all_no_match heading _ [35%N] exec_heading_dead) by sub_free Hfree.
  assert (E0 : replace_all bold [TGroup 2] 0 None (pre ++ m ++ post) =
               pre ++ m ++ post).
  { rewrite (replace_all_copy_free bold _ [42%N; 95%N] pre _ None exec_bold_dead)
      by sub_free Hpre'.
    f_equal. unfold m. rewrite <- app_comm_cons, <- app_assoc.
    rewrite replace_all_copy_one
      by (apply exec_bold_lone; apply head_not_in_app; [exact Hne | sub_free Ht']).
    f_equal.
    rewrite (replace_all_copy_free bold _ [42%N; 95%N] t _ _ exec_bold_dead)
      by sub_free Ht'.
    f_equal. simpl app.
    rewrite replace_all_copy_one
      by (apply exec_bold_lone; apply head_not_in_free; sub_free Hpost').
    f_equal.
    apply (replace_all_no_match bold _ [42%N; 95%N] exec_bold_dead).
    sub_free Hpost'. }
  rewrite E0.
  destruct (exec_italic (after_run None pre) d t post Hd ltac:(sub_free Ht') Hdot)
    as [st [E [Er Ec]]].
  fold m in E.
  assert (E1 : replace_all italic [TGroup 2] 0 None (pre ++ m ++ post) =
               pre ++ t ++ post).
  { rewrite (replace_all_copy_free italic _ [42%N; 95%N] pre _ None exec_italic_dead)
      by sub_free Hpre'.
    f_equal.
    rewrite (replace_all_match italic _ _ m post st); trivial; [| discriminate].
    simpl substitute. rewrite Ec, app_nil_r. f_equal.
    apply (replace_all_no_match italic _ [42%N; 95%N] exec_italic_dead).
    sub_free Hpost'. }
  rewrite E1. apply later_three_plain.
  repeat apply markup_free_app; assumption.
Qed.

(** The theorem at a sentence with one word in italics. *)
Lemma cleanContent_italic_witness :
  (42%N = 42%N \/ 42%N = 95%N) /\
  markup_free (js "an ") /\ starts_with (js "---") (js "an ") = false /\
  js "odd" <> [] /\ markup_free (js "odd") /\
  Forall (fun c => is_line_terminator c = false) (js "odd") /\
  markup_free (js " word") /\
  cleanContent (js "an " ++ (42%N :: js "odd" ++ [42%N]) ++ js " word") =
    js "an " ++ js "odd" ++ js " word".
Proof.
  assert (H0 : 42%N = 42%N \/ 42%N = 95%N) by (left; reflexivity).
  assert (H1 : markup_free (js "an ")) by (repeat constructor).
  assert (H3 : markup_free (js "odd")) by (repeat constructor).
  assert (H4 : Forall (fun c => is_line_terminator c = false) (js "odd"))
    by (repeat constructor).
  assert (H5 : markup_free (js " word")) by (repeat constructor).
  split; [exact H0 |]. split; [exact H1 |]. split; [reflexivity |].
  split; [discriminate |]. split; [exact H3 |]. split; [exact H4 |].
  split; [exact H5 |].
  apply (cleanContent_italic (js "an ") 42%N (js "odd") (js " word")
           H0 H1 eq_refl ltac:(discriminate) H3 H4 H5).
Defined.

(** * The command as a whole *)

(** Cleaning is not idempotent: doubled backticks lose one pair at a
    time. *)
Example cleanContent_twice :
  cleanContent (js "``a``") = js "`a`" /\
  cleanContent (cleanContent (js "``a``")) = js "a".
Proof. vm_compute. split; reflexivity. Qed.


